(** * PageSnap: used-style extraction and snapshot assembly

    A shallow embedding of the capture pipeline of [lib/cloner] (the function
    injected into the active tab) and of the background [FETCH_CSS] listener,
    together with the properties of the design specification that were
    checked against it.

    JavaScript strings are sequences of UTF-16 code units; a code unit is a
    natural number ([N]) and a string is a list of code units.  Host
    facilities (the selector engine, [CSS.supports], [matchMedia], the URL
    parser, [fetch], the message channel, the CSS parser) are parameters of
    the model. *)

From Stdlib Require Import String Ascii DecimalString.
From Stdlib Require Import List NArith Arith Bool Lia.
Import Datatypes.
Import ListNotations.

Set Implicit Arguments.
#[local] Set Warnings "-register-all".

(* ================================================================== *)
(** * Part I: definitions *)
(* ================================================================== *)

(** ** JavaScript strings *)

Definition code_unit := N.
Definition jsstring := list code_unit.

Definition ch (a : ascii) : code_unit := N_of_ascii a.

Fixpoint str (s : String.string) : jsstring :=
  match s with
  | String.EmptyString => []
  | String.String a s' => ch a :: str s'
  end.

Definition DQUOTE : code_unit := 34%N.
Definition SQUOTE : code_unit := 39%N.
Definition LPAREN : code_unit := 40%N.
Definition RPAREN : code_unit := 41%N.
Definition COMMA : code_unit := 44%N.
Definition HYPHEN : code_unit := 45%N.
Definition COLON : code_unit := 58%N.
Definition LBRACKET : code_unit := 91%N.
Definition BACKSLASH : code_unit := 92%N.
Definition RBRACKET : code_unit := 93%N.
Definition NEWLINE : code_unit := 10%N.

Fixpoint jseq (a b : jsstring) : bool :=
  match a, b with
  | [], [] => true
  | x :: a', y :: b' => N.eqb x y && jseq a' b'
  | _, _ => false
  end.

(** A string is truthy when it is not empty. *)
Definition truthy (s : jsstring) : bool :=
  match s with [] => false | _ :: _ => true end.

(** [String.prototype.startsWith]. *)
Fixpoint startsWith (p s : jsstring) : bool :=
  match p, s with
  | [], _ => true
  | x :: p', y :: s' => N.eqb x y && startsWith p' s'
  | _ :: _, [] => false
  end.

(** The code units that [String.prototype.trim] strips: WhiteSpace and
    LineTerminator of ECMAScript. *)
Definition isWhiteSpace (c : code_unit) : bool :=
  ((9 <=? c) && (c <=? 13) || (c =? 32) || (c =? 160) || (c =? 5760)
   || (8192 <=? c) && (c <=? 8202) || (c =? 8232) || (c =? 8233)
   || (c =? 8239) || (c =? 8287) || (c =? 12288) || (c =? 65279))%N.

Fixpoint trimStart (s : jsstring) : jsstring :=
  match s with
  | c :: s' => if isWhiteSpace c then trimStart s' else s
  | [] => []
  end.

Definition trimEnd (s : jsstring) : jsstring := rev (trimStart (rev s)).

Definition trim (s : jsstring) : jsstring := trimEnd (trimStart s).

(** [Array.prototype.join]. *)
Fixpoint join (sep : jsstring) (l : list jsstring) : jsstring :=
  match l with
  | [] => []
  | [x] => x
  | x :: l' => x ++ sep ++ join sep l'
  end.

(** Decimal rendering of a number inside a template literal. *)
Definition showN (n : N) : jsstring :=
  str (NilZero.string_of_uint (N.to_uint n)).

(** ** Selector list splitter ([splitSelectors]) *)

Definition isQuoteChar (c : code_unit) : bool := (c =? DQUOTE)%N || (c =? SQUOTE)%N.
Definition isOpener (c : code_unit) : bool := (c =? LPAREN)%N || (c =? LBRACKET)%N.
Definition isCloser (c : code_unit) : bool := (c =? RPAREN)%N || (c =? RBRACKET)%N.

(** [const trimmed = current.trim(); if (trimmed) selectors.push(trimmed)] *)
Definition pushTrimmed (selectors : list jsstring) (current : jsstring) : list jsstring :=
  if truthy (trim current) then selectors ++ [trim current] else selectors.

Definition isBackslash (prev : option code_unit) : bool :=
  match prev with Some p => (p =? BACKSLASH)%N | None => false end.

(** The body of the [for] loop, run over the code units that remain;
    [prev] is [selectorText[i - 1]] ([None] for [undefined] at [i = 0]). *)
Fixpoint splitLoop (prev : option code_unit) (rest : jsstring)
    (selectors : list jsstring) (current : jsstring) (depth : nat)
    (quote : option code_unit) : list jsstring :=
  match rest with
  | [] => pushTrimmed selectors current
  | c :: rest' =>
    match quote with
    | Some q =>
      let quote' := if (c =? q)%N && negb (isBackslash prev) then None else Some q in
      splitLoop (Some c) rest' selectors (current ++ [c]) depth quote'
    | None =>
      if isQuoteChar c then
        splitLoop (Some c) rest' selectors (current ++ [c]) depth (Some c)
      else if isOpener c then
        splitLoop (Some c) rest' selectors (current ++ [c]) (depth + 1) None
      else if isCloser c then
        splitLoop (Some c) rest' selectors (current ++ [c]) (Nat.max 0 (depth - 1)) None
      else if (c =? COMMA)%N && (depth =? 0) then
        splitLoop (Some c) rest' (pushTrimmed selectors current) [] depth None
      else
        splitLoop (Some c) rest' selectors (current ++ [c]) depth None
    end
  end.

Definition splitSelectors (selectorText : jsstring) : list jsstring :=
  splitLoop None selectorText [] [] 0 None.

(** *** The splitter as the specification words it

    A comma separates when it lies outside every quoted region and outside
    all bracket/paren nesting.  [separatorMask] classifies each code unit,
    [piecesAt] cuts the text at the classified commas, and the clauses are
    the trimmed pieces that are not empty. *)

Fixpoint separatorMask (prev : option code_unit) (quote : option code_unit)
    (depth : nat) (s : jsstring) : list bool :=
  match s with
  | [] => []
  | c :: s' =>
    match quote with
    | Some q =>
      (* inside a quoted region: it ends at the same quote character unless
         a backslash precedes it *)
      false :: separatorMask (Some c)
                 (if (c =? q)%N && negb (isBackslash prev) then None else Some q)
                 depth s'
    | None =>
      if isQuoteChar c then false :: separatorMask (Some c) (Some c) depth s'
      else if isOpener c then false :: separatorMask (Some c) None (S depth) s'
      else if isCloser c then false :: separatorMask (Some c) None (pred depth) s'
      else ((c =? COMMA)%N && (depth =? 0)) :: separatorMask (Some c) None depth s'
    end
  end.

Fixpoint piecesAt (s : jsstring) (mask : list bool) (piece : jsstring) : list jsstring :=
  match s, mask with
  | c :: s', b :: mask' =>
    if b then piece :: piecesAt s' mask' [] else piecesAt s' mask' (piece ++ [c])
  | _, _ => [piece]
  end.

Definition specClauses (s : jsstring) : list jsstring :=
  filter truthy (map trim (piecesAt s (separatorMask None None 0 s) [])).

(** The scanner state reached at the end of a text: the open quote, if
    any, and the nesting depth. *)
Fixpoint scanEnd (prev : option code_unit) (quote : option code_unit)
    (depth : nat) (s : jsstring) : option code_unit * nat :=
  match s with
  | [] => (quote, depth)
  | c :: s' =>
    match quote with
    | Some q =>
      scanEnd (Some c)
        (if (c =? q)%N && negb (isBackslash prev) then None else Some q) depth s'
    | None =>
      if isQuoteChar c then scanEnd (Some c) (Some c) depth s'
      else if isOpener c then scanEnd (Some c) None (S depth) s'
      else if isCloser c then scanEnd (Some c) None (pred depth) s'
      else scanEnd (Some c) None depth s'
    end
  end.

(** ** Regular expressions

    Backtracking matchers in continuation-passing style, as the ECMAScript
    pattern semantics defines them: a matcher receives the remaining input
    and a continuation, and answers with the input left after the whole
    match, or [None]. *)

Definition matcher := jsstring -> (jsstring -> option jsstring) -> option jsstring.

Definition rChar (p : code_unit -> bool) : matcher :=
  fun s k => match s with
             | c :: s' => if p c then k s' else None
             | [] => None
             end.

Definition rEmpty : matcher := fun s k => k s.

Definition rSeq (a b : matcher) : matcher := fun s k => a s (fun s' => b s' k).

(** [a|b]: the left alternative first, the right one when everything after
    the left one fails. *)
Definition rAlt (a b : matcher) : matcher :=
  fun s k => match a s k with
             | Some r => Some r
             | None => b s k
             end.

(** Greedy [a?]. *)
Definition rOpt (a : matcher) : matcher := rAlt a rEmpty.

(** Greedy [[class]*]: the longest run first, giving code units back one at
    a time. *)
Fixpoint rStar (p : code_unit -> bool) (s : jsstring)
    (k : jsstring -> option jsstring) : option jsstring :=
  match s with
  | c :: s' =>
    if p c then
      match rStar p s' k with
      | Some r => Some r
      | None => k s
      end
    else k s
  | [] => k []
  end.

Definition rPlus (p : code_unit -> bool) : matcher := rSeq (rChar p) (rStar p).

Fixpoint rConcat (l : list matcher) : matcher :=
  match l with
  | [] => rEmpty
  | a :: l' => rSeq a (rConcat l')
  end.

Fixpoint rAlts (l : list matcher) : matcher :=
  match l with
  | [] => fun _ _ => None
  | a :: l' => rAlt a (rAlts l')
  end.

(** Canonicalization under the [i] flag (without [u]): a code unit of 128
    or more is never identified with an ASCII one, so only the ASCII
    letters fold. *)
Definition toLowerAscii (c : code_unit) : code_unit :=
  if ((65 <=? c) && (c <=? 90))%N then (c + 32)%N else c.

Definition eqIgnoreCase (p c : code_unit) : bool :=
  (toLowerAscii c =? toLowerAscii p)%N.

Definition rIs (p : code_unit) : matcher := rChar (N.eqb p).
Definition rIsI (p : code_unit) : matcher := rChar (eqIgnoreCase p).

(** A literal word under the [i] flag. *)
Definition rWordI (w : jsstring) : matcher := rConcat (map rIsI w).

(** The length of the match of [r] at the start of [s]. *)
Definition matchLength (r : matcher) (s : jsstring) : option nat :=
  match r s (fun rest => Some rest) with
  | Some rest => Some (length s - length rest)
  | None => None
  end.

(** [String.prototype.replace] with a global pattern and a replacer
    function of the matched text: matches are taken leftmost first and the
    scan resumes after each match.  [skip] counts the code units of the
    current match still to be passed over.  None of the patterns below
    matches the empty string. *)
Fixpoint replaceFrom (r : matcher) (f : jsstring -> jsstring) (skip : nat)
    (s : jsstring) : jsstring :=
  match s with
  | [] => []
  | c :: s' =>
    match skip with
    | S k => replaceFrom r f k s'
    | O =>
      match matchLength r s with
      | Some (S k) => f (firstn (S k) s) ++ replaceFrom r f k s'
      | _ => c :: replaceFrom r f 0 s'
      end
    end
  end.

Definition replaceAll (r : matcher) (f : jsstring -> jsstring) (s : jsstring) : jsstring :=
  replaceFrom r f 0 s.

Definition remove (r : matcher) (s : jsstring) : jsstring :=
  replaceAll r (fun _ => []) s.

(** ** Selector normalizer ([normalizeSelector]) *)

(** [/::?before|::?after/gi] *)
Definition reBeforeAfter : matcher :=
  rAlt (rConcat [rIsI COLON; rOpt (rIsI COLON); rWordI (str "before")])
       (rConcat [rIsI COLON; rOpt (rIsI COLON); rWordI (str "after")]).

(** [/::[\\w-]+/g]: inside the class, the escaped backslash is a literal
    backslash, followed by the letter [w] and the hyphen. *)
Definition pseudoElementClass (c : code_unit) : bool :=
  ((c =? BACKSLASH) || (c =? ch "w") || (c =? HYPHEN))%N.

Definition rePseudoElement : matcher :=
  rConcat [rIs COLON; rIs COLON; rPlus pseudoElementClass].

(** [/:(hover|active|focus|focus-visible|focus-within|visited|link|checked|disabled|enabled|target)/gi] *)
Definition statePseudoClasses : list String.string :=
  ["hover"; "active"; "focus"; "focus-visible"; "focus-within"; "visited";
   "link"; "checked"; "disabled"; "enabled"; "target"]%string.

Definition reStatePseudo : matcher :=
  rSeq (rIsI COLON) (rAlts (map (fun w => rWordI (str w)) statePseudoClasses)).

Definition normalizeSelector (selector : jsstring) : jsstring :=
  let normalized := selector in
  let normalized := remove reBeforeAfter normalized in
  let normalized := remove rePseudoElement normalized in
  let normalized := remove reStatePseudo normalized in
  trim normalized.

(** Some position of [s] starts a match of [r]. *)
Fixpoint matchesSomewhere (r : matcher) (s : jsstring) : bool :=
  match s with
  | [] => false
  | _ :: s' =>
    match matchLength r s with
    | Some (S _) => true
    | _ => matchesSomewhere r s'
    end
  end.

(** One of the three patterns of the normalizer still occurs in [s]. *)
Definition hasRemovablePseudo (s : jsstring) : bool :=
  matchesSomewhere reBeforeAfter s || matchesSomewhere rePseudoElement s
  || matchesSomewhere reStatePseudo s.

(** ** URL rewriter ([rewriteCssUrls]) *)

Definition isQuote (c : code_unit) : bool := ((c =? SQUOTE) || (c =? DQUOTE))%N.
Definition notQuoteOrParen (c : code_unit) : bool :=
  negb ((c =? SQUOTE) || (c =? DQUOTE) || (c =? RPAREN))%N.

(** [/url\\(\\s*(?:['"]?)([^'")]+)(?:['"]?)\\s*\\)/gi].  In the pattern as
    written each doubled backslash is an escaped, literal backslash; the
    parenthesis after the first one opens capture group 1, which closes at
    the end of the pattern:
    [url], a backslash, then group 1 = backslash, [s*], an optional quote,
    group 2 = [[^'")]+], an optional quote, backslash, [s*], backslash. *)
Definition reUrlGroup1 : matcher :=
  rConcat [rIsI BACKSLASH; rStar (eqIgnoreCase (ch "s")); rOpt (rChar isQuote);
           rPlus notQuoteOrParen; rOpt (rChar isQuote);
           rIsI BACKSLASH; rStar (eqIgnoreCase (ch "s")); rIsI BACKSLASH].

Definition reUrlPrefix : matcher := rSeq (rWordI (str "url")) (rIsI BACKSLASH).

Definition reUrl : matcher := rSeq reUrlPrefix reUrlGroup1.

(** The replacer [(match, url) => ...].  Its second argument is capture
    group 1, which is the matched text without its first four code units
    (those matched by [reUrlPrefix]).  [resolve url base] is
    [new URL(url, base).href], [None] when the constructor throws. *)
Definition urlReplacer (resolve : jsstring -> jsstring -> option jsstring)
    (baseUrl : jsstring) (matched : jsstring) : jsstring :=
  let url := skipn 4 matched in
  if negb (truthy url) || startsWith (str "data:") url || startsWith (str "blob:") url
     || startsWith (str "about:") url || startsWith (str "#") url
  then matched
  else match resolve url baseUrl with
       | Some absolute => str "url(" ++ [DQUOTE] ++ absolute ++ [DQUOTE] ++ str ")"
       | None => matched
       end.

Definition rewriteCssUrls (resolve : jsstring -> jsstring -> option jsstring)
    (cssText : jsstring) (baseUrl : option jsstring) : jsstring :=
  match baseUrl with
  | Some b => if truthy b then replaceAll reUrl (urlReplacer resolve b) cssText else cssText
  | None => cssText
  end.

(** Every match of [r] takes at least [n] code units: the continuation is
    called on what is left of the input after [n] or more of them. *)
Definition consumes (n : nat) (r : matcher) : Prop :=
  forall s k res,
    r s k = Some res -> exists rest, k rest = Some res /\ length rest + n <= length s.

(** The references the rewriter finds in a text, in scan order. *)
Fixpoint urlMatchesFrom (skip : nat) (s : jsstring) : list jsstring :=
  match s with
  | [] => []
  | _ :: s' =>
    match skip with
    | S k => urlMatchesFrom k s'
    | O =>
      match matchLength reUrl s with
      | Some (S k) => firstn (S k) s :: urlMatchesFrom k s'
      | _ => urlMatchesFrom 0 s'
      end
    end
  end.

Definition urlMatches (s : jsstring) : list jsstring := urlMatchesFrom 0 s.

(** [inlineCssUrls]: with [inlineAssets] either way the rewritten text is
    returned. *)
Definition inlineCssUrls (resolve : jsstring -> jsstring -> option jsstring)
    (cssText : jsstring) (baseUrl : option jsstring) (inlineAssets : bool) : jsstring :=
  let rewritten := rewriteCssUrls resolve cssText baseUrl in
  if negb inlineAssets then rewritten else rewritten.

(** ** Network retrieval *)

(** A value caught by [catch (error)]: an [Error] object with its message,
    or anything else. *)
Inductive thrown :=
| ErrorObject (message : jsstring)
| NotAnError.

(** [error instanceof Error ? error.message : fallback] *)
Definition messageOf (e : thrown) (fallback : jsstring) : jsstring :=
  match e with
  | ErrorObject message => message
  | NotAnError => fallback
  end.

(** What [await response.text()] does. *)
Inductive body_outcome :=
| BodyText (text : jsstring)
| BodyThrows (e : thrown).

(** What [await fetch(url, { credentials: 'include' })] does: it rejects,
    or it yields a response with its [ok] flag, its [status] and its body. *)
Inductive fetch_outcome :=
| FetchThrows (e : thrown)
| FetchResponds (ok : bool) (status : N) (body : body_outcome).

(** The structured result [{ ok, text?, error? }] of the relay; an absent
    property is [None]. *)
Record relay_response := {
  r_ok : bool;
  r_text : option jsstring;
  r_error : option jsstring
}.

(** The result [{ text, error }] of [fetchStylesheetText]; [null] is
    [None]. *)
Record fetch_result := {
  f_text : option jsstring;
  f_error : option jsstring
}.

(** *** The privileged side: the background [FETCH_CSS] listener *)

(** The asynchronous block of the listener: the retrieval and the response
    it sends. *)
Definition fetchCssTask (outcome : fetch_outcome) : relay_response :=
  match outcome with
  | FetchResponds ok status body =>
    if negb ok then
      {| r_ok := false; r_text := None;
         r_error := Some (str "HTTP " ++ showN status) |}
    else
      match body with
      | BodyText text => {| r_ok := true; r_text := Some text; r_error := None |}
      | BodyThrows e =>
        {| r_ok := false; r_text := None;
           r_error := Some (messageOf e (str "Unknown fetch error")) |}
      end
  | FetchThrows e =>
    {| r_ok := false; r_text := None;
       r_error := Some (messageOf e (str "Unknown fetch error")) |}
  end.

(** A message received by the listener: its [type] and its [url], the
    latter [None] when it is absent or not a string. *)
Record message := {
  m_type : jsstring;
  m_url : option jsstring
}.

(** The listener: the response passed to [sendResponse], [None] when it is
    never called. *)
Definition onMessage (fetch : jsstring -> fetch_outcome) (msg : option message)
    : option relay_response :=
  match msg with
  | None => None
  | Some m =>
    if negb (jseq (m_type m) (str "FETCH_CSS")) then None
    else
      match m_url m with
      | Some url =>
        if truthy url then Some (fetchCssTask (fetch url))
        else Some {| r_ok := false; r_text := None; r_error := Some (str "Invalid URL") |}
      | None => Some {| r_ok := false; r_text := None; r_error := Some (str "Invalid URL") |}
      end
  end.

(** *** The unprivileged side: [fetchStylesheetText] *)

(** The direct path. *)
Definition fetchDirect (outcome : fetch_outcome) : fetch_result :=
  match outcome with
  | FetchResponds ok status body =>
    if negb ok then
      {| f_text := None; f_error := Some (str "HTTP " ++ showN status) |}
    else
      match body with
      | BodyText text => {| f_text := Some text; f_error := None |}
      | BodyThrows e =>
        {| f_text := None; f_error := Some (messageOf e (str "Unknown fetch error")) |}
      end
  | FetchThrows e =>
    {| f_text := None; f_error := Some (messageOf e (str "Unknown fetch error")) |}
  end.

(** The argument the message channel passes to the callback of
    [sendMessage]: an object read as a relay response, or anything that is
    falsy or not an object. *)
Inductive callback_value :=
| ResultObject (r : relay_response)
| NotAnObject.

(** The promise built around [sendMessage]: the [settled] flag, whether the
    timer is still pending, the value the promise was resolved with and the
    time, in milliseconds since the call, at which that happened. *)
Record relay_promise := {
  settled : bool;
  timerPending : bool;
  resolved : option relay_response;
  resolvedAt : option N
}.

Definition timeoutDelay : N := 3000%N.

Definition timeoutResponse : relay_response :=
  {| r_ok := false; r_text := None; r_error := Some (str "Background fetch timeout") |}.

Definition failedResponse : relay_response :=
  {| r_ok := false; r_text := None; r_error := Some (str "Background fetch failed") |}.

(** What the host does once the executor has run: it runs the timer
    callback, or it runs the [sendMessage] callback with a result. *)
Inductive relay_event :=
| TimerFires
| CallbackRuns (result : callback_value).

(** The executor: it arms the timer, then calls [sendMessage], which may
    throw at once. *)
Definition relayStart (sendThrows : option thrown) : relay_promise :=
  match sendThrows with
  | None =>
    {| settled := false; timerPending := true; resolved := None; resolvedAt := None |}
  | Some e =>
    {| settled := true; timerPending := false;
       resolved := Some {| r_ok := false; r_text := None;
                           r_error := Some (messageOf e (str "Background fetch error")) |};
       resolvedAt := Some 0%N |}
  end.

(** One host event at time [now].  A timer that was cleared does not run. *)
Definition relayStep (p : relay_promise) (ev : N * relay_event) : relay_promise :=
  let (now, e) := ev in
  match e with
  | TimerFires =>
    if negb (timerPending p) then p
    else if settled p then
      {| settled := true; timerPending := false;
         resolved := resolved p; resolvedAt := resolvedAt p |}
    else
      {| settled := true; timerPending := false;
         resolved := Some timeoutResponse; resolvedAt := Some now |}
  | CallbackRuns result =>
    if settled p then p
    else
      {| settled := true; timerPending := false;
         resolved := Some (match result with
                           | ResultObject r => r
                           | NotAnObject => failedResponse
                           end);
         resolvedAt := Some now |}
  end.

Definition relayRun (p : relay_promise) (events : list (N * relay_event)) : relay_promise :=
  fold_left relayStep events p.

(** How the privileged side behaves for one request: [sendMessage] throws,
    the callback runs with a result after some milliseconds, or it never
    runs. *)
Inductive relay_behaviour :=
| SendThrows (e : thrown)
| RespondsAfter (ms : N) (result : callback_value)
| NeverResponds.

(** The events of one relay call in the order the host runs them: the timer
    callback is due [timeoutDelay] ms after the call. *)
Definition relaySchedule (b : relay_behaviour) : list (N * relay_event) :=
  match b with
  | SendThrows _ => []
  | NeverResponds => [(timeoutDelay, TimerFires)]
  | RespondsAfter ms result =>
    if (ms <? timeoutDelay)%N
    then [(ms, CallbackRuns result); (timeoutDelay, TimerFires)]
    else [(timeoutDelay, TimerFires); (ms, CallbackRuns result)]
  end.

Definition relayPromise (b : relay_behaviour) : relay_promise :=
  relayRun (relayStart (match b with SendThrows e => Some e | _ => None end))
           (relaySchedule b).

(** [if (!response.ok || !response.text) ... response.error || '...'] *)
Definition orElse (s : option jsstring) (fallback : jsstring) : jsstring :=
  match s with
  | Some x => if truthy x then x else fallback
  | None => fallback
  end.

Definition truthyOpt (s : option jsstring) : bool :=
  match s with
  | Some x => truthy x
  | None => false
  end.

Definition classifyRelay (response : relay_response) : fetch_result :=
  if negb (r_ok response) || negb (truthyOpt (r_text response)) then
    {| f_text := None;
       f_error := Some (orElse (r_error response) (str "Background fetch failed")) |}
  else
    {| f_text := r_text response; f_error := None |}.

(** The network as the capture sees it. *)
Record Network := {
  relayAvailable : bool;   (* [chrome.runtime?.sendMessage] is there *)
  relay : jsstring -> relay_behaviour;
  fetch : jsstring -> fetch_outcome
}.

(** [None] stands for a call that never returns: the awaited promise
    stays pending. *)
Definition fetchStylesheetText (useHostFetch : bool) (net : Network) (href : jsstring)
    : option fetch_result :=
  if useHostFetch && relayAvailable net then
    match resolved (relayPromise (relay net href)) with
    | Some response => Some (classifyRelay response)
    | None => None
    end
  else Some (fetchDirect (fetch net href)).

(** ** Stylesheet traversal and collection ([collectUsedCss]) *)

(** Style sources live in an arena and are named by their index; the index
    stands for the identity of the [CSSStyleSheet] object. *)
Definition sheetId := nat.

Inductive rule :=
| CSSStyleRule (selectorText cssText : jsstring)
| CSSMediaRule (conditionText : jsstring) (cssRules : list rule)
| CSSSupportsRule (conditionText : jsstring) (cssRules : list rule)
| CSSKeyframesRule (cssText : jsstring)
| CSSFontFaceRule (cssText : jsstring)
| CSSImportRule (styleSheet : option sheetId)
| CSSGroupingRule (cssText : jsstring) (cssRules : list rule)  (* any other rule with [cssRules] *)
| CSSOtherRule (cssText : jsstring).                            (* any other rule *)

(** A style source: its address and its rule list, [None] when reading
    [cssRules] raises. *)
Record CSSStyleSheet := {
  href : option jsstring;
  sheetRules : option (list rule)
}.

(** The answers of the host's engines. *)
Record Engine := {
  querySelector : jsstring -> option bool;   (* [None]: the call throws *)
  cssSupports : jsstring -> bool;            (* [CSS.supports(condition)] *)
  mediaMatches : jsstring -> bool;           (* [matchMedia(condition).matches] *)
  resolveUrl : jsstring -> jsstring -> option jsstring;
  parseRules : jsstring -> option (list rule);   (* [parseRulesFromText] *)
  sheets : list CSSStyleSheet;               (* the arena of style sources *)
  documentStyleSheets : list sheetId
}.

(** [selectorMatches] *)
Definition selectorMatches (eng : Engine) (selector : jsstring) : bool :=
  match querySelector eng selector with
  | Some found => found
  | None =>
    let normalized := normalizeSelector selector in
    if negb (truthy normalized) || jseq normalized selector then false
    else match querySelector eng normalized with
         | Some found => found
         | None => false
         end
  end.

(** [Set.prototype.add] on a set kept in insertion order. *)
Fixpoint setAdd (x : jsstring) (s : list jsstring) : list jsstring :=
  match s with
  | [] => [x]
  | y :: s' => if jseq x y then s else y :: setAdd x s'
  end.

Definition visitedHas (i : sheetId) (visited : list sheetId) : bool :=
  existsb (Nat.eqb i) visited.

Definition visitedAdd (i : sheetId) (visited : list sheetId) : list sheetId :=
  if visitedHas i visited then visited else visited ++ [i].

(** The mutable state of one capture: the three partitions of the collected
    text, the visited set and the warnings.  [examined] is a ghost trace:
    the style sources that got past the visited check, in order. *)
Record collector := {
  usedRules : list jsstring;
  fontFaces : list jsstring;
  keyframes : list jsstring;
  visitedSheets : list sheetId;
  warnings : list jsstring;
  examined : list sheetId
}.

Definition emptyCollector : collector :=
  {| usedRules := []; fontFaces := []; keyframes := []; visitedSheets := [];
     warnings := []; examined := [] |}.

Definition addKeyframes (x : jsstring) (st : collector) : collector :=
  {| usedRules := usedRules st; fontFaces := fontFaces st;
     keyframes := setAdd x (keyframes st); visitedSheets := visitedSheets st;
     warnings := warnings st; examined := examined st |}.

Definition addFontFace (x : jsstring) (st : collector) : collector :=
  {| usedRules := usedRules st; fontFaces := setAdd x (fontFaces st);
     keyframes := keyframes st; visitedSheets := visitedSheets st;
     warnings := warnings st; examined := examined st |}.

Definition pushUsedRules (l : list jsstring) (st : collector) : collector :=
  {| usedRules := usedRules st ++ l; fontFaces := fontFaces st;
     keyframes := keyframes st; visitedSheets := visitedSheets st;
     warnings := warnings st; examined := examined st |}.

Definition pushWarning (w : jsstring) (st : collector) : collector :=
  {| usedRules := usedRules st; fontFaces := fontFaces st;
     keyframes := keyframes st; visitedSheets := visitedSheets st;
     warnings := warnings st ++ [w]; examined := examined st |}.

Definition markVisited (i : sheetId) (st : collector) : collector :=
  {| usedRules := usedRules st; fontFaces := fontFaces st;
     keyframes := keyframes st; visitedSheets := visitedAdd i (visitedSheets st);
     warnings := warnings st; examined := examined st ++ [i] |}.

(** [`@media ${conditionText}{${nested.join('')}}`] and its [@supports]
    twin. *)
Definition wrapGroup (keyword conditionText : jsstring) (nested : list jsstring) : jsstring :=
  keyword ++ conditionText ++ str "{" ++ join [] nested ++ str "}".

(** [collectRules], for one rule and for a rule list.  [fromSheet] is the
    call of [collectFromStylesheet]; a result of [None] is a call that has
    not returned. *)
Fixpoint collectRule (eng : Engine)
    (fromSheet : sheetId -> collector -> option collector)
    (r : rule) (st : collector) {struct r} : option (list jsstring * collector) :=
  (* the recursive call [collectRules(rule.cssRules)] *)
  let collectNested :=
    fix collectNested (rules : list rule) (st : collector) {struct rules}
        : option (list jsstring * collector) :=
      match rules with
      | [] => Some ([], st)
      | r' :: rules' =>
        match collectRule eng fromSheet r' st with
        | None => None
        | Some (c1, st1) =>
          match collectNested rules' st1 with
          | None => None
          | Some (c2, st2) => Some (c1 ++ c2, st2)
          end
        end
      end in
  match r with
  | CSSStyleRule selectorText cssText =>
    let selectors := splitSelectors selectorText in
    if existsb (selectorMatches eng) selectors then Some ([cssText], st)
    else Some ([], st)
  | CSSMediaRule conditionText cssRules =>
    match collectNested cssRules st with
    | None => None
    | Some (nested, st') =>
      if 0 <? length nested
      then Some ([wrapGroup (str "@media ") conditionText nested], st')
      else Some ([], st')
    end
  | CSSSupportsRule conditionText cssRules =>
    if negb (cssSupports eng conditionText) then Some ([], st)
    else
      match collectNested cssRules st with
      | None => None
      | Some (nested, st') =>
        if 0 <? length nested
        then Some ([wrapGroup (str "@supports ") conditionText nested], st')
        else Some ([], st')
      end
  | CSSKeyframesRule cssText => Some ([], addKeyframes cssText st)
  | CSSFontFaceRule cssText => Some ([], addFontFace cssText st)
  | CSSImportRule styleSheet =>
    match styleSheet with
    | Some sheet =>
      if negb (visitedHas sheet (visitedSheets st)) then
        match fromSheet sheet st with
        | None => None
        | Some st' => Some ([], st')
        end
      else Some ([], st)
    | None => Some ([], st)
    end
  | CSSGroupingRule cssText cssRules =>
    match collectNested cssRules st with
    | None => None
    | Some (nested, st') =>
      if 0 <? length nested then Some ([cssText], st') else Some ([], st')
    end
  | CSSOtherRule _ => Some ([], st)
  end.

(** The [for] loop over a rule list: what each rule contributes is pushed
    to [collected] in order. *)
Fixpoint collectRuleList (eng : Engine)
    (fromSheet : sheetId -> collector -> option collector)
    (rules : list rule) (st : collector) : option (list jsstring * collector) :=
  match rules with
  | [] => Some ([], st)
  | r :: rules' =>
    match collectRule eng fromSheet r st with
    | None => None
    | Some (c1, st1) =>
      match collectRuleList eng fromSheet rules' st1 with
      | None => None
      | Some (c2, st2) => Some (c1 ++ c2, st2)
      end
    end
  end.

(** [collectRules(rules)] with [rules] possibly [null]. *)
Definition collectRules (eng : Engine)
    (fromSheet : sheetId -> collector -> option collector)
    (rules : option (list rule)) (st : collector) : option (list jsstring * collector) :=
  match rules with
  | None => Some ([], st)
  | Some l => collectRuleList eng fromSheet l st
  end.

Definition blockedWarning (h : jsstring) : jsstring :=
  str "cssRules blocked for stylesheet: " ++ h.

(** [`Failed to fetch stylesheet: ${sheet.href} (${fallbackResult.error})`];
    a [null] error is rendered as the word null. *)
Definition fetchFailedWarning (h : jsstring) (error : option jsstring) : jsstring :=
  str "Failed to fetch stylesheet: " ++ h ++ str " ("
  ++ match error with Some e => e | None => str "null" end ++ str ")".

(** The body of [collectFromStylesheet] once the visited check has passed:
    the style source is marked, then its rules are read inside [try] and
    the [catch] block handles the refusal.  [fromSheet] is the recursive
    call made for [@import] rules.  The refusal is the exception of the
    [cssRules] getter; what follows it inside [try] is taken not to throw
    (the engine accepts the spread of [push], whatever the number of
    collected rules). *)
Definition examineSheet (useHostFetch : bool) (net : Network) (eng : Engine)
    (fromSheet : sheetId -> collector -> option collector)
    (sheet : sheetId) (s : CSSStyleSheet) (st : collector) : option collector :=
  let st := markVisited sheet st in
  match sheetRules s with
  | Some rules =>
    match collectRules eng fromSheet (Some rules) st with
    | None => None
    | Some (nested, st) => Some (pushUsedRules nested st)
    end
  | None =>
    (* the [catch] block *)
    if negb (truthyOpt (href s)) then Some st
    else
      let h := match href s with Some h => h | None => [] end in
      let st := pushWarning (blockedWarning h) st in
      match fetchStylesheetText useHostFetch net h with
      | None => None
      | Some fallbackResult =>
        if negb (truthyOpt (f_text fallbackResult)) then
          Some (pushWarning (fetchFailedWarning h (f_error fallbackResult)) st)
        else
          let fetched := match f_text fallbackResult with Some t => t | None => [] end in
          let updatedCssText :=
            inlineCssUrls (resolveUrl eng) fetched (Some h) false in
          let parsedRules := parseRules eng updatedCssText in
          match collectRules eng fromSheet parsedRules st with
          | None => None
          | Some (nested, st) => Some (pushUsedRules nested st)
          end
      end
  end.

(** [collectFromStylesheet].  The recursion through [@import] is bounded by
    [fuel], the number of nested calls still allowed; [None] is returned
    when it runs out.  An index outside the arena names no style source. *)
Fixpoint collectFromStylesheet (useHostFetch : bool) (net : Network) (eng : Engine)
    (fuel : nat) (sheet : sheetId) (st : collector) : option collector :=
  if visitedHas sheet (visitedSheets st) then Some st
  else
    match nth_error (sheets eng) sheet with
    | None => Some st
    | Some s =>
      match fuel with
      | O => None
      | S fuel' =>
        examineSheet useHostFetch net eng
          (collectFromStylesheet useHostFetch net eng fuel') sheet s st
      end
    end.

(** The loop over [document.styleSheets]. *)
Fixpoint collectSheets (useHostFetch : bool) (net : Network) (eng : Engine)
    (fuel : nat) (l : list sheetId) (st : collector) : option collector :=
  match l with
  | [] => Some st
  | sheet :: l' =>
    match collectFromStylesheet useHostFetch net eng fuel sheet st with
    | None => None
    | Some st' => collectSheets useHostFetch net eng fuel l' st'
    end
  end.

Definition collectedText (st : collector) : jsstring :=
  join [NEWLINE] (fontFaces st ++ keyframes st ++ usedRules st).

(** [collectUsedCss], started from the warnings gathered so far; it yields
    the collected text and the final state.  The nesting of calls never
    exceeds the number of style sources. *)
Definition collectUsedCss (useHostFetch : bool) (net : Network) (eng : Engine)
    (warningsSoFar : list jsstring) : option (jsstring * collector) :=
  let st0 := {| usedRules := []; fontFaces := []; keyframes := [];
                visitedSheets := []; warnings := warningsSoFar; examined := [] |} in
  match collectSheets useHostFetch net eng (length (sheets eng))
                      (documentStyleSheets eng) st0 with
  | None => None
  | Some st => Some (collectedText st, st)
  end.

(** ** Document tree *)

(** Elements carry their local name (lower case for HTML elements), their
    attributes in order and their children.  This is the tree of child
    nodes, the one selector queries walk; the contents of a [template]
    element are a fragment of their own, not children, and are not part of
    it. *)
Inductive node :=
| Element (localName : jsstring) (attributes : list (jsstring * jsstring))
          (childNodes : list node)
| Text (data : jsstring)
| Comment (data : jsstring).

Record document := {
  doctypeName : option jsstring;   (* [document.doctype?.name] *)
  documentElement : node
}.

Definition hasTag (name : String.string) (n : node) : bool :=
  match n with
  | Element localName _ _ => jseq localName (str name)
  | _ => false
  end.

Fixpoint getAttribute (name : jsstring) (attrs : list (jsstring * jsstring))
    : option jsstring :=
  match attrs with
  | [] => None
  | (k, v) :: attrs' => if jseq k name then Some v else getAttribute name attrs'
  end.

Definition hasAttribute (name : String.string) (n : node) : bool :=
  match n with
  | Element _ attrs _ =>
    match getAttribute (str name) attrs with Some _ => true | None => false end
  | _ => false
  end.

(** [[name="value"]]; for [rel] an HTML document compares the value
    without regard to ASCII case, for [as] exactly. *)
Definition attrIs (ignoreCase : bool) (name value : String.string) (n : node) : bool :=
  match n with
  | Element _ attrs _ =>
    match getAttribute (str name) attrs with
    | Some v =>
      if ignoreCase then jseq (map toLowerAscii v) (map toLowerAscii (str value))
      else jseq v (str value)
    | None => false
    end
  | _ => false
  end.

(** [root.querySelectorAll(selector).forEach((node) => node.remove())] for
    a selector that looks at one element only: every descendant that
    matches goes, with its subtree. *)
Fixpoint removeAll (matches : node -> bool) (root : node) : node :=
  match root with
  | Element name attrs children =>
    Element name attrs
      ((fix keep (l : list node) : list node :=
          match l with
          | [] => []
          | c :: l' => if matches c then keep l' else removeAll matches c :: keep l'
          end) children)
  | other => other
  end.

(** [const target = root.querySelector(selector); target.appendChild(child)]:
    the child goes to the first descendant, in tree order, that matches;
    nothing happens without one. *)
Fixpoint appendToFirst (matches : node -> bool) (child : node) (n : node)
    {struct n} : option node :=
  match n with
  | Element name attrs children =>
    let inList :=
      fix inList (l : list node) {struct l} : option (list node) :=
        match l with
        | [] => None
        | c :: l' =>
          if matches c then
            match c with
            | Element cn ca cc => Some (Element cn ca (cc ++ [child]) :: l')
            | _ => None
            end
          else
            match appendToFirst matches child c with
            | Some c' => Some (c' :: l')
            | None =>
              match inList l' with
              | Some l'' => Some (c :: l'')
              | None => None
              end
            end
        end in
    match inList children with
    | Some children' => Some (Element name attrs children')
    | None => None
    end
  | _ => None
  end.

(** The search of [appendToFirst] through a list of siblings. *)
Fixpoint appendToFirstIn (matches : node -> bool) (child : node) (l : list node)
    : option (list node) :=
  match l with
  | [] => None
  | c :: l' =>
    if matches c then
      match c with
      | Element cn ca cc => Some (Element cn ca (cc ++ [child]) :: l')
      | _ => None
      end
    else
      match appendToFirst matches child c with
      | Some c' => Some (c' :: l')
      | None =>
        match appendToFirstIn matches child l' with
        | Some l'' => Some (c :: l'')
        | None => None
        end
      end
  end.

Definition appendUnder (matches : node -> bool) (child : node) (root : node) : node :=
  match appendToFirst matches child root with
  | Some root' => root'
  | None => root
  end.

(** *** Serialization ([outerHTML])

    The character escapes of text and of attribute values are the host's;
    the void elements and the raw-text elements are those of the HTML
    serialization algorithm.  What is written is the tree of child nodes;
    the host also writes the contents of [template] elements, which that
    tree does not hold. *)
Record Serializer := {
  escapeText : jsstring -> jsstring;
  escapeAttribute : jsstring -> jsstring
}.

Definition voidElements : list String.string :=
  ["area"; "base"; "basefont"; "bgsound"; "br"; "col"; "embed"; "frame"; "hr";
   "img"; "input"; "keygen"; "link"; "meta"; "param"; "source"; "track"; "wbr"]%string.

Definition rawTextElements : list String.string :=
  ["style"; "script"; "xmp"; "iframe"; "noembed"; "noframes"; "plaintext";
   "noscript"]%string.

Definition nameIn (names : list String.string) (name : jsstring) : bool :=
  existsb (fun w => jseq name (str w)) names.

Definition serializeAttribute (ser : Serializer) (a : jsstring * jsstring) : jsstring :=
  str " " ++ fst a ++ str "=" ++ [DQUOTE] ++ escapeAttribute ser (snd a) ++ [DQUOTE].

Fixpoint serialize (ser : Serializer) (raw : bool) (n : node) : jsstring :=
  match n with
  | Element name attrs children =>
    str "<" ++ name ++ flat_map (serializeAttribute ser) attrs ++ str ">"
    ++ (if nameIn voidElements name then []
        else flat_map (serialize ser (nameIn rawTextElements name)) children
             ++ str "</" ++ name ++ str ">")
  | Text data => if raw then data else escapeText ser data
  | Comment data => str "<!--" ++ data ++ str "-->"
  end.

Definition outerHTML (ser : Serializer) (n : node) : jsstring := serialize ser false n.

(** [String.prototype.includes]. *)
Fixpoint includes (needle hay : jsstring) : bool :=
  startsWith needle hay
  || match hay with
     | [] => false
     | _ :: hay' => includes needle hay'
     end.

(** ** Snapshot assembler (the function injected by [cloneActiveTab]) *)

Record CloneOptions := {
  removeScripts : bool;
  removeOriginalStyles : bool;
  useHostFetch : bool;
  addCsp : bool
}.

Record SerializedResult := {
  html : jsstring;
  resultWarnings : list jsstring
}.

(** The text of the freeze style element. *)
Definition freezeCss : jsstring :=
  join [NEWLINE]
    [ [];
      str "* {";
      str "  animation: none !important;";
      str "  transition: none !important;";
      str "  scroll-behavior: auto !important;";
      str "  caret-color: auto !important;";
      str "}";
      str "html, body {";
      str "  scroll-behavior: auto !important;";
      str "}";
      [] ].

Definition freezeStyle : node :=
  Element (str "style") [(str "data-pc-freeze", str "true")] [Text freezeCss].

(** [document.head]: the first [head] child of an [html] document element. *)
Definition documentHead (doc : document) : option node :=
  match documentElement doc with
  | Element name _ children =>
    if jseq name (str "html") then find (hasTag "head") children else None
  | _ => None
  end.

(** [node.appendChild(child)] on the first element of a list that
    satisfies [matches]. *)
Fixpoint appendToFirstOf (matches : node -> bool) (child : node) (l : list node)
    : list node :=
  match l with
  | [] => []
  | c :: l' =>
    if matches c then
      match c with
      | Element cn ca cc => Element cn ca (cc ++ [child]) :: l'
      | _ => c :: l'
      end
    else c :: appendToFirstOf matches child l'
  end.

(** Undoes [appendToFirstOf]: the last child of that element goes. *)
Fixpoint removeLastOfFirst (matches : node -> bool) (l : list node) : list node :=
  match l with
  | [] => []
  | c :: l' =>
    if matches c then
      match c with
      | Element cn ca cc => Element cn ca (removelast cc) :: l'
      | _ => c :: l'
      end
    else c :: removeLastOfFirst matches l'
  end.

(** [injectFreezeStyles]: [document.head?.appendChild(style)].  The result
    is the live document and whether the element was attached. *)
Definition injectFreezeStyles (doc : document) : document * bool :=
  match documentHead doc, documentElement doc with
  | Some _, Element name attrs children =>
    ({| doctypeName := doctypeName doc;
        documentElement :=
          Element name attrs (appendToFirstOf (hasTag "head") freezeStyle children) |},
     true)
  | _, _ => (doc, false)
  end.

(** The cleanup task returned by [injectFreezeStyles]: [style.remove()].
    Nothing else changes the live tree during a capture, so the element is
    still the last child of [document.head]; when it was never attached the
    call does nothing. *)
Definition removeFreezeStyles (attached : bool) (live : document) : document :=
  match attached, documentElement live with
  | true, Element name attrs children =>
    {| doctypeName := doctypeName live;
       documentElement := Element name attrs (removeLastOfFirst (hasTag "head") children) |}
  | _, _ => live
  end.

Definition isExtensionElement (n : node) : bool :=
  hasTag "plasmo-csui" n || hasTag "css-to-tailwind" n || hasTag "browser-mcp-container" n.

Definition isScriptPreload (n : node) : bool :=
  hasTag "link" n && attrIs true "rel" "modulepreload" n
  || hasTag "link" n && attrIs true "rel" "preload" n && attrIs false "as" "script" n.

Definition isStylesheetLink (n : node) : bool :=
  hasTag "link" n && attrIs true "rel" "stylesheet" n.

Definition isStylePreload (n : node) : bool :=
  hasTag "link" n && attrIs true "rel" "preload" n && attrIs false "as" "style" n.

Definition cspContent : jsstring :=
  str "default-src 'self' data:; script-src 'none'; object-src 'none'; base-uri 'none';".

Definition extractedStyle (extractedCss : jsstring) : node :=
  Element (str "style") [(str "data-pc-extracted", str "true")] [Text extractedCss].

Definition cspMeta : node :=
  Element (str "meta")
    [(str "http-equiv", str "Content-Security-Policy"); (str "content", cspContent)] [].

(** The pruning of the clone. *)
Definition pruneClone (options : CloneOptions) (cloneRoot : node) : node :=
  let cloneRoot := removeAll (hasTag "base") cloneRoot in
  let cloneRoot := removeAll isExtensionElement cloneRoot in
  let cloneRoot := removeAll (hasAttribute "data-extension-id") cloneRoot in
  let cloneRoot :=
    if removeScripts options
    then removeAll isScriptPreload (removeAll (hasTag "script") cloneRoot)
    else cloneRoot in
  if removeOriginalStyles options
  then removeAll isStylePreload
         (removeAll isStylesheetLink (removeAll (hasTag "style") cloneRoot))
  else cloneRoot.

(** The additions to the head of the clone; [headTarget] is looked up once,
    and both elements go to it. *)
Definition fillHead (options : CloneOptions) (extractedCss : jsstring)
    (cloneRoot : node) : node :=
  let cloneRoot :=
    if truthy extractedCss
    then appendUnder (hasTag "head") (extractedStyle extractedCss) cloneRoot
    else cloneRoot in
  if addCsp options then appendUnder (hasTag "head") cspMeta cloneRoot else cloneRoot.

Definition doctypeText (doc : document) : jsstring :=
  match doctypeName doc with
  | Some name => str "<!DOCTYPE " ++ name ++ str ">"
  | None => str "<!DOCTYPE html>"
  end.

(** The injected function.  [eng] holds the answers of the host's engines
    for the live document once the freeze style is in place.  The result is
    the serialized snapshot and the live document as the capture leaves it;
    [None] is a capture that does not return.  ([pauseMedia] and the two
    animation frames leave the tree as it is; that audio and video stay
    paused afterwards is not recorded in a tree.) *)
Definition captureInTab (ser : Serializer) (net : Network) (eng : Engine)
    (options : CloneOptions) (doc : document) : option (SerializedResult * document) :=
  let noWarnings : list jsstring := [] in
  let (live, attached) := injectFreezeStyles doc in
  match (if removeOriginalStyles options
         then match collectUsedCss (useHostFetch options) net eng noWarnings with
              | Some (css, st) => Some (css, warnings st)
              | None => None
              end
         else Some ([], noWarnings)) with
  | None => None
  | Some (extractedCss, allWarnings) =>
    let cloneRoot := documentElement live in   (* [cloneNode(true)] *)
    let cloneRoot := pruneClone options cloneRoot in
    let cloneRoot := fillHead options extractedCss cloneRoot in
    let doctype := doctypeText live in
    let live := removeFreezeStyles attached live in
    Some ({| html := doctype ++ [NEWLINE] ++ outerHTML ser cloneRoot;
             resultWarnings := allWarnings |}, live)
  end.

(** ** Measures and invariants of the traversal *)

(** The style sources of the arena that are not yet in the visited set. *)
Definition unvisited (eng : Engine) (visited : list sheetId) : nat :=
  length (filter (fun i => negb (visitedHas i visited))
                 (seq 0 (length (sheets eng)))).

(** [st'] continues [st]: the visited set only grows, the style sources
    examined in between are distinct, were not visited before and are
    visited after, and warnings are only appended. *)
Definition continues (st st' : collector) : Prop :=
  (forall j, In j (visitedSheets st) -> In j (visitedSheets st'))
  /\ (exists new,
        examined st' = examined st ++ new
        /\ NoDup new
        /\ forall j, In j new -> ~ In j (visitedSheets st) /\ In j (visitedSheets st'))
  /\ exists more, warnings st' = warnings st ++ more.

(** The engine with another answer to media queries. *)
Definition withMedia (m : jsstring -> bool) (eng : Engine) : Engine :=
  {| querySelector := querySelector eng;
     cssSupports := cssSupports eng;
     mediaMatches := m;
     resolveUrl := resolveUrl eng;
     parseRules := parseRules eng;
     sheets := sheets eng;
     documentStyleSheets := documentStyleSheets eng |}.

(** ** Example inputs *)

(** The answers of [new URL(reference, "https://e.com/x.css").href] for the
    two references met in the example of the rewriter: against an https
    base a leading backslash is read as a slash, the backslashes of the
    path become slashes and those of the query stay as they are. *)
Definition exampleResolve (url base : jsstring) : option jsstring :=
  if jseq url (str "\a?url\\b\\\\") then Some (str "https://e.com/a?url\\b\\\\")
  else if jseq url (str "\b\\\\") then Some (str "https://e.com/b////")
  else None.

Definition exampleCss : jsstring := str "url\\a?url\\b\\\\".
Definition exampleBase : jsstring := str "https://e.com/x.css".

Definition noResolve (url base : jsstring) : option jsstring := None.

(** A page viewed on a screen: every selector matches, no media query for
    print does. *)
Definition screenEngine (arena : list CSSStyleSheet) (top : list sheetId) : Engine :=
  {| querySelector := fun _ => Some true;
     cssSupports := fun _ => true;
     mediaMatches := fun condition => negb (jseq condition (str "print"));
     resolveUrl := noResolve;
     parseRules := fun _ => None;
     sheets := arena;
     documentStyleSheets := top |}.

Definition printRule : rule :=
  CSSMediaRule (str "print") [CSSStyleRule (str "p") (str "p { color: red; }")].

(** Two style sources that import each other; the first also imports
    itself. *)
Definition cyclicArena : list CSSStyleSheet :=
  [ {| href := Some (str "https://e.com/a.css");
       sheetRules := Some [CSSImportRule (Some 0); CSSImportRule (Some 1);
                           CSSStyleRule (str ".a") (str ".a { color: red; }")] |};
    {| href := Some (str "https://e.com/b.css");
       sheetRules := Some [CSSImportRule (Some 0);
                           CSSStyleRule (str ".b") (str ".b { color: blue; }")] |} ].

(** A style source whose rule list is blocked, followed by a readable one. *)
Definition blockedArena : list CSSStyleSheet :=
  [ {| href := Some (str "https://cdn.example/x.css"); sheetRules := None |};
    {| href := None;
       sheetRules := Some [CSSStyleRule (str ".a") (str ".a { color: red; }")] |} ].

(** A network without a relay on which every retrieval fails. *)
Definition offlineNetwork : Network :=
  {| relayAvailable := false;
     relay := fun _ => NeverResponds;
     fetch := fun _ => FetchThrows (ErrorObject (str "Failed to fetch")) |}.

(** A relay that answers an empty stylesheet after 20 ms. *)
Definition emptySheetNetwork : Network :=
  {| relayAvailable := true;
     relay := fun _ =>
       RespondsAfter 20 (ResultObject (fetchCssTask (FetchResponds true 200 (BodyText []))));
     fetch := fun _ => FetchResponds true 200 (BodyText []) |}.

(** A relay whose privileged side is hung. *)
Definition hungNetwork : Network :=
  {| relayAvailable := true;
     relay := fun _ => NeverResponds;
     fetch := fun _ => FetchThrows NotAnError |}.

Definition plainSerializer : Serializer :=
  {| escapeText := fun s => s; escapeAttribute := fun s => s |}.

Definition keepEverything : CloneOptions :=
  {| removeScripts := false; removeOriginalStyles := false;
     useHostFetch := false; addCsp := false |}.

(** A document whose [head] was removed by a script. *)
Definition headlessDocument : document :=
  {| doctypeName := Some (str "html");
     documentElement :=
       Element (str "html") [] [Element (str "body") [] [Text (str "hi")]] |}.

(** A document whose [head] carries a [data-extension-id] attribute. *)
Definition taggedHeadDocument : document :=
  {| doctypeName := Some (str "html");
     documentElement :=
       Element (str "html") []
         [Element (str "head") [(str "data-extension-id", str "abc")]
            [Element (str "title") [] [Text (str "t")]];
          Element (str "body") [] [Text (str "hi")]] |}.

Definition simpleDocument : document :=
  {| doctypeName := Some (str "html");
     documentElement :=
       Element (str "html") []
         [Element (str "head") [] [Element (str "title") [] [Text (str "t")]];
          Element (str "body") [] [Text (str "hi")]] |}.

(** A document with something of every kind the pruning looks for: a
    [base], scripts in the head and deep in the body, preloads, a
    stylesheet link, a style element, an extension element and an element
    tagged by an extension. *)
Definition clutteredDocument : document :=
  {| doctypeName := Some (str "html");
     documentElement :=
       Element (str "html") []
         [Element (str "head") []
            [Element (str "base") [(str "href", str "https://e.com/")] [];
             Element (str "title") [] [Text (str "t")];
             Element (str "link") [(str "rel", str "modulepreload");
                                   (str "href", str "m.js")] [];
             Element (str "link") [(str "rel", str "preload"); (str "as", str "script");
                                   (str "href", str "s.js")] [];
             Element (str "link") [(str "rel", str "preload"); (str "as", str "style");
                                   (str "href", str "p.css")] [];
             Element (str "link") [(str "rel", str "Stylesheet");
                                   (str "href", str "a.css")] [];
             Element (str "style") [] [Text (str ".a { color: red; }")];
             Element (str "script") [(str "src", str "s.js")] []];
          Element (str "body") []
            [Element (str "div") [(str "data-extension-id", str "abc")]
               [Text (str "x")];
             Element (str "plasmo-csui") [] [];
             Element (str "main") []
               [Element (str "p") []
                  [Text (str "hi");
                   Element (str "script") [] [Text (str "alert(1)")]]]]] |}.

Definition removeEverything : CloneOptions :=
  {| removeScripts := true; removeOriginalStyles := true;
     useHostFetch := false; addCsp := true |}.

(** A page on which no selector finds a node. *)
Definition bareEngine (arena : list CSSStyleSheet) (top : list sheetId) : Engine :=
  {| querySelector := fun _ => Some false;
     cssSupports := fun _ => true;
     mediaMatches := fun _ => true;
     resolveUrl := noResolve;
     parseRules := fun _ => None;
     sheets := arena;
     documentStyleSheets := top |}.

(** A page whose engine supports no [@supports] condition. *)
Definition unsupportingEngine (arena : list CSSStyleSheet) (top : list sheetId) : Engine :=
  {| querySelector := fun _ => Some true;
     cssSupports := fun _ => false;
     mediaMatches := fun _ => true;
     resolveUrl := noResolve;
     parseRules := fun _ => None;
     sheets := arena;
     documentStyleSheets := top |}.

(** A style source with a media group that holds a keyframes rule and a
    font-face rule beside a style rule. *)
Definition animatedArena : list CSSStyleSheet :=
  [ {| href := None;
       sheetRules :=
         Some [CSSMediaRule (str "print")
                 [CSSKeyframesRule (str "@keyframes spin { to { rotate: 1turn; } }");
                  CSSFontFaceRule (str "@font-face { font-family: X; }");
                  CSSStyleRule (str ".x") (str ".x { color: red; }")]] |} ].

(** A plain style source followed by the one of [animatedArena]. *)
Definition laterArena : list CSSStyleSheet :=
  {| href := None;
     sheetRules :=
       Some [CSSStyleRule (str ".a") (str ".a { color: red; }");
             CSSFontFaceRule (str "@font-face { font-family: Y; }");
             CSSKeyframesRule (str "@keyframes fade { to { opacity: 0; } }")] |}
  :: animatedArena.

(** What the first source of [laterArena] leaves behind. *)
Definition collectedSoFar : collector :=
  {| usedRules := [str ".a { color: red; }"];
     fontFaces := [str "@font-face { font-family: Y; }"];
     keyframes := [str "@keyframes fade { to { opacity: 0; } }"];
     visitedSheets := [0]; warnings := []; examined := [0] |}.

(** The media group of [animatedArena]. *)
Definition animatedGroup : rule :=
  CSSMediaRule (str "print")
    [CSSKeyframesRule (str "@keyframes spin { to { rotate: 1turn; } }");
     CSSFontFaceRule (str "@font-face { font-family: X; }");
     CSSStyleRule (str ".x") (str ".x { color: red; }")].

(** Blocked style sources: one without an address, one whose text can be
    retrieved. *)
Definition inlineBlockedArena : list CSSStyleSheet :=
  [ {| href := None; sheetRules := None |} ].


Definition emptyBodyNetwork : Network :=
  {| relayAvailable := false;
     relay := fun _ => NeverResponds;
     fetch := fun _ => FetchResponds true 200 (BodyText []) |}.

(** ** File names ([sanitizeFileName], [runClone]) *)

(** The class of the first pattern of [sanitizeFileName]: backslash,
    slash, colon, asterisk, question mark, double quote, the two angle
    brackets and the vertical bar. *)
Definition isPathHostile (c : code_unit) : bool :=
  ((c =? BACKSLASH) || (c =? ch "/") || (c =? COLON) || (c =? ch "*")
   || (c =? ch "?") || (c =? DQUOTE) || (c =? ch "<") || (c =? ch ">")
   || (c =? ch "|"))%N.

(** The two patterns of [sanitizeFileName], both global: one or more code
    units of the class above, and one or more of the class [\s], which
    holds the code units that [trim] strips. *)
Definition rePathHostile : matcher := rPlus isPathHostile.
Definition reSpaces : matcher := rPlus isWhiteSpace.

Definition sanitizeFileName (value : jsstring) : jsstring :=
  replaceAll reSpaces (fun _ => str "-")
    (replaceAll rePathHostile (fun _ => str "-") (trim value)).

(** [`${sanitizeFileName(title || 'pagesnap')}.html`] in [runClone]. *)
Definition snapshotFileName (title : option jsstring) : jsstring :=
  sanitizeFileName (orElse title (str "pagesnap")) ++ str ".html".

(** ** Splitting on every comma ([String.prototype.split(',')]) *)

Fixpoint splitOnCommas (s : jsstring) (piece : jsstring) : list jsstring :=
  match s with
  | [] => [piece]
  | c :: s' =>
    if (c =? COMMA)%N then piece :: splitOnCommas s' []
    else splitOnCommas s' (piece ++ [c])
  end.

(** One step of the scanner of [separatorMask]: whether the code unit
    separates, and the quote and depth after it. *)
Definition scanBit (quote : option code_unit) (depth : nat) (c : code_unit) : bool :=
  match quote with
  | Some _ => false
  | None =>
    if isQuoteChar c then false
    else if isOpener c then false
    else if isCloser c then false
    else (c =? COMMA)%N && (depth =? 0)
  end.

Definition scanNext (prev quote : option code_unit) (depth : nat) (c : code_unit)
    : option code_unit * nat :=
  match quote with
  | Some q => (if (c =? q)%N && negb (isBackslash prev) then None else Some q, depth)
  | None =>
    if isQuoteChar c then (Some c, depth)
    else if isOpener c then (None, S depth)
    else if isCloser c then (None, pred depth)
    else (None, depth)
  end.

(** The scanner state after a text: the last code unit, the open quote and
    the depth. *)
Fixpoint scanState (prev quote : option code_unit) (depth : nat) (s : jsstring)
    : option code_unit * option code_unit * nat :=
  match s with
  | [] => (prev, quote, depth)
  | c :: s' =>
    scanState (Some c) (fst (scanNext prev quote depth c))
              (snd (scanNext prev quote depth c)) s'
  end.

(** ** Growth of the collected text *)

(** [st'] has everything [st] had: the rule texts as a prefix, the two
    sets with their elements, still without duplicates. *)
Definition grows (st st' : collector) : Prop :=
  (exists more, usedRules st' = usedRules st ++ more)
  /\ incl (fontFaces st) (fontFaces st')
  /\ incl (keyframes st) (keyframes st')
  /\ (NoDup (fontFaces st) -> NoDup (fontFaces st'))
  /\ (NoDup (keyframes st) -> NoDup (keyframes st')).

(** The [@keyframes] and [@font-face] texts of a rule list that the walk
    reaches without following an [@import]: those at the top and those
    inside media groups, other grouping rules and supported [@supports]
    groups. *)
Fixpoint keyframesOf (eng : Engine) (r : rule) : list jsstring :=
  match r with
  | CSSKeyframesRule cssText => [cssText]
  | CSSMediaRule _ rules => flat_map (keyframesOf eng) rules
  | CSSGroupingRule _ rules => flat_map (keyframesOf eng) rules
  | CSSSupportsRule conditionText rules =>
    if cssSupports eng conditionText then flat_map (keyframesOf eng) rules else []
  | _ => []
  end.

Fixpoint fontFacesOf (eng : Engine) (r : rule) : list jsstring :=
  match r with
  | CSSFontFaceRule cssText => [cssText]
  | CSSMediaRule _ rules => flat_map (fontFacesOf eng) rules
  | CSSGroupingRule _ rules => flat_map (fontFacesOf eng) rules
  | CSSSupportsRule conditionText rules =>
    if cssSupports eng conditionText then flat_map (fontFacesOf eng) rules else []
  | _ => []
  end.

(** ** Descendants of a node *)

(** Some descendant of [n] (not [n] itself) satisfies [matches]:
    [n.querySelector(selector) !== null]. *)
Fixpoint hasDescendant (matches : node -> bool) (n : node) : bool :=
  match n with
  | Element _ _ children =>
    existsb (fun c => matches c || hasDescendant matches c) children
  | _ => false
  end.

(** A selector that looks at the name and the attributes of an element
    only. *)
Definition shallow (matches : node -> bool) : Prop :=
  forall name attrs children children',
    matches (Element name attrs children) = matches (Element name attrs children').

(** The tree that is serialized: the clone, pruned, with the additions to
    its head. *)
Definition snapshotRoot (options : CloneOptions) (extractedCss : jsstring)
    (doc : document) : node :=
  fillHead options extractedCss
    (pruneClone options (documentElement (fst (injectFreezeStyles doc)))).

(* ================================================================== *)
(** * Part II: properties *)
(* ================================================================== *)

Unset Implicit Arguments.

(** ** Strings *)

Lemma jseq_refl (a : jsstring) : jseq a a = true.
Proof.
  induction a as [|x a IH]; simpl; [reflexivity|].
  now rewrite N.eqb_refl, IH.
Qed.

Lemma jseq_eq (a b : jsstring) : jseq a b = true <-> a = b.
Proof.
  split.
  - revert b; induction a as [|x a IH]; intros [|y b]; simpl; try congruence.
    intros H. apply andb_true_iff in H as [Hx Hr].
    apply N.eqb_eq in Hx. f_equal; auto.
  - intros ->. apply jseq_refl.
Qed.

Lemma trimStart_length (s : jsstring) : length (trimStart s) <= length s.
Proof.
  induction s as [|c s IH]; simpl; [lia|].
  destruct (isWhiteSpace c); simpl; lia.
Qed.

Lemma trimStart_fixed (c : code_unit) (s : jsstring) :
  isWhiteSpace c = false -> trimStart (c :: s) = c :: s.
Proof. intros H; simpl; now rewrite H. Qed.

Lemma trimEnd_snoc (s : jsstring) (c : code_unit) :
  trimEnd (s ++ [c]) = if isWhiteSpace c then trimEnd s else s ++ [c].
Proof.
  unfold trimEnd. rewrite rev_app_distr. simpl.
  destruct (isWhiteSpace c); [reflexivity|].
  simpl. now rewrite rev_involutive.
Qed.

Lemma trimEnd_nil : trimEnd [] = [].
Proof. reflexivity. Qed.

Lemma trimEnd_cons (c : code_unit) (s : jsstring) :
  isWhiteSpace c = false -> trimEnd (c :: s) = c :: trimEnd s.
Proof.
  intros Hc. induction s as [|d s IH] using rev_ind.
  - change [c] with ([] ++ [c]). rewrite trimEnd_snoc, Hc. reflexivity.
  - change (c :: s ++ [d]) with ((c :: s) ++ [d]).
    rewrite !trimEnd_snoc. destruct (isWhiteSpace d); [exact IH|reflexivity].
Qed.

Lemma trimEnd_length (s : jsstring) : length (trimEnd s) <= length s.
Proof.
  unfold trimEnd. rewrite length_rev.
  etransitivity; [apply trimStart_length|]. now rewrite length_rev.
Qed.

Lemma trimEnd_idem (s : jsstring) : trimEnd (trimEnd s) = trimEnd s.
Proof.
  induction s as [|d s IH] using rev_ind; [reflexivity|].
  rewrite trimEnd_snoc. destruct (isWhiteSpace d) eqn:Hd; [exact IH|].
  now rewrite trimEnd_snoc, Hd.
Qed.

Lemma trimStart_head (s : jsstring) :
  trimStart s = [] \/ exists c t, trimStart s = c :: t /\ isWhiteSpace c = false.
Proof.
  induction s as [|c s IH]; simpl; [now left|].
  destruct (isWhiteSpace c) eqn:Hc; [exact IH|].
  right. now exists c, s.
Qed.

Lemma trim_length (s : jsstring) : length (trim s) <= length s.
Proof.
  unfold trim. etransitivity; [apply trimEnd_length|apply trimStart_length].
Qed.

Lemma trim_idem (s : jsstring) : trim (trim s) = trim s.
Proof.
  unfold trim.
  destruct (trimStart_head s) as [E|(c & t & E & Hc)]; rewrite E.
  - reflexivity.
  - rewrite (trimEnd_cons c t Hc), (trimStart_fixed c _ Hc).
    rewrite <- (trimEnd_cons c t Hc). apply trimEnd_idem.
Qed.

Lemma trim_fixed_of_length (s : jsstring) : length (trim s) = length s -> trim s = s.
Proof.
  unfold trim. intros H.
  assert (H1 : length (trimStart s) = length s).
  { pose proof (trimEnd_length (trimStart s)). pose proof (trimStart_length s). lia. }
  assert (E1 : trimStart s = s).
  { destruct s as [|c s]; [reflexivity|]. simpl in *.
    destruct (isWhiteSpace c); [|reflexivity].
    pose proof (trimStart_length s). lia. }
  rewrite E1 in *. clear H1 E1.
  induction s as [|d s IH] using rev_ind; [reflexivity|].
  rewrite trimEnd_snoc in *. destruct (isWhiteSpace d); [|reflexivity].
  pose proof (trimEnd_length s). rewrite length_app in H. simpl in H. lia.
Qed.

(** ** Selector list splitter *)

Lemma pushTrimmed_app (selectors : list jsstring) (current : jsstring) :
  pushTrimmed selectors current = selectors ++ filter truthy [trim current].
Proof.
  unfold pushTrimmed. simpl. destruct (truthy (trim current)); [reflexivity|].
  now rewrite app_nil_r.
Qed.

Lemma depth_closer (depth : nat) : Nat.max 0 (depth - 1) = pred depth.
Proof. rewrite Nat.max_0_l. apply Nat.sub_1_r. Qed.

Lemma splitLoop_spec (s : jsstring) :
  forall prev selectors current depth quote,
    splitLoop prev s selectors current depth quote
    = selectors
      ++ filter truthy
           (map trim (piecesAt s (separatorMask prev quote depth s) current)).
Proof.
  induction s as [|c s IH]; intros prev selectors current depth quote.
  - simpl. apply pushTrimmed_app.
  - simpl. destruct quote as [q|].
    + rewrite IH. reflexivity.
    + destruct (isQuoteChar c); [rewrite IH; reflexivity|].
      destruct (isOpener c); [rewrite IH, Nat.add_1_r; reflexivity|].
      destruct (isCloser c); [rewrite IH, ?depth_closer, ?Nat.sub_1_r; reflexivity|].
      destruct ((c =? COMMA)%N && (depth =? 0)).
      * rewrite IH, pushTrimmed_app, <- app_assoc. f_equal.
        simpl. now destruct (truthy (trim current)).
      * rewrite IH. reflexivity.
Qed.

Lemma splitLoop_trimmed (s : jsstring) :
  forall prev selectors current depth quote,
    Forall (fun c => c <> [] /\ trim c = c) selectors ->
    Forall (fun c => c <> [] /\ trim c = c)
           (splitLoop prev s selectors current depth quote).
Proof.
  assert (Hpush : forall selectors current,
    Forall (fun c => c <> [] /\ trim c = c) selectors ->
    Forall (fun c => c <> [] /\ trim c = c) (pushTrimmed selectors current)).
  { intros selectors current H. unfold pushTrimmed.
    destruct (truthy (trim current)) eqn:E; [|exact H].
    apply Forall_app; split; [exact H|]. constructor; [|constructor].
    split; [|apply trim_idem]. destruct (trim current); [discriminate|congruence]. }
  induction s as [|c s IH]; intros prev selectors current depth quote H; simpl.
  - now apply Hpush.
  - destruct quote as [q|]; [now apply IH|].
    destruct (isQuoteChar c); [now apply IH|].
    destruct (isOpener c); [now apply IH|].
    destruct (isCloser c); [now apply IH|].
    destruct ((c =? COMMA)%N && (depth =? 0)); apply IH; auto.
Qed.

Lemma splitLoop_trailing_comma (s : jsstring) :
  forall prev selectors current depth quote,
    scanEnd prev quote depth s = (None, 0) ->
    splitLoop prev (s ++ [COMMA]) selectors current depth quote
    = splitLoop prev s selectors current depth quote.
Proof.
  induction s as [|c s IH]; intros prev selectors current depth quote H.
  - simpl in H. injection H as -> ->. simpl.
    unfold pushTrimmed at 1. reflexivity.
  - simpl in H |- *. destruct quote as [q|]; [now apply IH|].
    destruct (isQuoteChar c); [now apply IH|].
    destruct (isOpener c); [apply IH; now rewrite Nat.add_1_r|].
    destruct (isCloser c); [apply IH; now rewrite ?depth_closer, ?Nat.sub_1_r|].
    destruct ((c =? COMMA)%N && (depth =? 0)); now apply IH.
Qed.

(** C3: For every selector-list text the splitter returns, in order, the
    trimmed non-empty clauses obtained by cutting the text only at the
    commas that lie outside quoted regions (a quote preceded by a backslash
    does not end its region) and outside bracket/paren nesting; it is a
    total function, every returned clause is trimmed and not empty, and a
    comma that ends the text outside quotes and nesting adds no clause. *)
Theorem splitSelectors_clauses (s : jsstring) :
  splitSelectors s = specClauses s
  /\ Forall (fun c => c <> [] /\ trim c = c) (splitSelectors s)
  /\ (scanEnd None None 0 s = (None, 0) ->
      splitSelectors (s ++ [COMMA]) = splitSelectors s).
Proof.
  split; [|split].
  - unfold splitSelectors, specClauses. now rewrite splitLoop_spec.
  - apply splitLoop_trimmed. constructor.
  - apply splitLoop_trailing_comma.
Qed.

Lemma splitSelectors_clauses_witness :
  splitSelectors (str "a, b[x=','], :is(c,d)" ++ [COMMA])
  = splitSelectors (str "a, b[x=','], :is(c,d)").
Proof.
  apply (proj2 (proj2 (splitSelectors_clauses (str "a, b[x=','], :is(c,d)")))).
  reflexivity.
Defined.

(** ** Global replacement *)

Section Replace.
Variable r : matcher.

Lemma removeFrom_length (s : jsstring) :
    forall skip, length (replaceFrom r (fun _ => []) skip s) <= length s.
  Proof.
    induction s as [|c s IH]; intros skip; simpl; [lia|].
    destruct skip as [|k].
    - destruct (matchLength r (c :: s)) as [[|k]|]; simpl;
        try (specialize (IH 0); lia).
      specialize (IH k); lia.
    - specialize (IH k); lia.
  Qed.

Lemma remove_length (s : jsstring) : length (remove r s) <= length s.
  Proof. apply removeFrom_length. Qed.

Lemma remove_shrinks (s : jsstring) :
    matchesSomewhere r s = true -> length (remove r s) < length s.
  Proof.
    unfold remove, replaceAll.
    induction s as [|c s IH]; simpl; [discriminate|].
    destruct (matchLength r (c :: s)) as [[|k]|]; simpl; intros H.
    - specialize (IH H). lia.
    - pose proof (removeFrom_length s k). lia.
    - specialize (IH H). lia.
  Qed.

Lemma remove_fixed (s : jsstring) :
    matchesSomewhere r s = false -> remove r s = s.
  Proof.
    unfold remove, replaceAll.
    induction s as [|c s IH]; simpl; [reflexivity|].
    destruct (matchLength r (c :: s)) as [[|k]|]; intros H;
      try discriminate; now rewrite IH.
  Qed.

Lemma remove_fixed_iff (s : jsstring) :
    remove r s = s <-> matchesSomewhere r s = false.
  Proof.
    split; [|apply remove_fixed].
    intros E. destruct (matchesSomewhere r s) eqn:M; [|reflexivity].
    apply remove_shrinks in M. rewrite E in M. lia.
  Qed.

End Replace.

(** ** Selector normalizer *)

(** C2 (as amended): The normalizer is a total function that never
    lengthens a selector, and normalizing twice equals normalizing once
    exactly when the once-normalized selector holds no further occurrence
    of the three removed patterns. *)
Theorem normalizeSelector_twice (s : jsstring) :
  length (normalizeSelector s) <= length s
  /\ (normalizeSelector (normalizeSelector s) = normalizeSelector s
      <-> hasRemovablePseudo (normalizeSelector s) = false).
Proof.
  assert (L : forall t, length (normalizeSelector t) <= length t
                        /\ length (remove reStatePseudo (remove rePseudoElement (remove reBeforeAfter t)))
                           <= length (remove rePseudoElement (remove reBeforeAfter t))
                        /\ length (remove rePseudoElement (remove reBeforeAfter t))
                           <= length (remove reBeforeAfter t)
                        /\ length (remove reBeforeAfter t) <= length t
                        /\ length (normalizeSelector t)
                           <= length (remove reStatePseudo (remove rePseudoElement (remove reBeforeAfter t)))).
  { intros t. unfold normalizeSelector.
    pose proof (trim_length (remove reStatePseudo (remove rePseudoElement (remove reBeforeAfter t)))).
    pose proof (remove_length reStatePseudo (remove rePseudoElement (remove reBeforeAfter t))).
    pose proof (remove_length rePseudoElement (remove reBeforeAfter t)).
    pose proof (remove_length reBeforeAfter t).
    repeat split; lia. }
  split; [apply L|].
  set (t := normalizeSelector s).
  assert (Tt : trim t = t) by (unfold t, normalizeSelector; apply trim_idem).
  unfold hasRemovablePseudo. rewrite !orb_false_iff. split.
  - intros E. destruct (L t) as (_ & L3 & L2 & L1 & L0). rewrite E in L0.
    assert (M1 : matchesSomewhere reBeforeAfter t = false).
    { destruct (matchesSomewhere reBeforeAfter t) eqn:M; [|reflexivity].
      apply remove_shrinks in M. lia. }
    rewrite (remove_fixed _ _ M1) in *.
    assert (M2 : matchesSomewhere rePseudoElement t = false).
    { destruct (matchesSomewhere rePseudoElement t) eqn:M; [|reflexivity].
      apply remove_shrinks in M. lia. }
    rewrite (remove_fixed _ _ M2) in *.
    assert (M3 : matchesSomewhere reStatePseudo t = false).
    { destruct (matchesSomewhere reStatePseudo t) eqn:M; [|reflexivity].
      apply remove_shrinks in M. lia. }
    auto.
  - intros [[M1 M2] M3]. unfold normalizeSelector at 1.
    now rewrite (remove_fixed _ _ M1), (remove_fixed _ _ M2), (remove_fixed _ _ M3).
Qed.

(** C2 (as stated) fails: removing [:hover] from the middle of
    [:ho:hoverver] joins the rest into a new [:hover], which a second
    pass removes. *)
Lemma normalizeSelector_not_idempotent :
  normalizeSelector (str ":ho:hoverver") = str ":hover"
  /\ normalizeSelector (normalizeSelector (str ":ho:hoverver")) = []
  /\ normalizeSelector (normalizeSelector (str ":ho:hoverver"))
     <> normalizeSelector (str ":ho:hoverver").
Proof.
  split; [|split]; try (vm_compute; reflexivity).
  vm_compute. discriminate.
Qed.

(** ** URL rewriter *)

Section UrlRewriter.
Variable resolve : jsstring -> jsstring -> option jsstring.

Lemma replaceFrom_url_fixed (f : jsstring -> jsstring) (s : jsstring) :
    forall skip,
      Forall (fun m => f m = m) (urlMatchesFrom skip s) ->
      replaceFrom reUrl f skip s = skipn skip s.
  Proof.
    induction s as [|c s IH]; intros skip H.
    - now destruct skip.
    - destruct skip as [|k]; simpl in H |- *.
      + destruct (matchLength reUrl (c :: s)) as [[|k]|].
        * now rewrite (IH 0 H).
        * inversion H as [|m l Hm Hl]; subst.
          rewrite Hm, (IH k Hl). simpl. f_equal. apply firstn_skipn.
        * now rewrite (IH 0 H).
      + now apply IH.
  Qed.

Lemma urlReplacer_unresolved (b m : jsstring) :
    resolve (skipn 4 m) b = None -> urlReplacer resolve b m = m.
  Proof.
    intros H. unfold urlReplacer. rewrite H.
    now destruct (negb _ || _ || _ || _ || _).
  Qed.

  (** The rewriter is a total function.  It returns the text unchanged
      when there is no base address; a reference whose resolution fails is
      replaced by itself, so the text is unchanged when resolution fails
      for every reference; and a second pass with the same base changes
      nothing whenever the replacer maps each reference found in the
      once-rewritten text to itself. *)
Theorem rewriteCssUrls_stable (cssText b : jsstring) :
    rewriteCssUrls resolve cssText None = cssText
    /\ (forall m, resolve (skipn 4 m) b = None -> urlReplacer resolve b m = m)
    /\ ((forall url, resolve url b = None) ->
        rewriteCssUrls resolve cssText (Some b) = cssText)
    /\ (Forall (fun m => urlReplacer resolve b m = m)
               (urlMatches (rewriteCssUrls resolve cssText (Some b))) ->
        rewriteCssUrls resolve (rewriteCssUrls resolve cssText (Some b)) (Some b)
        = rewriteCssUrls resolve cssText (Some b)).
  Proof.
    split; [reflexivity|]. split; [apply urlReplacer_unresolved|]. split.
    - intros H. unfold rewriteCssUrls. destruct (truthy b); [|reflexivity].
      unfold replaceAll. rewrite replaceFrom_url_fixed; [reflexivity|].
      apply Forall_forall. intros m _. now apply urlReplacer_unresolved.
    - intros H. set (t := rewriteCssUrls resolve cssText (Some b)) in *.
      unfold rewriteCssUrls. destruct (truthy b); [|reflexivity].
      unfold replaceAll. now rewrite replaceFrom_url_fixed.
  Qed.
End UrlRewriter.

(** ** Network retrieval *)

(** C6: The privileged side classifies the outcome of its retrieval
    exactly as the direct path of the unprivileged side does: a response
    that is not [ok] is a failure carrying [HTTP <status>], a thrown error
    is a failure carrying its message, and a success carries the response
    text; text and error agree for every outcome, and [ok] is set exactly
    when there is no error.  The listener answers a [FETCH_CSS] request for
    a non-empty address with that result. *)
Theorem background_fetch_classification :
  (forall outcome,
      r_text (fetchCssTask outcome) = f_text (fetchDirect outcome)
      /\ r_error (fetchCssTask outcome) = f_error (fetchDirect outcome)
      /\ (r_ok (fetchCssTask outcome) = true <-> f_error (fetchDirect outcome) = None)
      /\ (r_ok (fetchCssTask outcome) = true <->
          exists text, r_text (fetchCssTask outcome) = Some text))
  /\ (forall status body,
         fetchCssTask (FetchResponds false status body)
         = {| r_ok := false; r_text := None;
              r_error := Some (str "HTTP " ++ showN status) |}
         /\ fetchDirect (FetchResponds false status body)
            = {| f_text := None; f_error := Some (str "HTTP " ++ showN status) |})
  /\ (forall message,
         fetchCssTask (FetchThrows (ErrorObject message))
         = {| r_ok := false; r_text := None; r_error := Some message |}
         /\ fetchDirect (FetchThrows (ErrorObject message))
            = {| f_text := None; f_error := Some message |})
  /\ (forall status text,
         fetchCssTask (FetchResponds true status (BodyText text))
         = {| r_ok := true; r_text := Some text; r_error := None |}
         /\ fetchDirect (FetchResponds true status (BodyText text))
            = {| f_text := Some text; f_error := None |})
  /\ (forall fetch c url,
         onMessage fetch (Some {| m_type := str "FETCH_CSS"; m_url := Some (c :: url) |})
         = Some (fetchCssTask (fetch (c :: url)))).
Proof.
  repeat split; try reflexivity;
    destruct outcome as [e|[|] status [text|e]]; simpl;
    try reflexivity; try discriminate; try (intros [? ?]; discriminate);
    try (intros _; eauto).
Qed.

Lemma relayRun_settled (events : list (N * relay_event)) :
  forall p, settled p = true ->
    settled (relayRun p events) = true
    /\ resolved (relayRun p events) = resolved p
    /\ resolvedAt (relayRun p events) = resolvedAt p.
Proof.
  induction events as [|[now e] events IH]; intros p Hp; [simpl; auto|].
  change (relayRun p ((now, e) :: events))
    with (relayRun (relayStep p (now, e)) events).
  assert (H : settled (relayStep p (now, e)) = true
              /\ resolved (relayStep p (now, e)) = resolved p
              /\ resolvedAt (relayStep p (now, e)) = resolvedAt p).
  { destruct e; simpl; rewrite Hp; [|auto].
    destruct (timerPending p); simpl; auto. }
  destruct H as (H1 & H2 & H3).
  destruct (IH _ H1) as (I1 & I2 & I3). repeat split; congruence.
Qed.

(** Every relay call settles: the awaited promise is resolved. *)
Lemma relayPromise_resolved (b : relay_behaviour) :
  exists response, resolved (relayPromise b) = Some response.
Proof.
  destruct b as [e|ms result|]; unfold relayPromise; simpl.
  - eauto.
  - destruct (ms <? timeoutDelay)%N; simpl; eauto.
  - eauto.
Qed.

Lemma classifyRelay_shape (response : relay_response) :
  (exists text, f_text (classifyRelay response) = Some text
                /\ f_error (classifyRelay response) = None)
  \/ (f_text (classifyRelay response) = None
      /\ exists reason, f_error (classifyRelay response) = Some reason).
Proof.
  unfold classifyRelay.
  destruct (r_ok response); simpl; [|right; eauto].
  destruct (r_text response) as [[|c t]|]; simpl; [right; eauto|left; eauto|right; eauto].
Qed.

Lemma fetchDirect_shape (outcome : fetch_outcome) :
  (exists text, f_text (fetchDirect outcome) = Some text
                /\ f_error (fetchDirect outcome) = None)
  \/ (f_text (fetchDirect outcome) = None
      /\ exists reason, f_error (fetchDirect outcome) = Some reason).
Proof.
  destruct outcome as [e|[|] status [text|e]]; simpl; eauto.
Qed.

(** [fetchStylesheetText] returns for every address, with text or with a
    failure reason. *)
Lemma fetchStylesheetText_returns (useHost : bool) (net : Network) (h : jsstring) :
  exists result,
    fetchStylesheetText useHost net h = Some result
    /\ ((exists text, f_text result = Some text /\ f_error result = None)
        \/ (f_text result = None /\ exists reason, f_error result = Some reason)).
Proof.
  unfold fetchStylesheetText.
  destruct (useHost && relayAvailable net).
  - destruct (relayPromise_resolved (relay net h)) as [response ->].
    eexists; split; [reflexivity|apply classifyRelay_shape].
  - eexists; split; [reflexivity|apply fetchDirect_shape].
Qed.

(** C8: The relay call never raises: for every address it returns
    stylesheet text or a failure reason.  A relay-mediated call whose
    privileged side never responds is resolved by the timer, 3000 ms after
    the call, with the timeout failure; whatever the host runs after the
    timer has fired: a late response included: leaves the settled result
    as it is. *)
Theorem relay_never_raises_and_times_out (useHost : bool) (net : Network) (h : jsstring) :
  (exists result,
      fetchStylesheetText useHost net h = Some result
      /\ ((exists text, f_text result = Some text /\ f_error result = None)
          \/ (f_text result = None /\ exists reason, f_error result = Some reason)))
  /\ (relayAvailable net = true -> relay net h = NeverResponds ->
      resolved (relayPromise (relay net h)) = Some timeoutResponse
      /\ resolvedAt (relayPromise (relay net h)) = Some 3000%N
      /\ fetchStylesheetText true net h
         = Some {| f_text := None; f_error := Some (str "Background fetch timeout") |})
  /\ (forall late,
         resolved (relayRun (relayStep (relayStart None) (timeoutDelay, TimerFires)) late)
         = Some timeoutResponse
         /\ resolvedAt (relayRun (relayStep (relayStart None) (timeoutDelay, TimerFires)) late)
            = Some 3000%N)
  /\ (forall ms result, (3000 <= ms)%N ->
         resolved (relayPromise (RespondsAfter ms result)) = Some timeoutResponse
         /\ resolvedAt (relayPromise (RespondsAfter ms result)) = Some 3000%N).
Proof.
  split; [apply fetchStylesheetText_returns|]. split; [|split].
  - intros Ha Hr. unfold fetchStylesheetText. rewrite Ha, Hr. simpl. auto.
  - intros late.
    destruct (relayRun_settled late (relayStep (relayStart None) (timeoutDelay, TimerFires)))
      as (_ & H2 & H3); [reflexivity|].
    rewrite H2, H3. auto.
  - intros ms result Hms. unfold relayPromise, relaySchedule.
    replace (ms <? timeoutDelay)%N with false
      by (symmetry; apply N.ltb_ge; exact Hms).
    simpl. auto.
Qed.

(** An empty stylesheet answered through the relay comes out as a failure. *)
Lemma relay_empty_text_result (net : Network) (h : jsstring) (ms status : N) :
  relayAvailable net = true ->
  relay net h = RespondsAfter ms
                  (ResultObject (fetchCssTask (FetchResponds true status (BodyText [])))) ->
  (ms < 3000)%N ->
  fetchStylesheetText true net h
  = Some {| f_text := None; f_error := Some (str "Background fetch failed") |}.
Proof.
  intros Ha Hr Hms. unfold fetchStylesheetText, relayPromise. rewrite Ha, Hr.
  unfold relaySchedule.
  replace (ms <? timeoutDelay)%N with true
    by (symmetry; apply N.ltb_lt; exact Hms).
  reflexivity.
Qed.

(** ** Stylesheet traversal and collection *)

(** Induction on rules, with the children of a group rule. *)
Lemma rule_induction (P : rule -> Prop) :
  (forall selectorText cssText, P (CSSStyleRule selectorText cssText)) ->
  (forall conditionText rules, Forall P rules -> P (CSSMediaRule conditionText rules)) ->
  (forall conditionText rules, Forall P rules -> P (CSSSupportsRule conditionText rules)) ->
  (forall cssText, P (CSSKeyframesRule cssText)) ->
  (forall cssText, P (CSSFontFaceRule cssText)) ->
  (forall styleSheet, P (CSSImportRule styleSheet)) ->
  (forall cssText rules, Forall P rules -> P (CSSGroupingRule cssText rules)) ->
  (forall cssText, P (CSSOtherRule cssText)) ->
  forall r, P r.
Proof.
  intros Hstyle Hmedia Hsupports Hkey Hfont Himport Hgroup Hother.
  fix IH 1. intros [sel css|cond rules|cond rules|css|css|sheet|css rules|css].
  - apply Hstyle.
  - apply Hmedia. induction rules as [|r rules IHr]; constructor; [apply IH|exact IHr].
  - apply Hsupports. induction rules as [|r rules IHr]; constructor; [apply IH|exact IHr].
  - apply Hkey.
  - apply Hfont.
  - apply Himport.
  - apply Hgroup. induction rules as [|r rules IHr]; constructor; [apply IH|exact IHr].
  - apply Hother.
Qed.

Section CollectEquations.
Variable eng : Engine.
Variable fromSheet : sheetId -> collector -> option collector.

  (** The nested loop of [collectRule] is [collectRuleList]. *)
Lemma collectNested_eq (rules : list rule) :
    forall st,
      (fix collectNested (rules : list rule) (st : collector) {struct rules}
           : option (list jsstring * collector) :=
         match rules with
         | [] => Some ([], st)
         | r' :: rules' =>
           match collectRule eng fromSheet r' st with
           | None => None
           | Some (c1, st1) =>
             match collectNested rules' st1 with
             | None => None
             | Some (c2, st2) => Some (c1 ++ c2, st2)
             end
           end
         end) rules st
      = collectRuleList eng fromSheet rules st.
  Proof.
    induction rules as [|r rules IH]; intros st; [reflexivity|].
    simpl. destruct (collectRule eng fromSheet r st) as [[c1 st1]|]; [|reflexivity].
    now rewrite IH.
  Qed.

Lemma collectRule_media (conditionText : jsstring) (rules : list rule) (st : collector) :
    collectRule eng fromSheet (CSSMediaRule conditionText rules) st
    = match collectRuleList eng fromSheet rules st with
      | None => None
      | Some (nested, st') =>
        if 0 <? length nested
        then Some ([wrapGroup (str "@media ") conditionText nested], st')
        else Some ([], st')
      end.
  Proof. rewrite <- collectNested_eq. reflexivity. Qed.

Lemma collectRule_supports (conditionText : jsstring) (rules : list rule) (st : collector) :
    collectRule eng fromSheet (CSSSupportsRule conditionText rules) st
    = if negb (cssSupports eng conditionText) then Some ([], st)
      else match collectRuleList eng fromSheet rules st with
           | None => None
           | Some (nested, st') =>
             if 0 <? length nested
             then Some ([wrapGroup (str "@supports ") conditionText nested], st')
             else Some ([], st')
           end.
  Proof. rewrite <- collectNested_eq. reflexivity. Qed.

Lemma collectRule_grouping (cssText : jsstring) (rules : list rule) (st : collector) :
    collectRule eng fromSheet (CSSGroupingRule cssText rules) st
    = match collectRuleList eng fromSheet rules st with
      | None => None
      | Some (nested, st') =>
        if 0 <? length nested then Some ([cssText], st') else Some ([], st')
      end.
  Proof. rewrite <- collectNested_eq. reflexivity. Qed.
End CollectEquations.

(** *** The visited set *)

Lemma visitedHas_In (i : sheetId) (l : list sheetId) :
  visitedHas i l = true <-> In i l.
Proof.
  unfold visitedHas. rewrite existsb_exists. split.
  - intros (x & Hx & E). apply Nat.eqb_eq in E. now subst.
  - intros H. exists i. split; [exact H|apply Nat.eqb_refl].
Qed.

Lemma visitedHas_false (i : sheetId) (l : list sheetId) :
  visitedHas i l = false <-> ~ In i l.
Proof.
  rewrite <- visitedHas_In. destruct (visitedHas i l); split; congruence.
Qed.

Lemma visitedAdd_In (i j : sheetId) (l : list sheetId) :
  In j (visitedAdd i l) <-> j = i \/ In j l.
Proof.
  unfold visitedAdd. destruct (visitedHas i l) eqn:E.
  - apply visitedHas_In in E. split; [auto|]. intros [->|H]; assumption.
  - rewrite in_app_iff. simpl. split; [intros [H|[H|[]]]|intros [H|H]]; auto.
Qed.

Lemma filter_length_mono {A : Type} (f g : A -> bool) (l : list A) :
  (forall x, In x l -> g x = true -> f x = true) ->
  length (filter g l) <= length (filter f l).
Proof.
  induction l as [|a l IH]; intros H; simpl; [lia|].
  assert (IH' : length (filter g l) <= length (filter f l))
    by (apply IH; intros x Hx; apply H; now right).
  destruct (g a) eqn:G.
  - rewrite (H a (or_introl eq_refl) G). simpl. lia.
  - destruct (f a); simpl; lia.
Qed.

Lemma filter_length_lt {A : Type} (f g : A -> bool) (l : list A) (x0 : A) :
  (forall x, In x l -> g x = true -> f x = true) ->
  In x0 l -> f x0 = true -> g x0 = false ->
  length (filter g l) < length (filter f l).
Proof.
  induction l as [|a l IH]; intros H Hin Hf Hg; [destruct Hin|].
  assert (M : length (filter g l) <= length (filter f l))
    by (apply filter_length_mono; intros x Hx; apply H; now right).
  simpl. destruct Hin as [->|Hin].
  - rewrite Hf, Hg. simpl. lia.
  - assert (IH' : length (filter g l) < length (filter f l))
      by (apply IH; auto; intros x Hx; apply H; now right).
    destruct (g a) eqn:G.
    + rewrite (H a (or_introl eq_refl) G). simpl. lia.
    + destruct (f a); simpl; lia.
Qed.

Section Unvisited.
Variable eng : Engine.

Lemma unvisited_mono (v v' : list sheetId) :
    (forall j, In j v -> In j v') -> unvisited eng v' <= unvisited eng v.
  Proof.
    intros H. apply filter_length_mono. intros x _ Hx.
    apply negb_true_iff in Hx. apply negb_true_iff.
    apply visitedHas_false. apply visitedHas_false in Hx. auto.
  Qed.

Lemma unvisited_mark (i : sheetId) (v : list sheetId) :
    i < length (sheets eng) -> ~ In i v ->
    unvisited eng (visitedAdd i v) < unvisited eng v.
  Proof.
    intros Hi Hv. apply filter_length_lt with (x0 := i).
    - intros x _ Hx. apply negb_true_iff in Hx. apply negb_true_iff.
      apply visitedHas_false. apply visitedHas_false in Hx.
      intros H. apply Hx. apply visitedAdd_In. now right.
    - apply in_seq. lia.
    - apply negb_true_iff. now apply visitedHas_false.
    - apply negb_false_iff. apply visitedHas_In. apply visitedAdd_In. now left.
  Qed.
End Unvisited.

Lemma continues_same (st st' : collector) :
  visitedSheets st' = visitedSheets st -> examined st' = examined st ->
  (exists more, warnings st' = warnings st ++ more) ->
  continues st st'.
Proof.
  intros Hv He Hw. split; [now rewrite Hv|]. split; [|exact Hw].
  exists []. rewrite app_nil_r.
  split; [exact He|]. split; [constructor|]. intros j [].
Qed.

Lemma continues_refl (st : collector) : continues st st.
Proof.
  apply continues_same; try reflexivity. exists []. now rewrite app_nil_r.
Qed.

Lemma continues_quiet (st st' : collector) :
  visitedSheets st' = visitedSheets st -> examined st' = examined st ->
  warnings st' = warnings st -> continues st st'.
Proof.
  intros Hv He Hw. apply continues_same; auto.
  exists []. now rewrite app_nil_r.
Qed.

Lemma continues_pushWarning (w : jsstring) (st : collector) :
  continues st (pushWarning w st).
Proof. apply continues_same; try reflexivity. now exists [w]. Qed.

Lemma continues_trans (a b c : collector) :
  continues a b -> continues b c -> continues a c.
Proof.
  intros (Vab & (n1 & E1 & D1 & F1) & (w1 & W1)) (Vbc & (n2 & E2 & D2 & F2) & (w2 & W2)).
  split; [auto|]. split.
  - exists (n1 ++ n2).
    split; [now rewrite E2, E1, app_assoc|]. split.
    + apply NoDup_app; auto.
      intros j H1 H2. destruct (F2 j H2) as [N _]. destruct (F1 j H1) as [_ I]. auto.
    + intros j H. apply in_app_or in H as [H|H].
      * destruct (F1 j H) as [N I]. auto.
      * destruct (F2 j H) as [N I]. auto.
  - exists (w1 ++ w2). now rewrite W2, W1, app_assoc.
Qed.

Lemma continues_markVisited (i : sheetId) (st : collector) :
  ~ In i (visitedSheets st) -> continues st (markVisited i st).
Proof.
  intros H. split; [|split].
  - intros j Hj. simpl. apply visitedAdd_In. now right.
  - exists [i]. simpl. split; [reflexivity|]. split.
    + constructor; [intros []|constructor].
    + intros j [<-|[]]. split; [exact H|]. apply visitedAdd_In. now left.
  - exists []. simpl. now rewrite app_nil_r.
Qed.

(** *** Termination of the traversal *)

Section Termination.
Variable useHost : bool.
Variable net : Network.
Variable eng : Engine.

Section WithCallback.
Variable fuel : nat.
Variable fromSheet : sheetId -> collector -> option collector.
Hypothesis fromSheet_returns :
      forall i st, unvisited eng (visitedSheets st) <= fuel ->
        exists st', fromSheet i st = Some st' /\ continues st st'.

Let returns (r : rule) : Prop :=
      forall st, unvisited eng (visitedSheets st) <= fuel ->
        exists c st', collectRule eng fromSheet r st = Some (c, st') /\ continues st st'.

Lemma collectRuleList_returns_of (rules : list rule) :
      Forall returns rules ->
      forall st, unvisited eng (visitedSheets st) <= fuel ->
        exists c st',
          collectRuleList eng fromSheet rules st = Some (c, st') /\ continues st st'.
    Proof.
      induction 1 as [|r rules Hr _ IH]; intros st Hst; simpl.
      - exists [], st. split; [reflexivity|apply continues_refl].
      - destruct (Hr st Hst) as (c1 & st1 & E1 & C1). rewrite E1.
        destruct (IH st1) as (c2 & st2 & E2 & C2).
        { pose proof (unvisited_mono eng _ _ (proj1 C1)). lia. }
        rewrite E2. exists (c1 ++ c2), st2.
        split; [reflexivity|eapply continues_trans; eauto].
    Qed.

Lemma collectRule_returns (r : rule) : returns r.
    Proof.
      induction r as [sel css|cond rules IH|cond rules IH|css|css|sheet|css rules IH|css]
        using rule_induction; intros st Hst.
      - simpl. destruct (existsb _ _); eexists _, st;
          (split; [reflexivity|apply continues_refl]).
      - rewrite collectRule_media.
        destruct (collectRuleList_returns_of rules IH st Hst) as (c & st' & E & C).
        rewrite E. destruct (0 <? length c); eexists _, st'; split; eauto.
      - rewrite collectRule_supports. destruct (negb _).
        + eexists _, st. split; [reflexivity|apply continues_refl].
        + destruct (collectRuleList_returns_of rules IH st Hst) as (c & st' & E & C).
          rewrite E. destruct (0 <? length c); eexists _, st'; split; eauto.
      - simpl. eexists _, _. split; [reflexivity|now apply continues_quiet].
      - simpl. eexists _, _. split; [reflexivity|now apply continues_quiet].
      - simpl. destruct sheet as [sheet|].
        + destruct (negb _).
          * destruct (fromSheet_returns sheet st Hst) as (st' & E & C).
            rewrite E. eexists _, st'. split; eauto.
          * eexists _, st. split; [reflexivity|apply continues_refl].
        + eexists _, st. split; [reflexivity|apply continues_refl].
      - rewrite collectRule_grouping.
        destruct (collectRuleList_returns_of rules IH st Hst) as (c & st' & E & C).
        rewrite E. destruct (0 <? length c); eexists _, st'; split; eauto.
      - simpl. eexists _, st. split; [reflexivity|apply continues_refl].
    Qed.

Lemma collectRules_returns (rules : option (list rule)) (st : collector) :
      unvisited eng (visitedSheets st) <= fuel ->
      exists c st', collectRules eng fromSheet rules st = Some (c, st') /\ continues st st'.
    Proof.
      intros Hst. destruct rules as [rules|]; simpl.
      - apply collectRuleList_returns_of; [|exact Hst].
        apply Forall_forall. intros r _. apply collectRule_returns.
      - exists [], st. split; [reflexivity|apply continues_refl].
    Qed.

Lemma examineSheet_returns (i : sheetId) (s : CSSStyleSheet) (st : collector) :
      nth_error (sheets eng) i = Some s ->
      ~ In i (visitedSheets st) ->
      unvisited eng (visitedSheets st) <= S fuel ->
      exists st', examineSheet useHost net eng fromSheet i s st = Some st'
                  /\ continues st st'.
    Proof.
      intros Hs Hi Hst.
      assert (Hlt : i < length (sheets eng)) by (apply nth_error_Some; congruence).
      pose proof (continues_markVisited i st Hi) as C0.
      assert (H0 : unvisited eng (visitedSheets (markVisited i st)) <= fuel).
      { pose proof (unvisited_mark eng i (visitedSheets st) Hlt Hi). simpl. lia. }
      unfold examineSheet. destruct (sheetRules s) as [rules|].
      - destruct (collectRules_returns (Some rules) _ H0) as (c & st' & E & C).
        rewrite E. eexists. split; [reflexivity|].
        eapply continues_trans; [exact C0|]. eapply continues_trans; [exact C|].
        now apply continues_quiet.
      - destruct (negb (truthyOpt (href s))); [eauto|].
        set (h := match href s with Some h => h | None => [] end).
        destruct (fetchStylesheetText_returns useHost net h) as (res & -> & _).
        set (st1 := pushWarning (blockedWarning h) (markVisited i st)).
        assert (C1 : continues st st1)
          by (eapply continues_trans; [exact C0|apply continues_pushWarning]).
        destruct (negb (truthyOpt (f_text res))).
        + eexists. split; [reflexivity|].
          eapply continues_trans; [exact C1|apply continues_pushWarning].
        + destruct (collectRules_returns
                      (parseRules eng
                         (inlineCssUrls (resolveUrl eng)
                            match f_text res with Some t => t | None => [] end
                            (Some h) false))
                      st1 H0) as (c & st' & E & C).
          rewrite E. eexists. split; [reflexivity|].
          eapply continues_trans; [exact C1|]. eapply continues_trans; [exact C|].
          now apply continues_quiet.
    Qed.
End WithCallback.

Lemma collectFromStylesheet_visited (fuel : nat) (i : sheetId) (st : collector) :
    In i (visitedSheets st) ->
    collectFromStylesheet useHost net eng fuel i st = Some st.
  Proof.
    intros H. apply visitedHas_In in H. destruct fuel; simpl; now rewrite H.
  Qed.

Lemma collectFromStylesheet_returns (fuel : nat) :
    forall i st, unvisited eng (visitedSheets st) <= fuel ->
      exists st', collectFromStylesheet useHost net eng fuel i st = Some st'
                  /\ continues st st'.
  Proof.
    induction fuel as [|fuel IH]; intros i st Hst.
    - simpl. destruct (visitedHas i (visitedSheets st)) eqn:V;
        [exists st; split; [reflexivity|apply continues_refl]|].
      destruct (nth_error (sheets eng) i) as [s|] eqn:Es;
        [|exists st; split; [reflexivity|apply continues_refl]].
      exfalso. apply visitedHas_false in V.
      assert (Hlt : i < length (sheets eng)) by (apply nth_error_Some; congruence).
      pose proof (unvisited_mark eng i (visitedSheets st) Hlt V). lia.
    - simpl. destruct (visitedHas i (visitedSheets st)) eqn:V;
        [exists st; split; [reflexivity|apply continues_refl]|].
      destruct (nth_error (sheets eng) i) as [s|] eqn:Es;
        [|exists st; split; [reflexivity|apply continues_refl]].
      apply visitedHas_false in V.
      now apply (examineSheet_returns fuel _ IH i s st).
  Qed.

Lemma collectSheets_returns (fuel : nat) (l : list sheetId) :
    forall st, unvisited eng (visitedSheets st) <= fuel ->
      exists st', collectSheets useHost net eng fuel l st = Some st'
                  /\ continues st st'.
  Proof.
    induction l as [|i l IH]; intros st Hst; simpl.
    - exists st. split; [reflexivity|apply continues_refl].
    - destruct (collectFromStylesheet_returns fuel i st Hst) as (st1 & E1 & C1).
      rewrite E1. destruct (IH st1) as (st2 & E2 & C2).
      { pose proof (unvisited_mono eng _ _ (proj1 C1)). lia. }
      exists st2. split; [exact E2|eapply continues_trans; eauto].
  Qed.

Lemma unvisited_bound (v : list sheetId) : unvisited eng v <= length (sheets eng).
  Proof.
    unfold unvisited.
    etransitivity; [apply filter_length_le|]. now rewrite length_seq.
  Qed.

Lemma collectUsedCss_returns (warningsSoFar : list jsstring) :
    exists st,
      collectUsedCss useHost net eng warningsSoFar = Some (collectedText st, st)
      /\ NoDup (examined st)
      /\ (forall i, In i (examined st) -> In i (visitedSheets st)).
  Proof.
    unfold collectUsedCss.
    set (st0 := {| usedRules := []; fontFaces := []; keyframes := [];
                   visitedSheets := []; warnings := warningsSoFar; examined := [] |}).
    destruct (collectSheets_returns (length (sheets eng)) (documentStyleSheets eng) st0)
      as (st & E & (_ & (new & En & Dn & Fn) & _)); [apply unvisited_bound|].
    rewrite E. exists st. split; [reflexivity|].
    simpl in En. rewrite En. split; [exact Dn|]. intros i Hi. now apply Fn.
  Qed.
End Termination.

(** *** Media groups *)

Section MediaIndependence.
Variable eng : Engine.
Variable fromSheet : sheetId -> collector -> option collector.
Variable m : jsstring -> bool.

Lemma collectRuleList_withMedia_of (rules : list rule) :
    Forall (fun r => forall st, collectRule (withMedia m eng) fromSheet r st
                                = collectRule eng fromSheet r st) rules ->
    forall st, collectRuleList (withMedia m eng) fromSheet rules st
               = collectRuleList eng fromSheet rules st.
  Proof.
    induction 1 as [|r rules Hr _ IH]; intros st; simpl; [reflexivity|].
    rewrite Hr. destruct (collectRule eng fromSheet r st) as [[c1 st1]|]; [|reflexivity].
    now rewrite IH.
  Qed.

Lemma collectRule_withMedia (r : rule) :
    forall st, collectRule (withMedia m eng) fromSheet r st
               = collectRule eng fromSheet r st.
  Proof.
    induction r as [sel css|cond rules IH|cond rules IH|css|css|sheet|css rules IH|css]
      using rule_induction; intros st; try reflexivity.
    - rewrite !collectRule_media. now rewrite collectRuleList_withMedia_of.
    - rewrite !collectRule_supports. now rewrite collectRuleList_withMedia_of.
    - rewrite !collectRule_grouping. now rewrite collectRuleList_withMedia_of.
  Qed.
End MediaIndependence.

(** C1 (as stated) fails: on a screen the [print] condition is not
    satisfied, yet the media group with a matching child is kept. *)
Lemma media_group_kept_though_unsatisfied :
  mediaMatches (screenEngine [] []) (str "print") = false
  /\ collectRule (screenEngine [] []) (fun _ st => Some st) printRule emptyCollector
     = Some ([str "@media print{p { color: red; }}"], emptyCollector).
Proof. split; reflexivity. Qed.

(** *** Cycle safety *)

(** C4: Whatever the style sources and their [@import] graph, the
    traversal returns; no style source gets past the visited check twice;
    every source that got past it is in the visited set, where it is put
    before its rules are read; and reaching a visited source again changes
    nothing. *)
Theorem traversal_terminates_visiting_once
    (useHost : bool) (net : Network) (eng : Engine) (warningsSoFar : list jsstring) :
  (exists st,
      collectUsedCss useHost net eng warningsSoFar = Some (collectedText st, st)
      /\ NoDup (examined st)
      /\ (forall i, In i (examined st) -> In i (visitedSheets st)))
  /\ (forall fromSheet i address rules st,
         examineSheet useHost net eng fromSheet i
                      {| href := address; sheetRules := Some rules |} st
         = match collectRuleList eng fromSheet rules (markVisited i st) with
           | None => None
           | Some (nested, st') => Some (pushUsedRules nested st')
           end)
  /\ (forall fuel i st,
         collectFromStylesheet useHost net eng fuel i (markVisited i st)
         = Some (markVisited i st)).
Proof.
  split; [apply collectUsedCss_returns|]. split.
  - reflexivity.
  - intros fuel i st. apply collectFromStylesheet_visited.
    simpl. apply visitedAdd_In. now left.
Qed.

(** Two style sources importing each other, one of them itself as well:
    each is examined once. *)
Example cyclic_imports_terminate :
  exists st,
    collectUsedCss false offlineNetwork (screenEngine cyclicArena [0; 1]) []
    = Some (str ".b { color: blue; }" ++ [NEWLINE] ++ str ".a { color: red; }", st)
    /\ examined st = [0; 1].
Proof. eexists. split; vm_compute; reflexivity. Qed.

(** *** Blocked style sources *)

Lemma captureInTab_returns (ser : Serializer) (net : Network) (eng : Engine)
    (options : CloneOptions) (doc : document) :
  exists result live, captureInTab ser net eng options doc = Some (result, live).
Proof.
  unfold captureInTab. destruct (injectFreezeStyles doc) as [live attached].
  destruct (removeOriginalStyles options); [|eauto].
  destruct (collectUsedCss_returns (useHostFetch options) net eng []) as (st & -> & _).
  eauto.
Qed.

(** What the [catch] block does when the fallback retrieval brings no
    text. *)
Lemma collectFromStylesheet_blocked
    (useHost : bool) (net : Network) (eng : Engine) (fuel : nat)
    (i : sheetId) (s : CSSStyleSheet) (h : jsstring) (res : fetch_result)
    (st : collector) :
  nth_error (sheets eng) i = Some s ->
  sheetRules s = None ->
  href s = Some h -> truthy h = true ->
  ~ In i (visitedSheets st) ->
  fetchStylesheetText useHost net h = Some res ->
  truthyOpt (f_text res) = false ->
  collectFromStylesheet useHost net eng (S fuel) i st
  = Some (pushWarning (fetchFailedWarning h (f_error res))
            (pushWarning (blockedWarning h) (markVisited i st))).
Proof.
  intros Hs Hrules Hhref Hh Hi Hfetch Htext.
  assert (Hv : visitedHas i (visitedSheets st) = false) by now apply visitedHas_false.
  simpl. rewrite Hv, Hs. unfold examineSheet.
  rewrite Hrules, Hhref. simpl truthyOpt. rewrite Hh. simpl negb. cbv iota.
  rewrite Hfetch, Htext. reflexivity.
Qed.

(** C7: A style source whose rule list is blocked and whose fallback
    retrieval fails does not stop the capture: processing it marks it
    visited and appends exactly two warnings, the blocked-access notice and
    then the fetch-failure notice with the reason, and leaves the three
    partitions of the collected text as they were; the loop goes on with
    the remaining sources and returns, keeping the two warnings; and the
    capture returns a result. *)
Theorem blocked_source_yields_two_warnings
    (useHost : bool) (net : Network) (eng : Engine)
    (i : sheetId) (s : CSSStyleSheet) (h reason : jsstring)
    (st : collector) (rest : list sheetId) :
  nth_error (sheets eng) i = Some s ->
  sheetRules s = None ->
  href s = Some h -> truthy h = true ->
  ~ In i (visitedSheets st) ->
  fetchStylesheetText useHost net h
  = Some {| f_text := None; f_error := Some reason |} ->
  let st' :=
    {| usedRules := usedRules st; fontFaces := fontFaces st; keyframes := keyframes st;
       visitedSheets := visitedAdd i (visitedSheets st);
       warnings := warnings st
                   ++ [str "cssRules blocked for stylesheet: " ++ h;
                       str "Failed to fetch stylesheet: " ++ h ++ str " (" ++ reason ++ str ")"];
       examined := examined st ++ [i] |} in
  (forall fuel, collectFromStylesheet useHost net eng (S fuel) i st = Some st')
  /\ (forall fuel, collectSheets useHost net eng (S fuel) (i :: rest) st
                   = collectSheets useHost net eng (S fuel) rest st')
  /\ (exists final more,
         collectSheets useHost net eng (length (sheets eng)) (i :: rest) st = Some final
         /\ warnings final = warnings st' ++ more)
  /\ (forall ser options doc,
         exists result live, captureInTab ser net eng options doc = Some (result, live)).
Proof.
  intros Hs Hrules Hhref Hh Hi Hfetch st'.
  assert (Hlt : i < length (sheets eng)) by (apply nth_error_Some; congruence).
  assert (Step : forall fuel, collectFromStylesheet useHost net eng (S fuel) i st = Some st').
  { intros fuel.
    rewrite (collectFromStylesheet_blocked useHost net eng fuel i s h _ st
               Hs Hrules Hhref Hh Hi Hfetch eq_refl).
    unfold st', pushWarning, markVisited, blockedWarning, fetchFailedWarning.
    simpl. rewrite <- app_assoc. reflexivity. }
  split; [exact Step|]. split; [|split].
  - intros fuel. cbn [collectSheets]. now rewrite Step.
  - destruct (length (sheets eng)) as [|n] eqn:En; [lia|].
    cbn [collectSheets]. rewrite Step.
    destruct (collectSheets_returns useHost net eng (S n) rest st')
      as (final & E & (_ & _ & (more & W))).
    { rewrite <- En. apply unvisited_bound. }
    exists final, more. split; [exact E|exact W].
  - intros ser options doc. apply captureInTab_returns.
Qed.

Lemma blocked_source_yields_two_warnings_witness :
  collectFromStylesheet false offlineNetwork (screenEngine blockedArena [0; 1]) 2 0
                        emptyCollector
  = Some {| usedRules := []; fontFaces := []; keyframes := [];
            visitedSheets := [0];
            warnings :=
              [str "cssRules blocked for stylesheet: https://cdn.example/x.css";
               str "Failed to fetch stylesheet: https://cdn.example/x.css (Failed to fetch)"];
            examined := [0] |}.
Proof.
  apply (blocked_source_yields_two_warnings false offlineNetwork
           (screenEngine blockedArena [0; 1]) 0
           {| href := Some (str "https://cdn.example/x.css"); sheetRules := None |}
           (str "https://cdn.example/x.css") (str "Failed to fetch")
           emptyCollector [1]);
    try reflexivity.
  intros [].
Defined.

(** ** Snapshot assembler *)

Lemma removeAll_element (p : node -> bool) (name : jsstring)
    (attrs : list (jsstring * jsstring)) (children : list node) :
  removeAll p (Element name attrs children)
  = Element name attrs (map (removeAll p) (filter (fun c => negb (p c)) children)).
Proof.
  simpl. f_equal. induction children as [|c cs IH]; simpl; [reflexivity|].
  destruct (p c); simpl; [exact IH|now f_equal].
Qed.

Lemma appendToFirst_element (p : node -> bool) (x : node) (name : jsstring)
    (attrs : list (jsstring * jsstring)) (children : list node) :
  appendToFirst p x (Element name attrs children)
  = match appendToFirstIn p x children with
    | Some children' => Some (Element name attrs children')
    | None => None
    end.
Proof.
  simpl.
  match goal with
  | |- match ?f children with _ => _ end = _ =>
    assert (E : forall l, f l = appendToFirstIn p x l)
  end.
  { induction l as [|c l IH]; simpl; [reflexivity|].
    destruct (p c); [reflexivity|].
    destruct (appendToFirst p x c); [reflexivity|]. now rewrite IH. }
  now rewrite E.
Qed.

Lemma removeLast_append (tag : String.string) (x : node) (l : list node) :
  removeLastOfFirst (hasTag tag) (appendToFirstOf (hasTag tag) x l) = l.
Proof.
  induction l as [|c l IH]; simpl; [reflexivity|].
  destruct (hasTag tag c) eqn:Pc.
  - destruct c as [cn ca cc|d|d]; try discriminate.
    simpl in Pc |- *. rewrite Pc. now rewrite removelast_last.
  - simpl. rewrite Pc. now rewrite IH.
Qed.

(** The cleanup task undoes the injection. *)
Lemma removeFreezeStyles_inject (doc : document) :
  removeFreezeStyles (snd (injectFreezeStyles doc)) (fst (injectFreezeStyles doc)) = doc.
Proof.
  unfold injectFreezeStyles. destruct doc as [dt root].
  destruct (documentHead {| doctypeName := dt; documentElement := root |}) as [hd|];
    [|reflexivity].
  destruct root as [name attrs children|d|d]; simpl; [|reflexivity|reflexivity].
  unfold removeFreezeStyles. simpl. now rewrite removeLast_append.
Qed.

(** The freeze style sits in the head of the tree: [root] is an [html]
    element with a child [head] that has the attributes [hattrs] and the
    freeze style among its children. *)
Section FreezeInHead.
Variable hattrs : list (jsstring * jsstring).

Let inHead (root : node) : Prop :=
    exists attrs children hchildren,
      root = Element (str "html") attrs children
      /\ In (Element (str "head") hattrs hchildren) children
      /\ In freezeStyle hchildren.

Lemma inject_inHead (attrs : list (jsstring * jsstring)) (children hchildren : list node) :
    find (hasTag "head") children = Some (Element (str "head") hattrs hchildren) ->
    inHead (Element (str "html") attrs
                    (appendToFirstOf (hasTag "head") freezeStyle children)).
  Proof.
    intros H. exists attrs, (appendToFirstOf (hasTag "head") freezeStyle children),
      (hchildren ++ [freezeStyle]).
    split; [reflexivity|]. split; [|apply in_or_app; right; now left].
    induction children as [|c cs IH]; [discriminate|].
    simpl in H |- *. destruct (hasTag "head" c) eqn:Hc.
    - injection H as ->. now left.
    - right. now apply IH.
  Qed.

Lemma removeAll_inHead (p : node -> bool) (root : node) :
    (forall hchildren, p (Element (str "head") hattrs hchildren) = false) ->
    p freezeStyle = false -> p (Text freezeCss) = false ->
    inHead root -> inHead (removeAll p root).
  Proof.
    intros Phead Pfreeze Ptext (attrs & children & hchildren & -> & Hh & Hf).
    rewrite removeAll_element.
    exists attrs, (map (removeAll p) (filter (fun c => negb (p c)) children)),
      (map (removeAll p) (filter (fun c => negb (p c)) hchildren)).
    split; [reflexivity|]. split.
    - rewrite <- removeAll_element. apply in_map. apply filter_In.
      split; [exact Hh|]. now rewrite Phead.
    - replace freezeStyle with (removeAll p freezeStyle) at 1.
      + apply in_map. apply filter_In. split; [exact Hf|]. now rewrite Pfreeze.
      + unfold freezeStyle. rewrite removeAll_element. simpl. now rewrite Ptext.
  Qed.

Lemma appendToFirstIn_head (x : node) (children : list node) :
    forall hchildren children',
      In (Element (str "head") hattrs hchildren) children ->
      In freezeStyle hchildren ->
      appendToFirstIn (hasTag "head") x children = Some children' ->
      exists hchildren',
        In (Element (str "head") hattrs hchildren') children'
        /\ In freezeStyle hchildren'.
  Proof.
    induction children as [|c cs IH]; intros hchildren children' Hin Hf E; [destruct Hin|].
    simpl in E. destruct (hasTag "head" c) eqn:Hc.
    - destruct c as [cn ca cc|d|d]; try discriminate. injection E as <-.
      destruct Hin as [Hin|Hin].
      + injection Hin as -> -> ->. exists (hchildren ++ [x]).
        split; [now left|]. apply in_or_app. now left.
      + exists hchildren. split; [now right|exact Hf].
    - destruct Hin as [Hin|Hin]; [subst c; discriminate|].
      destruct (appendToFirst (hasTag "head") x c) as [c'|].
      + injection E as <-. exists hchildren. split; [now right|exact Hf].
      + destruct (appendToFirstIn (hasTag "head") x cs) as [l''|] eqn:El; [|discriminate].
        injection E as <-.
        destruct (IH hchildren l'' Hin Hf eq_refl) as (hc' & H1 & H2).
        exists hc'. split; [now right|exact H2].
  Qed.

Lemma appendUnder_inHead (x : node) (root : node) :
    inHead root -> inHead (appendUnder (hasTag "head") x root).
  Proof.
    intros (attrs & children & hchildren & -> & Hh & Hf).
    unfold appendUnder. rewrite appendToFirst_element.
    destruct (appendToFirstIn (hasTag "head") x children) as [children'|] eqn:E.
    - destruct (appendToFirstIn_head x children hchildren children' Hh Hf E)
        as (hc' & H1 & H2).
      exists attrs, children', hc'. auto.
    - exists attrs, children, hchildren. auto.
  Qed.

Lemma serialize_child (ser : Serializer) (raw : bool) (name : jsstring)
      (attrs : list (jsstring * jsstring)) (children : list node) (c : node) :
    nameIn voidElements name = false -> In c children ->
    exists pre post,
      serialize ser raw (Element name attrs children)
      = pre ++ serialize ser (nameIn rawTextElements name) c ++ post.
  Proof.
    intros Hvoid Hin. apply in_split in Hin as (l1 & l2 & ->).
    cbn [serialize]. rewrite Hvoid. rewrite flat_map_app. cbn [flat_map].
    eexists (str "<" ++ name ++ flat_map (serializeAttribute ser) attrs ++ str ">"
             ++ flat_map (serialize ser (nameIn rawTextElements name)) l1), _.
    rewrite <- !app_assoc. reflexivity.
  Qed.

Lemma inHead_serialized (ser : Serializer) (root : node) :
    inHead root ->
    exists pre post, outerHTML ser root = pre ++ outerHTML ser freezeStyle ++ post.
  Proof.
    intros (attrs & children & hchildren & -> & Hh & Hf).
    destruct (serialize_child ser false (str "html") attrs children _ eq_refl Hh)
      as (p1 & q1 & E1).
    destruct (serialize_child ser (nameIn rawTextElements (str "html")) (str "head")
                hattrs hchildren _ eq_refl Hf) as (p2 & q2 & E2).
    unfold outerHTML. rewrite E1, E2.
    exists (p1 ++ p2), (q2 ++ q1). rewrite <- !app_assoc. reflexivity.
  Qed.

Lemma pruneClone_inHead (options : CloneOptions) (root : node) :
    removeOriginalStyles options = false ->
    (forall hchildren,
        hasAttribute "data-extension-id" (Element (str "head") hattrs hchildren) = false) ->
    inHead root -> inHead (pruneClone options root).
  Proof.
    intros Hstyles Hhead H. unfold pruneClone. rewrite Hstyles.
    assert (H3 : inHead (removeAll (hasAttribute "data-extension-id")
                           (removeAll isExtensionElement
                              (removeAll (hasTag "base") root)))).
    { apply removeAll_inHead; [exact Hhead|reflexivity|reflexivity|].
      apply removeAll_inHead; [reflexivity|reflexivity|reflexivity|].
      apply removeAll_inHead; [reflexivity|reflexivity|reflexivity|exact H]. }
    destruct (removeScripts options); [|exact H3].
    apply removeAll_inHead; [reflexivity|reflexivity|reflexivity|].
    apply removeAll_inHead; [reflexivity|reflexivity|reflexivity|exact H3].
  Qed.

Lemma fillHead_inHead (options : CloneOptions) (css : jsstring) (root : node) :
    inHead root -> inHead (fillHead options css root).
  Proof.
    intros H. unfold fillHead.
    destruct (truthy css), (addCsp options);
      repeat apply appendUnder_inHead; exact H.
  Qed.
End FreezeInHead.

Lemma freezeStyle_serialized (ser : Serializer) :
  outerHTML ser freezeStyle
  = str "<style data-pc-freeze=" ++ [DQUOTE] ++ escapeAttribute ser (str "true")
    ++ [DQUOTE] ++ str ">" ++ freezeCss ++ str "</style>".
Proof.
  unfold outerHTML, freezeStyle. cbn [serialize flat_map].
  change (nameIn voidElements (str "style")) with false.
  change (nameIn rawTextElements (str "style")) with true.
  cbn [serialize serializeAttribute fst snd].
  unfold serializeAttribute. cbn [fst snd].
  rewrite ?app_nil_r, <- ?app_assoc. reflexivity.
Qed.

(** Every capture leaves the live document as it found it. *)
Lemma captureInTab_restores (ser : Serializer) (net : Network) (eng : Engine)
    (options : CloneOptions) (doc : document) :
  exists result, captureInTab ser net eng options doc = Some (result, doc).
Proof.
  unfold captureInTab.
  pose proof (removeFreezeStyles_inject doc) as R.
  destruct (injectFreezeStyles doc) as [live attached]. simpl in R.
  destruct (removeOriginalStyles options).
  - destruct (collectUsedCss_returns (useHostFetch options) net eng []) as (st & -> & _).
    rewrite R. eauto.
  - rewrite R. eauto.
Qed.

Lemma documentHead_shape (doc : document) (head : node) :
  documentHead doc = Some head ->
  exists attrs children hattrs hchildren,
    documentElement doc = Element (str "html") attrs children
    /\ head = Element (str "head") hattrs hchildren
    /\ find (hasTag "head") children = Some head.
Proof.
  unfold documentHead. destruct (documentElement doc) as [name attrs children|d|d];
    try discriminate.
  destruct (jseq name (str "html")) eqn:E; [|discriminate].
  apply jseq_eq in E. subst name. intros F.
  destruct (find_some _ _ F) as [_ T].
  destruct head as [hn hattrs hchildren|d|d]; try discriminate.
  simpl in T. apply jseq_eq in T. subst hn.
  exists attrs, children, hattrs, hchildren. auto.
Qed.

(** C10 (as amended): When the live document has a [head] element, that
    [head] carries no [data-extension-id] attribute and
    [removeOriginalStyles] is false, the freeze style element attached to
    the live [head] is part of the clone, the pruning keeps it, and the
    serialized snapshot contains it, with the override text that disables
    animations, transitions and smooth scrolling; the live document is left
    without it. *)
Theorem freeze_style_survives_in_snapshot
    (ser : Serializer) (net : Network) (eng : Engine)
    (options : CloneOptions) (doc : document) (head : node) :
  removeOriginalStyles options = false ->
  documentHead doc = Some head ->
  hasAttribute "data-extension-id" head = false ->
  exists result,
    captureInTab ser net eng options doc = Some (result, doc)
    /\ (exists pre post, html result = pre ++ outerHTML ser freezeStyle ++ post)
    /\ outerHTML ser freezeStyle
       = str "<style data-pc-freeze=" ++ [DQUOTE] ++ escapeAttribute ser (str "true")
         ++ [DQUOTE] ++ str ">" ++ freezeCss ++ str "</style>".
Proof.
  intros Hstyles Hhead Hattr.
  destruct (documentHead_shape doc head Hhead)
    as (attrs & children & hattrs & hchildren & Hroot & -> & Hfind).
  destruct (captureInTab_restores ser net eng options doc) as [result E].
  exists result. split; [exact E|]. split; [|apply freezeStyle_serialized].
  revert E. unfold captureInTab, injectFreezeStyles.
  rewrite Hhead, Hroot, Hstyles.
  intros E. injection E as E1 _. rewrite <- E1. cbn [html documentElement].
  match goal with
  | |- context [outerHTML ser (fillHead ?o ?c ?t)] =>
    destruct (inHead_serialized hattrs ser (fillHead o c t)) as (pre & post & Es)
  end.
  - apply fillHead_inHead.
    apply pruneClone_inHead; [exact Hstyles|intros hc; exact Hattr|].
    eapply inject_inHead. exact Hfind.
  - rewrite Es. generalize (outerHTML ser freezeStyle). intros x.
    match goal with
    | |- context [doctypeText ?d] => generalize (doctypeText d)
    end.
    intros dt. exists (dt ++ [NEWLINE] ++ pre), post.
    now rewrite <- !app_assoc.
Qed.

Lemma freeze_style_survives_in_snapshot_witness :
  exists result,
    captureInTab plainSerializer offlineNetwork (screenEngine [] []) keepEverything
                 simpleDocument
    = Some (result, simpleDocument)
    /\ (exists pre post,
           html result = pre ++ outerHTML plainSerializer freezeStyle ++ post)
    /\ outerHTML plainSerializer freezeStyle
       = str "<style data-pc-freeze=" ++ [DQUOTE]
         ++ escapeAttribute plainSerializer (str "true")
         ++ [DQUOTE] ++ str ">" ++ freezeCss ++ str "</style>".
Proof.
  apply (freeze_style_survives_in_snapshot plainSerializer offlineNetwork
           (screenEngine [] []) keepEverything simpleDocument
           (Element (str "head") [] [Element (str "title") [] [Text (str "t")]]));
    reflexivity.
Defined.

(** C10 (as stated) fails: with [removeOriginalStyles] false, a document
    without [head] gets no freeze style at all, and a [head] tagged
    [data-extension-id] is pruned from the clone together with the freeze
    style; neither snapshot contains the override. *)
Lemma freeze_style_absent_from_snapshot :
  removeOriginalStyles keepEverything = false
  /\ (exists result,
         captureInTab plainSerializer offlineNetwork (screenEngine [] []) keepEverything
                      headlessDocument
         = Some (result, headlessDocument)
         /\ html result = str "<!DOCTYPE html>" ++ [NEWLINE]
                          ++ str "<html><body>hi</body></html>"
         /\ includes freezeCss (html result) = false
         /\ includes (str "data-pc-freeze") (html result) = false)
  /\ (exists result,
         captureInTab plainSerializer offlineNetwork (screenEngine [] []) keepEverything
                      taggedHeadDocument
         = Some (result, taggedHeadDocument)
         /\ html result = str "<!DOCTYPE html>" ++ [NEWLINE]
                          ++ str "<html><body>hi</body></html>"
         /\ includes freezeCss (html result) = false
         /\ includes (str "data-pc-freeze") (html result) = false).
Proof.
  split; [reflexivity|]. split; eexists; (split; [vm_compute; reflexivity|]);
    repeat split; vm_compute; reflexivity.
Qed.

(** ** Remaining statements on the relay *)

(** C9: On the relay path a well-formed success whose text is the empty
    string is classified as a failure with the error [Background fetch
    failed]: the privileged side answers an empty stylesheet with
    [{ok: true, text: ""}], the unprivileged side turns that answer into a
    result without text, and the blocked style source gets the
    fetch-failure warning. *)
Theorem relay_empty_text_is_failure
    (net : Network) (eng : Engine) (i : sheetId) (s : CSSStyleSheet)
    (h : jsstring) (ms status : N) (st : collector) (fuel : nat) :
  relayAvailable net = true ->
  relay net h = RespondsAfter ms
                  (ResultObject (fetchCssTask (FetchResponds true status (BodyText [])))) ->
  (ms < 3000)%N ->
  nth_error (sheets eng) i = Some s ->
  sheetRules s = None -> href s = Some h -> truthy h = true ->
  ~ In i (visitedSheets st) ->
  fetchCssTask (FetchResponds true status (BodyText []))
  = {| r_ok := true; r_text := Some []; r_error := None |}
  /\ classifyRelay {| r_ok := true; r_text := Some []; r_error := None |}
     = {| f_text := None; f_error := Some (str "Background fetch failed") |}
  /\ fetchStylesheetText true net h
     = Some {| f_text := None; f_error := Some (str "Background fetch failed") |}
  /\ exists st',
       collectFromStylesheet true net eng (S fuel) i st = Some st'
       /\ usedRules st' = usedRules st
       /\ warnings st'
          = warnings st
            ++ [str "cssRules blocked for stylesheet: " ++ h;
                str "Failed to fetch stylesheet: " ++ h
                ++ str " (Background fetch failed)"].
Proof.
  intros Ha Hr Hms Hs Hrules Hhref Hh Hi.
  pose proof (relay_empty_text_result net h ms status Ha Hr Hms) as F.
  split; [reflexivity|]. split; [reflexivity|]. split; [exact F|].
  eexists. split.
  - apply (collectFromStylesheet_blocked true net eng fuel i s h _ st
             Hs Hrules Hhref Hh Hi F eq_refl).
  - split; [reflexivity|]. simpl. unfold blockedWarning, fetchFailedWarning.
    simpl. rewrite <- app_assoc. reflexivity.
Qed.

Lemma relay_empty_text_is_failure_witness :
  fetchStylesheetText true emptySheetNetwork (str "https://cdn.example/x.css")
  = Some {| f_text := None; f_error := Some (str "Background fetch failed") |}.
Proof.
  apply (relay_empty_text_is_failure emptySheetNetwork
           (screenEngine blockedArena [0; 1]) 0
           {| href := Some (str "https://cdn.example/x.css"); sheetRules := None |}
           (str "https://cdn.example/x.css") 20%N 200%N emptyCollector 0);
    try reflexivity.
  intros [].
Defined.

Lemma relay_never_raises_and_times_out_witness :
  fetchStylesheetText true hungNetwork (str "https://cdn.example/x.css")
  = Some {| f_text := None; f_error := Some (str "Background fetch timeout") |}
  /\ resolved (relayPromise (RespondsAfter 5000 NotAnObject)) = Some timeoutResponse.
Proof.
  destruct (relay_never_raises_and_times_out true hungNetwork
              (str "https://cdn.example/x.css")) as (_ & H2 & _ & H4).
  split.
  - apply H2; reflexivity.
  - apply (H4 5000%N NotAnObject). discriminate.
Defined.

(* ================================================================== *)
(** * Part III: further properties of the code *)
(* ================================================================== *)

(** ** Runs of a class *)

Lemma rStar_some (p : code_unit -> bool) (s : jsstring) :
  exists rest,
    rStar p s (fun r => Some r) = Some rest /\ length rest <= length s.
Proof.
  induction s as [|c s (rest & E & L)]; simpl.
  - exists []. auto.
  - destruct (p c).
    + rewrite E. exists rest. split; [reflexivity|lia].
    + exists (c :: s). auto.
Qed.

Lemma matchLength_rPlus_false (p : code_unit -> bool) (c : code_unit) (s : jsstring) :
  p c = false -> matchLength (rPlus p) (c :: s) = None.
Proof.
  intros H. unfold matchLength, rPlus, rSeq, rChar. now rewrite H.
Qed.

Lemma matchLength_rPlus_true (p : code_unit -> bool) (c : code_unit) (s : jsstring) :
  p c = true -> exists k, matchLength (rPlus p) (c :: s) = Some (S k).
Proof.
  intros H. unfold matchLength, rPlus, rSeq, rChar. rewrite H.
  destruct (rStar_some p s) as (rest & -> & L).
  exists (length s - length rest). f_equal.
  change (length (c :: s)) with (S (length s)). lia.
Qed.

Lemma replaceFrom_rPlus_clean (p : code_unit -> bool) (f : jsstring -> jsstring) :
  (forall m, Forall (fun c => p c = false) (f m)) ->
  forall s skip, Forall (fun c => p c = false) (replaceFrom (rPlus p) f skip s).
Proof.
  intros Hf. induction s as [|c s IH]; intros skip; simpl; [constructor|].
  destruct skip as [|k]; [|apply IH].
  destruct (p c) eqn:Pc.
  - destruct (matchLength_rPlus_true p c s Pc) as [k ->].
    apply Forall_app. split; [apply Hf|apply IH].
  - rewrite (matchLength_rPlus_false p c s Pc). constructor; [exact Pc|apply IH].
Qed.

Lemma replaceFrom_keeps (Q : code_unit -> Prop) (r : matcher) (f : jsstring -> jsstring) :
  (forall m, Forall Q (f m)) ->
  forall s skip, Forall Q s -> Forall Q (replaceFrom r f skip s).
Proof.
  intros Hf. induction s as [|c s IH]; intros skip H; simpl; [constructor|].
  inversion H as [|x l Hc Hs]; subst.
  destruct skip as [|k]; [|now apply IH].
  destruct (matchLength r (c :: s)) as [[|k]|].
  - constructor; [exact Hc|now apply IH].
  - apply Forall_app. split; [apply Hf|now apply IH].
  - constructor; [exact Hc|now apply IH].
Qed.

Lemma replaceAll_rPlus_fixed (p : code_unit -> bool) (f : jsstring -> jsstring)
    (s : jsstring) :
  Forall (fun c => p c = false) s -> replaceAll (rPlus p) f s = s.
Proof.
  unfold replaceAll. induction 1 as [|c s Pc _ IH]; simpl; [reflexivity|].
  rewrite (matchLength_rPlus_false p c s Pc). now rewrite IH.
Qed.

Lemma trimStart_no_space (s : jsstring) :
  Forall (fun c => isWhiteSpace c = false) s -> trimStart s = s.
Proof.
  intros H. destruct H as [|c s Hc _]; [reflexivity|]. simpl. now rewrite Hc.
Qed.

Lemma trim_no_space (s : jsstring) :
  Forall (fun c => isWhiteSpace c = false) s -> trim s = s.
Proof.
  intros H. unfold trim, trimEnd. rewrite (trimStart_no_space s H).
  rewrite trimStart_no_space; [apply rev_involutive|].
  now apply Forall_rev.
Qed.

Lemma trim_all_space (s : jsstring) :
  Forall (fun c => isWhiteSpace c = true) s -> trim s = [].
Proof.
  intros H. unfold trim.
  assert (E : trimStart s = []).
  { induction H as [|c s Hc _ IH]; [reflexivity|]. simpl. now rewrite Hc. }
  now rewrite E.
Qed.

(** ** File names *)

Lemma sanitizeFileName_units (value : jsstring) :
  Forall (fun c => isPathHostile c = false /\ isWhiteSpace c = false)
         (sanitizeFileName value).
Proof.
  unfold sanitizeFileName, replaceAll.
  apply Forall_and.
  - apply replaceFrom_keeps; [intros m; repeat constructor|].
    apply replaceFrom_rPlus_clean. intros m. repeat constructor.
  - apply replaceFrom_rPlus_clean. intros m. repeat constructor.
Qed.

(** X1: whatever the title, the sanitized name holds no path-hostile code
    unit and no white space. *)
Theorem sanitizeFileName_clean (value : jsstring) :
  Forall (fun c => isPathHostile c = false /\ isWhiteSpace c = false)
         (sanitizeFileName value).
Proof. exact (sanitizeFileName_units value). Qed.

(** X2: sanitizing a sanitized name changes nothing. *)
Theorem sanitizeFileName_idempotent (value : jsstring) :
  sanitizeFileName (sanitizeFileName value) = sanitizeFileName value.
Proof.
  pose proof (sanitizeFileName_units value) as H.
  set (t := sanitizeFileName value) in *.
  assert (Hh : Forall (fun c => isPathHostile c = false) t)
    by (eapply Forall_impl; [|exact H]; now intros c [? ?]).
  assert (Hs : Forall (fun c => isWhiteSpace c = false) t)
    by (eapply Forall_impl; [|exact H]; now intros c [? ?]).
  unfold sanitizeFileName. rewrite (trim_no_space t Hs).
  unfold rePathHostile, reSpaces.
  now rewrite (replaceAll_rPlus_fixed _ _ t Hh), (replaceAll_rPlus_fixed _ _ t Hs).
Qed.

(** X3: a title made of white space only is truthy, so the fallback name
    is not used, and it sanitizes to the empty string: the snapshot is
    named [.html].  The name before the extension is always clean. *)
Theorem snapshotFileName_blank_title (title : jsstring) :
  title <> [] ->
  Forall (fun c => isWhiteSpace c = true) title ->
  snapshotFileName (Some title) = str ".html"
  /\ snapshotFileName None = str "pagesnap.html"
  /\ forall t, exists base,
       snapshotFileName t = base ++ str ".html"
       /\ Forall (fun c => isPathHostile c = false /\ isWhiteSpace c = false) base.
Proof.
  intros Hne Hws. split; [|split].
  - unfold snapshotFileName, orElse. destruct title as [|c t]; [congruence|].
    simpl truthy. cbv iota. unfold sanitizeFileName.
    now rewrite (trim_all_space _ Hws).
  - vm_compute. reflexivity.
  - intros t. eexists. split; [reflexivity|apply sanitizeFileName_units].
Qed.

Lemma snapshotFileName_blank_title_witness :
  snapshotFileName (Some (str "  ")) = str ".html".
Proof.
  apply (snapshotFileName_blank_title (str "  ")).
  - discriminate.
  - repeat constructor.
Defined.

(** ** More on the selector list splitter *)

Lemma separatorMask_cons (prev quote : option code_unit) (depth : nat)
    (c : code_unit) (s : jsstring) :
  separatorMask prev quote depth (c :: s)
  = scanBit quote depth c
    :: separatorMask (Some c) (fst (scanNext prev quote depth c))
         (snd (scanNext prev quote depth c)) s.
Proof.
  unfold scanBit, scanNext. simpl. destruct quote as [q|]; [reflexivity|].
  destruct (isQuoteChar c); [reflexivity|].
  destruct (isOpener c); [reflexivity|].
  destruct (isCloser c); reflexivity.
Qed.

Lemma separatorMask_prev (prev prev' : option code_unit) (depth : nat) (s : jsstring) :
  separatorMask prev None depth s = separatorMask prev' None depth s.
Proof. destruct s; reflexivity. Qed.

Lemma scanState_app (a b : jsstring) :
  forall prev quote depth,
    scanState prev quote depth (a ++ b)
    = scanState (fst (fst (scanState prev quote depth a)))
                (snd (fst (scanState prev quote depth a)))
                (snd (scanState prev quote depth a)) b.
Proof.
  induction a as [|c a IH]; intros prev quote depth; simpl; [reflexivity|].
  apply IH.
Qed.

Lemma separatorMask_app (a b : jsstring) :
  forall prev quote depth,
    separatorMask prev quote depth (a ++ b)
    = separatorMask prev quote depth a
      ++ separatorMask (fst (fst (scanState prev quote depth a)))
           (snd (fst (scanState prev quote depth a)))
           (snd (scanState prev quote depth a)) b.
Proof.
  induction a as [|c a IH]; intros prev quote depth; [reflexivity|].
  rewrite <- app_comm_cons, !separatorMask_cons, IH. reflexivity.
Qed.

(** A text none of whose code units separates is one piece. *)
Lemma piecesAt_one (s : jsstring) :
  forall prev quote depth piece,
    Forall (fun b => b = false) (separatorMask prev quote depth s) ->
    piecesAt s (separatorMask prev quote depth s) piece = [piece ++ s].
Proof.
  induction s as [|c s IH]; intros prev quote depth piece H.
  - simpl. now rewrite app_nil_r.
  - rewrite separatorMask_cons in H |- *. inversion H as [|b m Hb Hm]; subst.
    rewrite Hb. simpl. rewrite (IH _ _ _ _ Hm), <- app_assoc. reflexivity.
Qed.

Lemma splitSelectors_one (s : jsstring) :
  Forall (fun b => b = false) (separatorMask None None 0 s) ->
  splitSelectors s = filter truthy [trim s].
Proof.
  intros H. unfold splitSelectors. rewrite splitLoop_spec.
  now rewrite (piecesAt_one s _ _ _ [] H).
Qed.

Lemma scanBit_not_comma (quote : option code_unit) (depth : nat) (c : code_unit) :
  c <> COMMA -> scanBit quote depth c = false.
Proof.
  intros H. unfold scanBit. destruct quote; [reflexivity|].
  destruct (isQuoteChar c); [reflexivity|].
  destruct (isOpener c); [reflexivity|].
  destruct (isCloser c); [reflexivity|].
  apply N.eqb_neq in H. now rewrite H.
Qed.

(** X4: a selector text without a comma comes back as one clause, its
    trimmed text, or as no clause at all when that is empty. *)
Theorem splitSelectors_without_comma (s : jsstring) :
  ~ In COMMA s ->
  splitSelectors s = (if truthy (trim s) then [trim s] else []).
Proof.
  intros H. rewrite splitSelectors_one; [reflexivity|].
  generalize (@None code_unit) at 1. generalize (@None code_unit). generalize 0.
  induction s as [|c s IH]; intros depth quote prev; [constructor|].
  rewrite separatorMask_cons. constructor.
  - apply scanBit_not_comma. intros ->. apply H. now left.
  - apply IH. intros Hin. apply H. now right.
Qed.

Lemma splitSelectors_without_comma_witness :
  splitSelectors (str "  a[x='y'] > b  ") = [str "a[x='y'] > b"].
Proof.
  apply (splitSelectors_without_comma (str "  a[x='y'] > b  ")).
  intros H. repeat (destruct H as [H|H]; [discriminate H|]). exact H.
Defined.

Lemma closer_not_comma (c : code_unit) : isCloser c = true -> (c =? COMMA)%N = false.
Proof.
  unfold isCloser. intros H. apply orb_true_iff in H.
  destruct H as [H|H]; apply N.eqb_eq in H; subst; reflexivity.
Qed.

(** X5: on a text without quotes and without opening brackets the
    splitter agrees with a plain split on every comma, followed by
    trimming and dropping the empty pieces. *)
Theorem splitSelectors_plain_split (s : jsstring) :
  Forall (fun c => isQuoteChar c = false /\ isOpener c = false) s ->
  splitSelectors s = filter truthy (map trim (splitOnCommas s [])).
Proof.
  intros H. unfold splitSelectors. rewrite splitLoop_spec. simpl app.
  do 2 f_equal. generalize (@None code_unit) at 1. generalize (@nil code_unit).
  induction H as [|c s [Hq Ho] _ IH]; intros piece prev; [reflexivity|].
  simpl. rewrite Hq, Ho. destruct (isCloser c) eqn:Hc.
  - rewrite (closer_not_comma c Hc). apply IH.
  - rewrite andb_true_r. destruct (c =? COMMA)%N; [f_equal|]; apply IH.
Qed.

Lemma splitSelectors_plain_split_witness :
  splitSelectors (str "h1, h2 ,, .a > .b") = [str "h1"; str "h2"; str ".a > .b"].
Proof.
  apply (splitSelectors_plain_split (str "h1, h2 ,, .a > .b")).
  repeat constructor.
Defined.

Lemma space_is_plain (w : code_unit) :
  isWhiteSpace w = true ->
  scanBit None 0 w = false /\ forall prev, scanNext prev None 0 w = (None, 0).
Proof.
  intros H.
  assert (Q : isQuoteChar w = false).
  { destruct (isQuoteChar w) eqn:E; [|reflexivity]. unfold isQuoteChar in E.
    apply orb_true_iff in E. destruct E as [E|E]; apply N.eqb_eq in E; subst;
      discriminate H. }
  assert (O : isOpener w = false).
  { destruct (isOpener w) eqn:E; [|reflexivity]. unfold isOpener in E.
    apply orb_true_iff in E. destruct E as [E|E]; apply N.eqb_eq in E; subst;
      discriminate H. }
  assert (C : isCloser w = false).
  { destruct (isCloser w) eqn:E; [|reflexivity]. unfold isCloser in E.
    apply orb_true_iff in E. destruct E as [E|E]; apply N.eqb_eq in E; subst;
      discriminate H. }
  assert (K : (w =? COMMA)%N = false).
  { destruct (w =? COMMA)%N eqn:E; [|reflexivity].
    apply N.eqb_eq in E; subst; discriminate H. }
  unfold scanBit, scanNext. rewrite Q, O, C, K. auto.
Qed.

Lemma trimStart_no_separator (s : jsstring) :
  Forall (fun b => b = false) (separatorMask None None 0 s) ->
  Forall (fun b => b = false) (separatorMask None None 0 (trimStart s)).
Proof.
  induction s as [|c s IH]; intros H; [exact H|].
  simpl trimStart. destruct (isWhiteSpace c) eqn:W; [|exact H].
  apply IH. destruct (space_is_plain c W) as [_ N].
  rewrite separatorMask_cons, (N None) in H. simpl in H.
  inversion H as [|b m _ Hm]; subst.
  now rewrite (separatorMask_prev None (Some c)).
Qed.

Lemma trimEnd_prefix (s : jsstring) : exists spaces, s = trimEnd s ++ spaces.
Proof.
  induction s as [|c s (spaces & E)] using rev_ind.
  - now exists [].
  - rewrite trimEnd_snoc. destruct (isWhiteSpace c).
    + exists (spaces ++ [c]). rewrite app_assoc. now rewrite <- E.
    + exists []. now rewrite app_nil_r.
Qed.

Lemma trim_no_separator (s : jsstring) :
  Forall (fun b => b = false) (separatorMask None None 0 s) ->
  Forall (fun b => b = false) (separatorMask None None 0 (trim s)).
Proof.
  intros H. apply trimStart_no_separator in H. unfold trim.
  destruct (trimEnd_prefix (trimStart s)) as [spaces E].
  rewrite E in H at 1. rewrite separatorMask_app in H.
  now apply Forall_app in H as [H _].
Qed.

(** No piece cut by the scanner holds a separating comma of its own. *)
Lemma pieces_no_separator (s : jsstring) :
  forall prev quote depth piece last,
    scanState None None 0 piece = (last, quote, depth) ->
    (quote <> None -> prev = last) ->
    Forall (fun b => b = false) (separatorMask None None 0 piece) ->
    Forall (fun p => Forall (fun b => b = false) (separatorMask None None 0 p))
           (piecesAt s (separatorMask prev quote depth s) piece).
Proof.
  induction s as [|c s IH]; intros prev quote depth piece last Hst Hprev Hpiece.
  - simpl. constructor; [exact Hpiece|constructor].
  - rewrite separatorMask_cons.
    assert (Hnext : scanNext last quote depth c = scanNext prev quote depth c).
    { destruct quote as [q|]; [|reflexivity]. rewrite Hprev; [reflexivity|discriminate]. }
    destruct (scanBit quote depth c) eqn:B; simpl.
    + constructor; [exact Hpiece|].
      assert (E : scanNext prev quote depth c = (None, 0)).
      { unfold scanBit in B. destruct quote as [q|]; [discriminate|].
        unfold scanNext. destruct (isQuoteChar c); [discriminate|].
        destruct (isOpener c); [discriminate|].
        destruct (isCloser c); [discriminate|].
        apply andb_true_iff in B as [_ D]. apply Nat.eqb_eq in D. now subst. }
      rewrite E. simpl fst. simpl snd.
      apply (IH _ _ _ [] None); [reflexivity|intros F; now elim F|constructor].
    + apply (IH _ _ _ (piece ++ [c]) (Some c)).
      * rewrite scanState_app, Hst. simpl. rewrite Hnext.
        now destruct (scanNext prev quote depth c).
      * reflexivity.
      * rewrite separatorMask_app, Hst. cbn [fst snd]. rewrite separatorMask_cons.
        apply Forall_app. split; [exact Hpiece|].
        constructor; [exact B|constructor].
Qed.

(** X6: every clause the splitter returns is a single clause for the
    splitter itself, so splitting the clauses again returns them as they
    are. *)
Theorem splitSelectors_clauses_stable (s : jsstring) :
  Forall (fun c => splitSelectors c = [c]) (splitSelectors s)
  /\ flat_map splitSelectors (splitSelectors s) = splitSelectors s.
Proof.
  assert (H : Forall (fun c => splitSelectors c = [c]) (splitSelectors s)).
  { unfold splitSelectors at 2. rewrite splitLoop_spec. simpl app.
    pose proof (pieces_no_separator s None None 0 [] None eq_refl
                  (fun _ => eq_refl) (Forall_nil _)) as P.
    induction P as [|p l Hp _ IH]; simpl; [constructor|].
    destruct (truthy (trim p)) eqn:T; [|exact IH].
    constructor; [|exact IH].
    rewrite splitSelectors_one by now apply trim_no_separator.
    simpl. now rewrite trim_idem, T. }
  split; [exact H|].
  induction H as [|c l Hc _ IH]; simpl; [reflexivity|]. now rewrite Hc, IH.
Qed.

(** ** Patterns that need a given first code unit *)

Lemma eqIgnoreCase_exact (p c : code_unit) :
  toLowerAscii p = p -> (p <? 97)%N = true \/ (122 <? p)%N = true ->
  eqIgnoreCase p c = true -> c = p.
Proof.
  unfold eqIgnoreCase, toLowerAscii. intros Hp Hr H.
  rewrite Hp in H. apply N.eqb_eq in H.
  destruct ((65 <=? c)%N && (c <=? 90)%N) eqn:E; [|exact H].
  apply andb_true_iff in E as [E1 E2]. apply N.leb_le in E1, E2.
  destruct Hr as [Hr|Hr]; apply N.ltb_lt in Hr; lia.
Qed.

Lemma rSeq_first_fails (p : code_unit -> bool) (b : matcher) (c : code_unit)
    (s : jsstring) (k : jsstring -> option jsstring) :
  p c = false -> rSeq (rChar p) b (c :: s) k = None.
Proof. intros H. unfold rSeq, rChar. now rewrite H. Qed.

Lemma replaceAll_fixed (r : matcher) (f : jsstring -> jsstring) (s : jsstring) :
  matchesSomewhere r s = false -> replaceAll r f s = s.
Proof.
  unfold replaceAll.
  induction s as [|c s IH]; simpl; [reflexivity|].
  destruct (matchLength r (c :: s)) as [[|k]|]; intros H;
    try discriminate; now rewrite IH.
Qed.

Section FirstCodeUnit.
Variable r : matcher.
Variable first : code_unit.
Hypothesis needs_first :
  forall c s, c <> first -> matchLength r (c :: s) = None.

Lemma matchesSomewhere_prefix (p t : jsstring) :
  ~ In first p -> matchesSomewhere r (p ++ t) = matchesSomewhere r t.
Proof.
  induction p as [|c p IH]; intros H; [reflexivity|].
  simpl. rewrite needs_first by (intros ->; apply H; now left).
  apply IH. intros Hin. apply H. now right.
Qed.

Lemma matchesSomewhere_without (s : jsstring) :
  ~ In first s -> matchesSomewhere r s = false.
Proof.
  intros H. rewrite <- (app_nil_r s). now rewrite matchesSomewhere_prefix.
Qed.

Lemma replaceFrom_prefix (f : jsstring -> jsstring) (p t : jsstring) :
  ~ In first p -> replaceFrom r f 0 (p ++ t) = p ++ replaceFrom r f 0 t.
Proof.
  induction p as [|c p IH]; intros H; [reflexivity|].
  simpl. rewrite needs_first by (intros ->; apply H; now left).
  f_equal. apply IH. intros Hin. apply H. now right.
Qed.
End FirstCodeUnit.

Lemma normalizer_patterns_need_colon (c : code_unit) (s : jsstring) :
  c <> COLON ->
  matchLength reBeforeAfter (c :: s) = None
  /\ matchLength rePseudoElement (c :: s) = None
  /\ matchLength reStatePseudo (c :: s) = None.
Proof.
  intros H.
  assert (E : eqIgnoreCase COLON c = false).
  { destruct (eqIgnoreCase COLON c) eqn:E; [|reflexivity].
    apply eqIgnoreCase_exact in E; [contradiction|reflexivity|now left]. }
  assert (E' : (COLON =? c)%N = false) by (apply N.eqb_neq; congruence).
  unfold matchLength, reBeforeAfter, rePseudoElement, reStatePseudo, rAlt, rIsI, rIs.
  cbn [rConcat].
  rewrite !rSeq_first_fails by assumption. auto.
Qed.

(** ** More on the selector normalizer *)

(** X7: a selector without a colon holds no pseudo-class and no
    pseudo-element, and the normalizer only trims it. *)
Theorem normalizeSelector_without_colon (s : jsstring) :
  ~ In COLON s -> normalizeSelector s = trim s.
Proof.
  intros H. unfold normalizeSelector, remove.
  rewrite (replaceAll_fixed reBeforeAfter), (replaceAll_fixed rePseudoElement),
    (replaceAll_fixed reStatePseudo); try reflexivity;
    apply (matchesSomewhere_without _ COLON); try exact H;
    intros c t Hc; apply (normalizer_patterns_need_colon c t Hc).
Qed.

Lemma normalizeSelector_without_colon_witness :
  normalizeSelector (str " ul > li.item ") = str "ul > li.item".
Proof.
  apply (normalizeSelector_without_colon (str " ul > li.item ")).
  intros H. repeat (destruct H as [H|H]; [discriminate H|]). exact H.
Defined.

Lemma focus_visible_match (rest : jsstring) :
  matchLength reStatePseudo (str ":focus-visible" ++ rest) = Some 6
  /\ matchLength reStatePseudo (str ":focus-within" ++ rest) = Some 6.
Proof.
  unfold matchLength.
  replace (reStatePseudo (str ":focus-visible" ++ rest) (fun r => Some r))
    with (Some (str "-visible" ++ rest)) by (vm_compute; reflexivity).
  replace (reStatePseudo (str ":focus-within" ++ rest) (fun r => Some r))
    with (Some (str "-within" ++ rest)) by (vm_compute; reflexivity).
  rewrite !length_app.
  change (length (str ":focus-visible")) with 14.
  change (length (str "-visible")) with 8.
  change (length (str ":focus-within")) with 13.
  change (length (str "-within")) with 7.
  split; f_equal; lia.
Qed.

Lemma replaceFrom_skip (r : matcher) (f : jsstring -> jsstring) (s : jsstring) :
  forall skip, replaceFrom r f skip s = replaceFrom r f 0 (skipn skip s).
Proof.
  induction s as [|c s IH]; intros [|k]; try reflexivity.
  simpl skipn. rewrite <- IH. reflexivity.
Qed.

Lemma replaceFrom_match (r : matcher) (f : jsstring -> jsstring)
    (c : code_unit) (s : jsstring) (k : nat) :
  matchLength r (c :: s) = Some (S k) ->
  replaceFrom r f 0 (c :: s)
  = f (firstn (S k) (c :: s)) ++ replaceFrom r f 0 (skipn k s).
Proof.
  intros H. cbn [replaceFrom]. rewrite H. now rewrite replaceFrom_skip.
Qed.

Lemma remove_focus_visible (rest : jsstring) :
  replaceFrom reStatePseudo (fun _ => []) 0 (str ":focus-visible" ++ rest)
  = str "-visible" ++ replaceFrom reStatePseudo (fun _ => []) 0 rest
  /\ replaceFrom reStatePseudo (fun _ => []) 0 (str ":focus-within" ++ rest)
     = str "-within" ++ replaceFrom reStatePseudo (fun _ => []) 0 rest.
Proof.
  destruct (focus_visible_match rest) as [E1 E2].
  assert (R3 : forall c s, c <> COLON -> matchLength reStatePseudo (c :: s) = None)
    by (intros c s Hc; apply (normalizer_patterns_need_colon c s Hc)).
  split.
  - rewrite (replaceFrom_match reStatePseudo _ COLON (str "focus-visible" ++ rest) 5 E1).
    change (skipn 5 (str "focus-visible" ++ rest)) with (str "-visible" ++ rest).
    rewrite (replaceFrom_prefix reStatePseudo COLON R3); [reflexivity|].
    intros H; repeat (destruct H as [H|H]; [discriminate H|]); exact H.
  - rewrite (replaceFrom_match reStatePseudo _ COLON (str "focus-within" ++ rest) 5 E2).
    change (skipn 5 (str "focus-within" ++ rest)) with (str "-within" ++ rest).
    rewrite (replaceFrom_prefix reStatePseudo COLON R3); [reflexivity|].
    intros H; repeat (destruct H as [H|H]; [discriminate H|]); exact H.
Qed.

(** X8: of [:focus-visible] and [:focus-within] only [:focus] is removed,
    because the alternative [focus] comes first in the pattern: around
    text without colons, [a:focus-visible] becomes [a-visible] and
    [a:focus-within] becomes [a-within]. *)
Theorem normalizeSelector_focus_visible (before after : jsstring) :
  ~ In COLON before -> ~ In COLON after ->
  normalizeSelector (before ++ str ":focus-visible" ++ after)
  = trim (before ++ str "-visible" ++ after)
  /\ normalizeSelector (before ++ str ":focus-within" ++ after)
     = trim (before ++ str "-within" ++ after).
Proof.
  intros Hb Ha.
  assert (N : forall r, (forall c s, c <> COLON -> matchLength r (c :: s) = None) ->
                        forall word,
                          ~ In COLON word ->
                          matchLength r (COLON :: word ++ after) = None ->
                          matchesSomewhere r (before ++ (COLON :: word) ++ after) = false).
  { intros r Hr word Hw Hm.
    rewrite (matchesSomewhere_prefix r COLON Hr) by exact Hb.
    rewrite <- app_comm_cons. cbn [matchesSomewhere]. rewrite Hm.
    rewrite (matchesSomewhere_prefix r COLON Hr) by exact Hw.
    now apply (matchesSomewhere_without r COLON Hr). }
  assert (R1 : forall c s, c <> COLON -> matchLength reBeforeAfter (c :: s) = None)
    by (intros c s Hc; apply (normalizer_patterns_need_colon c s Hc)).
  assert (R2 : forall c s, c <> COLON -> matchLength rePseudoElement (c :: s) = None)
    by (intros c s Hc; apply (normalizer_patterns_need_colon c s Hc)).
  assert (R3 : forall c s, c <> COLON -> matchLength reStatePseudo (c :: s) = None)
    by (intros c s Hc; apply (normalizer_patterns_need_colon c s Hc)).
  assert (W1 : ~ In COLON (str "focus-visible"))
    by (intros H; repeat (destruct H as [H|H]; [discriminate H|]); exact H).
  assert (W2 : ~ In COLON (str "focus-within"))
    by (intros H; repeat (destruct H as [H|H]; [discriminate H|]); exact H).
  assert (M1 : forall word, matchLength reBeforeAfter (COLON :: str "focus-" ++ word) = None)
    by (intros word; vm_compute; reflexivity).
  assert (M2 : forall word, matchLength rePseudoElement (COLON :: str "focus-" ++ word) = None)
    by (intros word; vm_compute; reflexivity).
  destruct (remove_focus_visible after) as [F1 F2].
  unfold normalizeSelector, remove. split.
  - rewrite (replaceAll_fixed reBeforeAfter)
      by (apply (N reBeforeAfter R1 (str "focus-visible") W1), (M1 (str "visible" ++ after))).
    rewrite (replaceAll_fixed rePseudoElement)
      by (apply (N rePseudoElement R2 (str "focus-visible") W1), (M2 (str "visible" ++ after))).
    unfold replaceAll.
    rewrite (replaceFrom_prefix reStatePseudo COLON R3) by exact Hb.
    rewrite F1.
    fold (replaceAll reStatePseudo (fun _ : jsstring => @nil code_unit) after).
    rewrite (replaceAll_fixed reStatePseudo); [reflexivity|].
    now apply (matchesSomewhere_without reStatePseudo COLON R3).
  - rewrite (replaceAll_fixed reBeforeAfter)
      by (apply (N reBeforeAfter R1 (str "focus-within") W2), (M1 (str "within" ++ after))).
    rewrite (replaceAll_fixed rePseudoElement)
      by (apply (N rePseudoElement R2 (str "focus-within") W2), (M2 (str "within" ++ after))).
    unfold replaceAll.
    rewrite (replaceFrom_prefix reStatePseudo COLON R3) by exact Hb.
    rewrite F2.
    fold (replaceAll reStatePseudo (fun _ : jsstring => @nil code_unit) after).
    rewrite (replaceAll_fixed reStatePseudo); [reflexivity|].
    now apply (matchesSomewhere_without reStatePseudo COLON R3).
Qed.

Lemma normalizeSelector_focus_visible_witness :
  normalizeSelector (str "a" ++ str ":focus-visible" ++ []) = str "a-visible".
Proof.
  apply (normalizeSelector_focus_visible (str "a") []).
  - intros [H|[]]. discriminate H.
  - intros [].
Defined.

(** ** More on the URL rewriter *)

Lemma reUrl_needs_backslash (s : jsstring) :
  ~ In BACKSLASH s -> matchLength reUrl s = None.
Proof.
  intros H. unfold matchLength.
  assert (E : forall k, reUrl s k = None); [|now rewrite E].
  intros k. unfold reUrl, reUrlPrefix, rWordI. cbn [map str rConcat].
  unfold rSeq, rIsI, rChar, rEmpty.
  destruct s as [|c0 [|c1 [|c2 [|c3 s]]]];
    repeat match goal with
           | |- context [if eqIgnoreCase (ch ?a) ?c then _ else _] =>
             destruct (eqIgnoreCase (ch a) c)
           end; try reflexivity.
  destruct (eqIgnoreCase BACKSLASH c3) eqn:E; [|reflexivity].
  apply eqIgnoreCase_exact in E; [|reflexivity|now left].
  exfalso. apply H. subst c3. right; right; right; now left.
Qed.

Lemma matchesSomewhere_reUrl (s : jsstring) :
  ~ In BACKSLASH s -> matchesSomewhere reUrl s = false.
Proof.
  induction s as [|c s IH]; intros H; [reflexivity|].
  simpl. rewrite (reUrl_needs_backslash (c :: s) H).
  apply IH. intros Hin. apply H. now right.
Qed.

(** X9: the pattern of the rewriter, as it is written, needs a backslash
    after [url]; a style text without a backslash is returned as it is,
    whatever the base address and whatever the URL parser answers. *)
Theorem rewriteCssUrls_without_backslash
    (resolve : jsstring -> jsstring -> option jsstring)
    (cssText : jsstring) (baseUrl : option jsstring) :
  ~ In BACKSLASH cssText -> rewriteCssUrls resolve cssText baseUrl = cssText.
Proof.
  intros H. unfold rewriteCssUrls. destruct baseUrl as [b|]; [|reflexivity].
  destruct (truthy b); [|reflexivity].
  apply replaceAll_fixed. now apply matchesSomewhere_reUrl.
Qed.

Lemma rewriteCssUrls_without_backslash_witness :
  rewriteCssUrls (fun url base => Some (base ++ url)) (str "a{background:url(i.png)}")
                 (Some (str "https://e.com/css/"))
  = str "a{background:url(i.png)}".
Proof.
  apply (rewriteCssUrls_without_backslash (fun url base => Some (base ++ url))
           (str "a{background:url(i.png)}") (Some (str "https://e.com/css/"))).
  intros H. repeat (destruct H as [H|H]; [discriminate H|]). exact H.
Defined.

(** *** What a match of the pattern looks like *)

Lemma consumes_rChar (p : code_unit -> bool) : consumes 1 (rChar p).
Proof.
  intros [|c s] k res E; simpl in E; [discriminate|].
  destruct (p c); [|discriminate]. exists s. split; [exact E|simpl; lia].
Qed.

Lemma consumes_rEmpty : consumes 0 rEmpty.
Proof. intros s k res E. exists s. split; [exact E|lia]. Qed.

Lemma consumes_rSeq (n m : nat) (a b : matcher) :
  consumes n a -> consumes m b -> consumes (n + m) (rSeq a b).
Proof.
  intros Ha Hb s k res E. unfold rSeq in E.
  destruct (Ha _ _ _ E) as (s1 & E1 & L1).
  destruct (Hb _ _ _ E1) as (s2 & E2 & L2).
  exists s2. split; [exact E2|lia].
Qed.

Lemma consumes_rOpt (a : matcher) : consumes 0 a -> consumes 0 (rOpt a).
Proof.
  intros Ha s k res E. unfold rOpt, rAlt in E.
  destruct (a s k) as [r|] eqn:Ea.
  - injection E as <-. exact (Ha _ _ _ Ea).
  - exact (consumes_rEmpty _ _ _ E).
Qed.

Lemma consumes_less (n m : nat) (r : matcher) :
  m <= n -> consumes n r -> consumes m r.
Proof.
  intros L H s k res E. destruct (H _ _ _ E) as (rest & E1 & L1).
  exists rest. split; [exact E1|lia].
Qed.

Lemma consumes_rStar (p : code_unit -> bool) : consumes 0 (rStar p).
Proof.
  intros s. induction s as [|c s IH]; intros k res E; simpl in E.
  - exists []. split; [exact E|simpl; lia].
  - destruct (p c).
    + destruct (rStar p s k) as [r|] eqn:Es.
      * injection E as <-. destruct (IH _ _ Es) as (rest & E1 & L1).
        exists rest. split; [exact E1|simpl; lia].
      * exists (c :: s). split; [exact E|lia].
    + exists (c :: s). split; [exact E|lia].
Qed.

Lemma consumes_rIsI (p : code_unit) : consumes 1 (rIsI p).
Proof. apply consumes_rChar. Qed.

Lemma consumes_optional_quote : consumes 0 (rOpt (rChar isQuote)).
Proof.
  apply consumes_rOpt. apply (consumes_less 1 0); [lia|apply consumes_rChar].
Qed.

Lemma consumes_reUrl : consumes 8 reUrl.
Proof.
  unfold reUrl, reUrlPrefix, reUrlGroup1, rWordI, rPlus.
  cbn [map str rConcat].
  apply (consumes_rSeq 4 4).
  - apply (consumes_rSeq 3 1); [|apply consumes_rIsI].
    apply (consumes_rSeq 1 2); [apply consumes_rIsI|].
    apply (consumes_rSeq 1 1); [apply consumes_rIsI|].
    apply (consumes_rSeq 1 0); [apply consumes_rIsI|apply consumes_rEmpty].
  - apply (consumes_rSeq 1 3); [apply consumes_rIsI|].
    apply (consumes_rSeq 0 3); [apply consumes_rStar|].
    apply (consumes_rSeq 0 3); [apply consumes_optional_quote|].
    apply (consumes_rSeq 1 2);
      [apply (consumes_rSeq 1 0); [apply consumes_rChar|apply consumes_rStar]|].
    apply (consumes_rSeq 0 2); [apply consumes_optional_quote|].
    apply (consumes_rSeq 1 1); [apply consumes_rIsI|].
    apply (consumes_rSeq 0 1); [apply consumes_rStar|].
    apply (consumes_rSeq 1 0); [apply consumes_rIsI|apply consumes_rEmpty].
Qed.

Lemma reUrl_match_shape (s : jsstring) (k : nat) :
  matchLength reUrl s = Some k ->
  8 <= k
  /\ exists c0 c1 c2 rest, s = c0 :: c1 :: c2 :: BACKSLASH :: BACKSLASH :: rest.
Proof.
  intros E. split.
  - unfold matchLength in E.
    destruct (reUrl s (fun rest => Some rest)) as [rest|] eqn:Er; [|discriminate].
    injection E as <-.
    destruct (consumes_reUrl _ _ _ Er) as (rest' & E1 & L). injection E1 as ->. lia.
  - unfold matchLength in E.
    destruct (reUrl s (fun rest => Some rest)) as [rest|] eqn:Er; [|discriminate].
    clear E. revert Er.
    unfold reUrl, reUrlPrefix, reUrlGroup1, rWordI. cbn [map str rConcat].
    unfold rSeq at 1 2 3 4 5 6. unfold rIsI at 1 2 3 4 5. unfold rChar at 1 2 3 4 5.
    unfold rEmpty at 1.
    destruct s as [|c0 [|c1 [|c2 [|c3 [|c4 s]]]]];
      repeat match goal with
             | |- context [if eqIgnoreCase (ch ?a) ?c then _ else _] =>
               destruct (eqIgnoreCase (ch a) c)
             end; try discriminate;
      try (destruct (eqIgnoreCase BACKSLASH c3); discriminate).
    destruct (eqIgnoreCase BACKSLASH c3) eqn:E3; [|discriminate].
    destruct (eqIgnoreCase BACKSLASH c4) eqn:E4; [|discriminate].
    apply eqIgnoreCase_exact in E3; [|reflexivity|now left].
    apply eqIgnoreCase_exact in E4; [|reflexivity|now left].
    subst. intros _. now exists c0, c1, c2, s.
Qed.

(** C5: at the style text [exampleCss] the rewriter is not idempotent:
    the address it writes keeps the backslashes of the query, the pattern
    finds a reference in it and a second pass with the same base rewrites
    the text again.  The pattern as it is written asks for two backslashes
    after [url] where a parenthesis and white space are meant, so the
    reference handed to the replacer always starts with a backslash and is
    never one of those the replacer sets aside ([data:], [blob:],
    [about:], fragments): every match is sent to the URL parser. *)
Theorem rewriteCssUrls_not_idempotent :
  rewriteCssUrls exampleResolve exampleCss (Some exampleBase)
  = str "url(" ++ [DQUOTE] ++ str "https://e.com/a?url\\b\\\\" ++ [DQUOTE] ++ str ")"
  /\ rewriteCssUrls exampleResolve
       (rewriteCssUrls exampleResolve exampleCss (Some exampleBase)) (Some exampleBase)
     = str "url(" ++ [DQUOTE] ++ str "https://e.com/a?url(" ++ [DQUOTE]
       ++ str "https://e.com/b////" ++ [DQUOTE] ++ str ")" ++ [DQUOTE] ++ str ")"
  /\ rewriteCssUrls exampleResolve
       (rewriteCssUrls exampleResolve exampleCss (Some exampleBase)) (Some exampleBase)
     <> rewriteCssUrls exampleResolve exampleCss (Some exampleBase)
  /\ forall resolve b s k,
       matchLength reUrl s = Some k ->
       (exists rest, skipn 4 (firstn k s) = BACKSLASH :: rest)
       /\ urlReplacer resolve b (firstn k s)
          = match resolve (skipn 4 (firstn k s)) b with
            | Some absolute => str "url(" ++ [DQUOTE] ++ absolute ++ [DQUOTE] ++ str ")"
            | None => firstn k s
            end.
Proof.
  split; [vm_compute; reflexivity|]. split; [vm_compute; reflexivity|].
  split; [vm_compute; discriminate|].
  intros resolve b s k E.
  destruct (reUrl_match_shape s k E) as (L & c0 & c1 & c2 & rest & ->).
  do 8 (destruct k as [|k]; [lia|]).
  assert (G : skipn 4 (firstn (S (S (S (S (S (S (S (S k))))))))
                         (c0 :: c1 :: c2 :: BACKSLASH :: BACKSLASH :: rest))
              = BACKSLASH :: firstn (S (S (S k))) rest) by reflexivity.
  split; [now eexists|].
  unfold urlReplacer. rewrite G. reflexivity.
Qed.

(** The whole of [exampleCss] is one match; it is sent to the URL parser
    with its leading backslash. *)
Lemma rewriteCssUrls_not_idempotent_witness :
  matchLength reUrl exampleCss = Some 17
  /\ skipn 4 exampleCss = str "\a?url\\b\\\\"
  /\ urlReplacer exampleResolve exampleBase exampleCss
     = str "url(" ++ [DQUOTE] ++ str "https://e.com/a?url\\b\\\\" ++ [DQUOTE] ++ str ")".
Proof.
  split; [vm_compute; reflexivity|]. split; [reflexivity|].
  destruct rewriteCssUrls_not_idempotent as (_ & _ & _ & H).
  destruct (H exampleResolve exampleBase exampleCss 17) as [_ E].
  - vm_compute. reflexivity.
  - change (firstn 17 exampleCss) with exampleCss in E. rewrite E. reflexivity.
Defined.

(** ** Relevance *)

(** X10: a clause matches exactly when the direct query finds a node, or
    when the direct query throws and the query with the normalized clause,
    which must be non-empty and differ from the clause, finds one; a
    direct query that answers settles the matter. *)
Theorem selectorMatches_cases (eng : Engine) (selector : jsstring) :
  (selectorMatches eng selector = true
   <-> querySelector eng selector = Some true
       \/ (querySelector eng selector = None
           /\ normalizeSelector selector <> []
           /\ normalizeSelector selector <> selector
           /\ querySelector eng (normalizeSelector selector) = Some true))
  /\ (forall found, querySelector eng selector = Some found ->
                    selectorMatches eng selector = found).
Proof.
  unfold selectorMatches. split.
  - destruct (querySelector eng selector) as [found|].
    + split; [intros ->; now left|]. intros [H|[H _]]; congruence.
    + destruct (normalizeSelector selector) as [|c n] eqn:En.
      * simpl. split; [intros HH; simpl in HH; discriminate HH|]. intros [H|(_ & H & _)]; congruence.
      * change (negb (truthy (c :: n)) || jseq (c :: n) selector)
          with (jseq (c :: n) selector).
        destruct (jseq (c :: n) selector) eqn:J.
        -- apply jseq_eq in J. split; [intros HH; simpl in HH; discriminate HH|].
           intros [H|(_ & _ & H & _)]; congruence.
        -- assert (c :: n <> selector).
           { intros E. rewrite <- E in J. now rewrite jseq_refl in J. }
           destruct (querySelector eng (c :: n)) as [found|];
             (split; [intros HH|intros [H0|(_ & _ & _ & H0)]; congruence]).
           ++ subst found. right. repeat split; congruence.
           ++ discriminate HH.
  - intros found ->. reflexivity.
Qed.

(** ** Composition of the rule walk *)

(** Walking two rule lists one after the other is walking their
    concatenation: the collected texts are appended in order and the state
    is threaded through. *)
Theorem collectRuleList_app (eng : Engine)
    (fromSheet : sheetId -> collector -> option collector)
    (first second : list rule) (st : collector) :
  collectRuleList eng fromSheet (first ++ second) st
  = match collectRuleList eng fromSheet first st with
    | None => None
    | Some (c1, st1) =>
      match collectRuleList eng fromSheet second st1 with
      | None => None
      | Some (c2, st2) => Some (c1 ++ c2, st2)
      end
    end.
Proof.
  revert st. induction first as [|r first IH]; intros st; simpl.
  - now destruct (collectRuleList eng fromSheet second st) as [[c2 st2]|].
  - destruct (collectRule eng fromSheet r st) as [[c0 st0]|]; [|reflexivity].
    rewrite IH.
    destruct (collectRuleList eng fromSheet first st0) as [[c1 st1]|]; [|reflexivity].
    destruct (collectRuleList eng fromSheet second st1) as [[c2 st2]|]; [|reflexivity].
    now rewrite app_assoc.
Qed.

(** ** What the traversal preserves *)

Section Preserved.
Variable useHost : bool.
Variable net : Network.
Variable eng : Engine.
Variable R : collector -> collector -> Prop.
Hypothesis R_refl : forall st, R st st.
Hypothesis R_trans : forall a b c, R a b -> R b c -> R a c.
Hypothesis R_keyframes : forall x st, R st (addKeyframes x st).
Hypothesis R_fontFace : forall x st, R st (addFontFace x st).
Hypothesis R_used : forall l st, R st (pushUsedRules l st).
Hypothesis R_mark : forall i st, R st (markVisited i st).
Hypothesis R_warn :
  (exists i s, nth_error (sheets eng) i = Some s /\ sheetRules s = None) ->
  forall w st, R st (pushWarning w st).

Section PreservedCallback.
Variable fromSheet : sheetId -> collector -> option collector.
Hypothesis fromSheet_preserves :
  forall i st st', fromSheet i st = Some st' -> R st st'.

Lemma collectRuleList_preserves_of (rules : list rule) :
  Forall (fun r => forall st c st',
              collectRule eng fromSheet r st = Some (c, st') -> R st st') rules ->
  forall st c st', collectRuleList eng fromSheet rules st = Some (c, st') -> R st st'.
Proof.
  induction 1 as [|r rules Hr _ IH]; intros st c st' E; simpl in E.
  - injection E as _ <-. apply R_refl.
  - destruct (collectRule eng fromSheet r st) as [[c1 st1]|] eqn:E1; [|discriminate].
    destruct (collectRuleList eng fromSheet rules st1) as [[c2 st2]|] eqn:E2;
      [|discriminate].
    injection E as _ <-. eapply R_trans; [eapply Hr; exact E1|eapply IH; exact E2].
Qed.

Lemma collectRule_preserves (r : rule) :
  forall st c st', collectRule eng fromSheet r st = Some (c, st') -> R st st'.
Proof.
  induction r as [sel css|cond rules IH|cond rules IH|css|css|sheet|css rules IH|css]
    using rule_induction; intros st c st' E.
  - simpl in E. destruct (existsb _ _); injection E as _ <-; apply R_refl.
  - rewrite collectRule_media in E.
    destruct (collectRuleList eng fromSheet rules st) as [[n st1]|] eqn:E1; [|discriminate].
    destruct (0 <? length n); injection E as _ <-;
      eapply collectRuleList_preserves_of; eauto.
  - rewrite collectRule_supports in E. destruct (negb _).
    + injection E as _ <-. apply R_refl.
    + destruct (collectRuleList eng fromSheet rules st) as [[n st1]|] eqn:E1;
        [|discriminate].
      destruct (0 <? length n); injection E as _ <-;
        eapply collectRuleList_preserves_of; eauto.
  - simpl in E. injection E as _ <-. apply R_keyframes.
  - simpl in E. injection E as _ <-. apply R_fontFace.
  - simpl in E. destruct sheet as [sheet|].
    + destruct (negb _).
      * destruct (fromSheet sheet st) as [st1|] eqn:E1; [|discriminate].
        injection E as _ <-. eapply fromSheet_preserves; eauto.
      * injection E as _ <-. apply R_refl.
    + injection E as _ <-. apply R_refl.
  - rewrite collectRule_grouping in E.
    destruct (collectRuleList eng fromSheet rules st) as [[n st1]|] eqn:E1; [|discriminate].
    destruct (0 <? length n); injection E as _ <-;
      eapply collectRuleList_preserves_of; eauto.
  - simpl in E. injection E as _ <-. apply R_refl.
Qed.

Lemma collectRuleList_preserves (rules : list rule) :
  forall st c st', collectRuleList eng fromSheet rules st = Some (c, st') -> R st st'.
Proof.
  apply collectRuleList_preserves_of. apply Forall_forall.
  intros r _. apply collectRule_preserves.
Qed.

Lemma collectRules_preserves (rules : option (list rule)) :
  forall st c st', collectRules eng fromSheet rules st = Some (c, st') -> R st st'.
Proof.
  destruct rules as [rules|]; simpl.
  - apply collectRuleList_preserves.
  - intros st c st' E. injection E as _ <-. apply R_refl.
Qed.

Lemma examineSheet_preserves (i : sheetId) (s : CSSStyleSheet) (st st' : collector) :
  nth_error (sheets eng) i = Some s ->
  examineSheet useHost net eng fromSheet i s st = Some st' -> R st st'.
Proof.
  intros Hs E. unfold examineSheet in E.
  destruct (sheetRules s) as [rules|] eqn:Er.
  - destruct (collectRules eng fromSheet (Some rules) (markVisited i st))
      as [[n st1]|] eqn:E1; [|discriminate].
    injection E as <-.
    eapply R_trans; [apply R_mark|].
    eapply R_trans; [eapply collectRules_preserves; exact E1|apply R_used].
  - assert (W : forall w st0, R st0 (pushWarning w st0)) by (apply R_warn; eauto).
    destruct (negb (truthyOpt (href s))); [injection E as <-; apply R_mark|].
    destruct (fetchStylesheetText useHost net _) as [res|]; [|discriminate].
    destruct (negb (truthyOpt (f_text res))).
    + injection E as <-.
      eapply R_trans; [apply R_mark|]. eapply R_trans; apply W.
    + destruct (collectRules eng fromSheet _ _) as [[n st1]|] eqn:E1; [|discriminate].
      injection E as <-.
      eapply R_trans; [apply R_mark|]. eapply R_trans; [apply W|].
      eapply R_trans; [eapply collectRules_preserves; exact E1|apply R_used].
Qed.
End PreservedCallback.

Lemma collectFromStylesheet_preserves (fuel : nat) :
  forall i st st',
    collectFromStylesheet useHost net eng fuel i st = Some st' -> R st st'.
Proof.
  induction fuel as [|fuel IH]; intros i st st' E; simpl in E;
    destruct (visitedHas i (visitedSheets st));
    try (injection E as <-; apply R_refl);
    destruct (nth_error (sheets eng) i) as [s|] eqn:Es;
    try (injection E as <-; apply R_refl); try discriminate.
  eapply examineSheet_preserves; [exact IH|exact Es|exact E].
Qed.

Lemma collectSheets_preserves (fuel : nat) (l : list sheetId) :
  forall st st', collectSheets useHost net eng fuel l st = Some st' -> R st st'.
Proof.
  induction l as [|i l IH]; intros st st' E; simpl in E.
  - injection E as <-. apply R_refl.
  - destruct (collectFromStylesheet useHost net eng fuel i st) as [st1|] eqn:E1;
      [|discriminate].
    eapply R_trans; [eapply collectFromStylesheet_preserves; exact E1|eapply IH; exact E].
Qed.
End Preserved.

(** *** The sets of font-face and keyframes texts *)

Lemma setAdd_In (x y : jsstring) (s : list jsstring) :
  In y (setAdd x s) <-> y = x \/ In y s.
Proof.
  induction s as [|z s IH]; simpl.
  - split; [intros [H|[]]; auto|intros [H|[]]; auto].
  - destruct (jseq x z) eqn:E.
    + apply jseq_eq in E. subst z. simpl. split; [auto|]. intros [->|H]; auto.
    + simpl. rewrite IH. split; [intros [H|[H|H]]|intros [H|[H|H]]]; auto.
Qed.

Lemma setAdd_NoDup (x : jsstring) (s : list jsstring) :
  NoDup s -> NoDup (setAdd x s).
Proof.
  induction 1 as [|z s Hz Hs IH]; simpl.
  - constructor; [intros []|constructor].
  - destruct (jseq x z) eqn:E; [now constructor|].
    constructor; [|exact IH].
    rewrite setAdd_In. intros [->|H]; [|contradiction].
    now rewrite jseq_refl in E.
Qed.

Lemma grows_refl (st : collector) : grows st st.
Proof.
  split; [exists []; now rewrite app_nil_r|].
  repeat split; auto using incl_refl.
Qed.

Lemma grows_trans (a b c : collector) : grows a b -> grows b c -> grows a c.
Proof.
  intros ((m1 & U1) & F1 & K1 & DF1 & DK1) ((m2 & U2) & F2 & K2 & DF2 & DK2).
  split; [exists (m1 ++ m2); now rewrite U2, U1, app_assoc|].
  repeat split; eauto using incl_tran.
Qed.

Lemma grows_quiet (st st' : collector) :
  usedRules st' = usedRules st -> fontFaces st' = fontFaces st ->
  keyframes st' = keyframes st -> grows st st'.
Proof.
  intros U F K. split; [exists []; now rewrite app_nil_r|].
  rewrite F, K. repeat split; auto using incl_refl.
Qed.

Lemma collectFromStylesheet_grows (useHost : bool) (net : Network) (eng : Engine)
    (fuel : nat) (i : sheetId) (st st' : collector) :
  collectFromStylesheet useHost net eng fuel i st = Some st' -> grows st st'.
Proof.
  apply (collectFromStylesheet_preserves useHost net eng grows).
  - apply grows_refl.
  - apply grows_trans.
  - intros x s. split; [exists []; now rewrite app_nil_r|]. simpl.
    repeat split; auto using incl_refl, setAdd_NoDup.
    intros y Hy. apply setAdd_In. now right.
  - intros x s. split; [exists []; now rewrite app_nil_r|]. simpl.
    repeat split; auto using incl_refl, setAdd_NoDup.
    intros y Hy. apply setAdd_In. now right.
  - intros l s. split; [now exists l|]. simpl. repeat split; auto using incl_refl.
  - intros j s. now apply grows_quiet.
  - intros _ w s. now apply grows_quiet.
Qed.

Lemma collectSheets_grows (useHost : bool) (net : Network) (eng : Engine)
    (fuel : nat) (l : list sheetId) :
  forall st st', collectSheets useHost net eng fuel l st = Some st' -> grows st st'.
Proof.
  induction l as [|i l IH]; intros st st' E; simpl in E.
  - injection E as <-. apply grows_refl.
  - destruct (collectFromStylesheet useHost net eng fuel i st) as [st1|] eqn:E1;
      [|discriminate].
    eapply grows_trans; [eapply collectFromStylesheet_grows; exact E1|eapply IH; exact E].
Qed.

(** X11: what has been collected is never lost: during the processing of
    a style source the rule texts only get longer at the end, and the
    font-face and keyframes sets keep their elements and stay free of
    duplicates. *)
Theorem collected_text_only_grows (useHost : bool) (net : Network) (eng : Engine)
    (fuel : nat) (i : sheetId) (st st' : collector) :
  collectFromStylesheet useHost net eng fuel i st = Some st' ->
  (exists more, usedRules st' = usedRules st ++ more)
  /\ (forall t, In t (fontFaces st) -> In t (fontFaces st'))
  /\ (forall t, In t (keyframes st) -> In t (keyframes st'))
  /\ (NoDup (fontFaces st) -> NoDup (fontFaces st'))
  /\ (NoDup (keyframes st) -> NoDup (keyframes st')).
Proof.
  intros E. exact (collectFromStylesheet_grows useHost net eng fuel i st st' E).
Qed.

(** The second source of [laterArena], processed after the first one
    left a rule text, a font-face text and a keyframes text behind. *)
Lemma collected_text_only_grows_witness :
  collectFromStylesheet false offlineNetwork (screenEngine laterArena [0; 1]) 2 0
    emptyCollector
  = Some collectedSoFar
  /\ (exists more,
         usedRules
           {| usedRules := [str ".a { color: red; }";
                            str "@media print{.x { color: red; }}"];
              fontFaces := [str "@font-face { font-family: Y; }";
                            str "@font-face { font-family: X; }"];
              keyframes := [str "@keyframes fade { to { opacity: 0; } }";
                            str "@keyframes spin { to { rotate: 1turn; } }"];
              visitedSheets := [0; 1]; warnings := []; examined := [0; 1] |}
         = usedRules collectedSoFar ++ more)
  /\ (forall t,
         In t (fontFaces collectedSoFar) ->
         In t [str "@font-face { font-family: Y; }";
               str "@font-face { font-family: X; }"])
  /\ (forall t,
         In t (keyframes collectedSoFar) ->
         In t [str "@keyframes fade { to { opacity: 0; } }";
               str "@keyframes spin { to { rotate: 1turn; } }"]).
Proof.
  split; [reflexivity|].
  destruct (collected_text_only_grows false offlineNetwork
              (screenEngine laterArena [0; 1]) 2 1 collectedSoFar
              {| usedRules := [str ".a { color: red; }";
                               str "@media print{.x { color: red; }}"];
                 fontFaces := [str "@font-face { font-family: Y; }";
                               str "@font-face { font-family: X; }"];
                 keyframes := [str "@keyframes fade { to { opacity: 0; } }";
                               str "@keyframes spin { to { rotate: 1turn; } }"];
                 visitedSheets := [0; 1]; warnings := []; examined := [0; 1] |})
    as (U & F & K & _).
  - reflexivity.
  - split; [exact U|]. split; [exact F|exact K].
Defined.

(** X12: the text handed back by [collectUsedCss] never holds the same
    font-face text twice, nor the same keyframes text twice. *)
Theorem collected_sets_have_no_duplicates
    (useHost : bool) (net : Network) (eng : Engine) (warningsSoFar : list jsstring) :
  exists st,
    collectUsedCss useHost net eng warningsSoFar = Some (collectedText st, st)
    /\ NoDup (fontFaces st) /\ NoDup (keyframes st).
Proof.
  destruct (collectUsedCss_returns useHost net eng warningsSoFar) as (st & E & _).
  exists st. split; [exact E|].
  unfold collectUsedCss in E.
  destruct (collectSheets useHost net eng (length (sheets eng))
              (documentStyleSheets eng) _) as [st1|] eqn:E1; [|discriminate].
  injection E as _ <-.
  assert (G : grows {| usedRules := []; fontFaces := []; keyframes := [];
                       visitedSheets := []; warnings := warningsSoFar;
                       examined := [] |} st1).
  { exact (collectSheets_grows useHost net eng _ _ _ _ E1). }
  destruct G as (_ & _ & _ & DF & DK). split; [apply DF|apply DK]; constructor.
Qed.

(** *** Keyframes and font faces are always kept *)

Lemma grows_addKeyframes (x : jsstring) (st : collector) : grows st (addKeyframes x st).
Proof.
  split; [exists []; now rewrite app_nil_r|]. simpl.
  repeat split; auto using incl_refl, setAdd_NoDup.
  intros y Hy. apply setAdd_In. now right.
Qed.

Lemma grows_addFontFace (x : jsstring) (st : collector) : grows st (addFontFace x st).
Proof.
  split; [exists []; now rewrite app_nil_r|]. simpl.
  repeat split; auto using incl_refl, setAdd_NoDup.
  intros y Hy. apply setAdd_In. now right.
Qed.

Section Hoisting.
Variable eng : Engine.
Variable fromSheet : sheetId -> collector -> option collector.
Hypothesis fromSheet_grows :
  forall i st st', fromSheet i st = Some st' -> grows st st'.

Lemma collectRuleList_grows (rules : list rule) (st : collector)
    (c : list jsstring) (st' : collector) :
  collectRuleList eng fromSheet rules st = Some (c, st') -> grows st st'.
Proof.
  apply (collectRuleList_preserves eng grows grows_refl grows_trans
           grows_addKeyframes grows_addFontFace fromSheet fromSheet_grows).
Qed.

Let kept (r : rule) : Prop :=
  forall st c st',
    collectRule eng fromSheet r st = Some (c, st') ->
    incl (keyframesOf eng r) (keyframes st') /\ incl (fontFacesOf eng r) (fontFaces st').

Lemma collectRuleList_keeps_of (rules : list rule) :
  Forall kept rules ->
  forall st c st',
    collectRuleList eng fromSheet rules st = Some (c, st') ->
    incl (flat_map (keyframesOf eng) rules) (keyframes st')
    /\ incl (flat_map (fontFacesOf eng) rules) (fontFaces st').
Proof.
  induction 1 as [|r rules Hr _ IH]; intros st c st' E; simpl in E |- *.
  - split; apply incl_nil_l.
  - destruct (collectRule eng fromSheet r st) as [[c1 st1]|] eqn:E1; [|discriminate].
    destruct (collectRuleList eng fromSheet rules st1) as [[c2 st2]|] eqn:E2;
      [|discriminate].
    injection E as _ <-.
    destruct (Hr _ _ _ E1) as [K1 F1]. destruct (IH _ _ _ E2) as [K2 F2].
    destruct (collectRuleList_grows _ _ _ _ E2) as (_ & GF & GK & _).
    split; apply incl_app; eauto using incl_tran.
Qed.

Lemma collectRule_keeps (r : rule) : kept r.
Proof.
  induction r as [sel css|cond rules IH|cond rules IH|css|css|sheet|css rules IH|css]
    using rule_induction; intros st c st' E;
    try (split; apply incl_nil_l).
  - rewrite collectRule_media in E.
    destruct (collectRuleList eng fromSheet rules st) as [[n st1]|] eqn:E1; [|discriminate].
    change (keyframesOf eng (CSSMediaRule cond rules))
      with (flat_map (keyframesOf eng) rules).
    change (fontFacesOf eng (CSSMediaRule cond rules))
      with (flat_map (fontFacesOf eng) rules).
    destruct (0 <? length n); injection E as _ <-;
      exact (collectRuleList_keeps_of rules IH _ _ _ E1).
  - rewrite collectRule_supports in E.
    change (keyframesOf eng (CSSSupportsRule cond rules))
      with (if cssSupports eng cond then flat_map (keyframesOf eng) rules else []).
    change (fontFacesOf eng (CSSSupportsRule cond rules))
      with (if cssSupports eng cond then flat_map (fontFacesOf eng) rules else []).
    destruct (cssSupports eng cond); simpl in E; [|split; apply incl_nil_l].
    destruct (collectRuleList eng fromSheet rules st) as [[n st1]|] eqn:E1; [|discriminate].
    destruct (0 <? length n); injection E as _ <-;
      exact (collectRuleList_keeps_of rules IH _ _ _ E1).
  - simpl in E. injection E as _ <-. split; [|apply incl_nil_l].
    intros t [<-|[]]. simpl. apply setAdd_In. now left.
  - simpl in E. injection E as _ <-. split; [apply incl_nil_l|].
    intros t [<-|[]]. simpl. apply setAdd_In. now left.
  - rewrite collectRule_grouping in E.
    destruct (collectRuleList eng fromSheet rules st) as [[n st1]|] eqn:E1; [|discriminate].
    change (keyframesOf eng (CSSGroupingRule css rules))
      with (flat_map (keyframesOf eng) rules).
    change (fontFacesOf eng (CSSGroupingRule css rules))
      with (flat_map (fontFacesOf eng) rules).
    destruct (0 <? length n); injection E as _ <-;
      exact (collectRuleList_keeps_of rules IH _ _ _ E1).
Qed.

Lemma collectRuleList_keeps (rules : list rule) (st : collector)
    (c : list jsstring) (st' : collector) :
  collectRuleList eng fromSheet rules st = Some (c, st') ->
  incl (flat_map (keyframesOf eng) rules) (keyframes st')
  /\ incl (flat_map (fontFacesOf eng) rules) (fontFaces st').
Proof.
  apply collectRuleList_keeps_of. apply Forall_forall.
  intros r _. apply collectRule_keeps.
Qed.
End Hoisting.

(** C1 (as amended): A media group rule is decided by the walk of its
    children alone.  Its text, wrapped in the original condition, is kept
    exactly when at least one child rule survived the relevance filter;
    otherwise the group adds no rule text.  Either way the state is the
    one the children leave, so the keyframes and font-face rules among
    them are in their sets afterwards.  Whether the media condition is
    currently satisfied plays no part: the result is the same under every
    answer of the host to media queries.  An [@supports] group, by
    contrast, has its condition tested: an unsupported one is skipped with
    its children unread and leaves the state as it was, a supported one is
    treated like a media group. *)
Theorem media_group_kept_when_child_survives
    (eng : Engine) (fromSheet : sheetId -> collector -> option collector)
    (conditionText : jsstring) (rules : list rule) (st : collector) :
  collectRule eng fromSheet (CSSMediaRule conditionText rules) st
  = match collectRuleList eng fromSheet rules st with
    | None => None
    | Some (nested, st') =>
      Some (match nested with
            | [] => []
            | _ :: _ => [str "@media " ++ conditionText ++ str "{" ++ join [] nested ++ str "}"]
            end, st')
    end
  /\ (forall m,
         collectRule (withMedia m eng) fromSheet (CSSMediaRule conditionText rules) st
         = collectRule eng fromSheet (CSSMediaRule conditionText rules) st)
  /\ (forall c st',
         (forall i a b, fromSheet i a = Some b -> grows a b) ->
         collectRule eng fromSheet (CSSMediaRule conditionText rules) st = Some (c, st') ->
         (exists more, usedRules st' = usedRules st ++ more)
         /\ (forall t, In t (flat_map (keyframesOf eng) rules) -> In t (keyframes st'))
         /\ (forall t, In t (flat_map (fontFacesOf eng) rules) -> In t (fontFaces st')))
  /\ (cssSupports eng conditionText = false ->
      collectRule eng fromSheet (CSSSupportsRule conditionText rules) st = Some ([], st))
  /\ (cssSupports eng conditionText = true ->
      collectRule eng fromSheet (CSSSupportsRule conditionText rules) st
      = match collectRuleList eng fromSheet rules st with
        | None => None
        | Some (nested, st') =>
          Some (match nested with
                | [] => []
                | _ :: _ =>
                  [str "@supports " ++ conditionText ++ str "{" ++ join [] nested ++ str "}"]
                end, st')
        end).
Proof.
  split; [|split; [intros m; apply collectRule_withMedia|split; [|split]]].
  - rewrite collectRule_media.
    destruct (collectRuleList eng fromSheet rules st) as [[[|c nested] st']|]; reflexivity.
  - intros c st' G E. rewrite collectRule_media in E.
    destruct (collectRuleList eng fromSheet rules st) as [[nested st1]|] eqn:E1;
      [|discriminate].
    assert (st1 = st') as -> by (destruct (0 <? length nested); now injection E).
    destruct (collectRuleList_grows eng fromSheet G rules st nested st' E1) as (U & _).
    destruct (collectRuleList_keeps eng fromSheet G rules st nested st' E1) as (K & F).
    split; [exact U|]. split; [exact K|exact F].
  - intros H. rewrite collectRule_supports, H. reflexivity.
  - intros H. rewrite collectRule_supports, H. simpl.
    destruct (collectRuleList eng fromSheet rules st) as [[[|c nested] st']|]; reflexivity.
Qed.

(** A media group for print on a page where no selector finds a node: no
    rule text comes of it, and its keyframes and font-face rules are kept
    all the same.  The same children in an unsupported [@supports] group
    leave no trace, and a supported one is wrapped like a media group. *)
Lemma media_group_kept_when_child_survives_witness :
  (collectRule (bareEngine [] []) (fun _ st => Some st) animatedGroup emptyCollector
   = Some ([], {| usedRules := [];
                  fontFaces := [str "@font-face { font-family: X; }"];
                  keyframes := [str "@keyframes spin { to { rotate: 1turn; } }"];
                  visitedSheets := []; warnings := []; examined := [] |})
   /\ In (str "@keyframes spin { to { rotate: 1turn; } }")
         (keyframes {| usedRules := [];
                       fontFaces := [str "@font-face { font-family: X; }"];
                       keyframes := [str "@keyframes spin { to { rotate: 1turn; } }"];
                       visitedSheets := []; warnings := []; examined := [] |}))
  /\ collectRule (unsupportingEngine [] []) (fun _ st => Some st)
       (CSSSupportsRule (str "(display: grid)")
          [CSSKeyframesRule (str "@keyframes spin { to { rotate: 1turn; } }");
           CSSStyleRule (str ".x") (str ".x { color: red; }")])
       emptyCollector
     = Some ([], emptyCollector)
  /\ collectRule (screenEngine [] []) (fun _ st => Some st)
       (CSSSupportsRule (str "(display: grid)")
          [CSSStyleRule (str ".x") (str ".x { color: red; }")])
       emptyCollector
     = Some ([str "@supports (display: grid){.x { color: red; }}"], emptyCollector).
Proof.
  split; [split; [reflexivity|]|split].
  - destruct (media_group_kept_when_child_survives (bareEngine [] []) (fun _ st => Some st)
                (str "print")
                [CSSKeyframesRule (str "@keyframes spin { to { rotate: 1turn; } }");
                 CSSFontFaceRule (str "@font-face { font-family: X; }");
                 CSSStyleRule (str ".x") (str ".x { color: red; }")]
                emptyCollector) as (_ & _ & H & _).
    destruct (H [] {| usedRules := [];
                      fontFaces := [str "@font-face { font-family: X; }"];
                      keyframes := [str "@keyframes spin { to { rotate: 1turn; } }"];
                      visitedSheets := []; warnings := []; examined := [] |})
      as (_ & K & _).
    + intros i a b E. injection E as <-. apply grows_refl.
    + reflexivity.
    + apply K. simpl. now left.
  - destruct (media_group_kept_when_child_survives (unsupportingEngine [] [])
                (fun _ st => Some st) (str "(display: grid)")
                [CSSKeyframesRule (str "@keyframes spin { to { rotate: 1turn; } }");
                 CSSStyleRule (str ".x") (str ".x { color: red; }")]
                emptyCollector) as (_ & _ & _ & H & _).
    apply H. reflexivity.
  - destruct (media_group_kept_when_child_survives (screenEngine [] [])
                (fun _ st => Some st) (str "(display: grid)")
                [CSSStyleRule (str ".x") (str ".x { color: red; }")]
                emptyCollector) as (_ & _ & _ & _ & H).
    rewrite (H eq_refl). reflexivity.
Defined.

(** X13: keyframes and font-face rules are kept whether or not anything
    uses them: every such rule of a readable style source, at the top or
    inside media groups, other grouping rules and supported [@supports]
    groups, is in the sets after the source has been processed, even when
    no style rule around it is relevant. *)
Theorem keyframes_and_font_faces_always_kept
    (useHost : bool) (net : Network) (eng : Engine) (fuel : nat)
    (i : sheetId) (s : CSSStyleSheet) (rules : list rule) (st st' : collector) :
  nth_error (sheets eng) i = Some s ->
  sheetRules s = Some rules ->
  ~ In i (visitedSheets st) ->
  collectFromStylesheet useHost net eng (S fuel) i st = Some st' ->
  (forall t, In t (flat_map (keyframesOf eng) rules) -> In t (keyframes st'))
  /\ (forall t, In t (flat_map (fontFacesOf eng) rules) -> In t (fontFaces st')).
Proof.
  intros Hs Hr Hi E. apply visitedHas_false in Hi.
  simpl in E. rewrite Hi, Hs in E. unfold examineSheet in E. rewrite Hr in E.
  simpl in E.
  destruct (collectRuleList eng (collectFromStylesheet useHost net eng fuel) rules
              (markVisited i st)) as [[n st1]|] eqn:E1; [|discriminate].
  injection E as <-. simpl.
  apply (collectRuleList_keeps eng (collectFromStylesheet useHost net eng fuel)
           (collectFromStylesheet_grows useHost net eng fuel) rules _ _ _ E1).
Qed.

Lemma keyframes_and_font_faces_always_kept_witness :
  (forall t,
      In t [str "@keyframes spin { to { rotate: 1turn; } }"] ->
      In t (keyframes
              {| usedRules := [];
                 fontFaces := [str "@font-face { font-family: X; }"];
                 keyframes := [str "@keyframes spin { to { rotate: 1turn; } }"];
                 visitedSheets := [0]; warnings := []; examined := [0] |}))
  /\ (forall t,
         In t [str "@font-face { font-family: X; }"] ->
         In t (fontFaces
                 {| usedRules := [];
                    fontFaces := [str "@font-face { font-family: X; }"];
                    keyframes := [str "@keyframes spin { to { rotate: 1turn; } }"];
                    visitedSheets := [0]; warnings := []; examined := [0] |})).
Proof.
  apply (keyframes_and_font_faces_always_kept false offlineNetwork
           (bareEngine animatedArena [0]) 0 0
           {| href := None;
              sheetRules :=
                Some [CSSMediaRule (str "print")
                        [CSSKeyframesRule (str "@keyframes spin { to { rotate: 1turn; } }");
                         CSSFontFaceRule (str "@font-face { font-family: X; }");
                         CSSStyleRule (str ".x") (str ".x { color: red; }")]] |}
           [CSSMediaRule (str "print")
              [CSSKeyframesRule (str "@keyframes spin { to { rotate: 1turn; } }");
               CSSFontFaceRule (str "@font-face { font-family: X; }");
               CSSStyleRule (str ".x") (str ".x { color: red; }")]]
           emptyCollector); try reflexivity.
  intros [].
Defined.

(** *** More on blocked style sources *)


(** X15: a blocked style source without an address is given up silently:
    it is marked visited, and no warning, no retrieval and no text comes
    of it. *)
Theorem blocked_source_without_address_is_silent
    (useHost : bool) (net : Network) (eng : Engine) (fuel : nat)
    (i : sheetId) (s : CSSStyleSheet) (st : collector) :
  nth_error (sheets eng) i = Some s ->
  sheetRules s = None ->
  truthyOpt (href s) = false ->
  ~ In i (visitedSheets st) ->
  collectFromStylesheet useHost net eng (S fuel) i st
  = Some {| usedRules := usedRules st; fontFaces := fontFaces st;
            keyframes := keyframes st;
            visitedSheets := visitedAdd i (visitedSheets st);
            warnings := warnings st; examined := examined st ++ [i] |}.
Proof.
  intros Hs Hr Hh Hi. apply visitedHas_false in Hi.
  simpl. rewrite Hi, Hs. unfold examineSheet. rewrite Hr, Hh. reflexivity.
Qed.

Lemma blocked_source_without_address_is_silent_witness :
  collectFromStylesheet true hungNetwork (screenEngine inlineBlockedArena [0]) 1 0
                        emptyCollector
  = Some {| usedRules := []; fontFaces := []; keyframes := [];
            visitedSheets := [0]; warnings := []; examined := [0] |}.
Proof.
  apply (blocked_source_without_address_is_silent true hungNetwork
           (screenEngine inlineBlockedArena [0]) 0 0
           {| href := None; sheetRules := None |} emptyCollector);
    try reflexivity.
  intros [].
Defined.



(** X17: on the direct path a stylesheet that is retrieved with an empty
    body counts as not retrieved: the result has the empty text and no
    error, and the blocked style source gets a fetch-failure warning whose
    reason reads [null]. *)
Theorem direct_empty_body_is_failure
    (useHost : bool) (net : Network) (eng : Engine) (fuel : nat)
    (i : sheetId) (s : CSSStyleSheet) (h : jsstring) (status : N) (st : collector) :
  useHost && relayAvailable net = false ->
  fetch net h = FetchResponds true status (BodyText []) ->
  nth_error (sheets eng) i = Some s ->
  sheetRules s = None ->
  href s = Some h -> truthy h = true ->
  ~ In i (visitedSheets st) ->
  fetchStylesheetText useHost net h = Some {| f_text := Some []; f_error := None |}
  /\ exists st',
       collectFromStylesheet useHost net eng (S fuel) i st = Some st'
       /\ usedRules st' = usedRules st
       /\ warnings st'
          = warnings st
            ++ [str "cssRules blocked for stylesheet: " ++ h;
                str "Failed to fetch stylesheet: " ++ h ++ str " (null)"].
Proof.
  intros Hu Hf Hs Hr Hh Ht Hi.
  assert (F : fetchStylesheetText useHost net h
              = Some {| f_text := Some []; f_error := None |}).
  { unfold fetchStylesheetText. rewrite Hu, Hf. reflexivity. }
  split; [exact F|]. eexists. split.
  - apply (collectFromStylesheet_blocked useHost net eng fuel i s h _ st
             Hs Hr Hh Ht Hi F eq_refl).
  - split; [reflexivity|]. simpl. unfold blockedWarning, fetchFailedWarning.
    simpl. rewrite <- app_assoc. reflexivity.
Qed.

Lemma direct_empty_body_is_failure_witness :
  fetchStylesheetText false emptyBodyNetwork (str "https://cdn.example/x.css")
  = Some {| f_text := Some []; f_error := None |}.
Proof.
  apply (direct_empty_body_is_failure false emptyBodyNetwork
           (screenEngine blockedArena [0; 1]) 0 0
           {| href := Some (str "https://cdn.example/x.css"); sheetRules := None |}
           (str "https://cdn.example/x.css") 200%N emptyCollector);
    try reflexivity.
  intros [].
Defined.

(** ** More on the relay *)

Lemma orElse_truthy (s : option jsstring) (fallback : jsstring) :
  fallback <> [] -> orElse s fallback <> [].
Proof.
  intros H. unfold orElse. destruct s as [[|c x]|]; simpl; congruence.
Qed.

(** X18: on the relay path a result is never empty-handed: a success
    carries a non-empty text, a failure a non-empty reason. *)
Theorem relay_result_is_never_empty (net : Network) (h : jsstring) :
  relayAvailable net = true ->
  exists result,
    fetchStylesheetText true net h = Some result
    /\ ((exists text, f_text result = Some text /\ text <> [] /\ f_error result = None)
        \/ (f_text result = None
            /\ exists reason, f_error result = Some reason /\ reason <> [])).
Proof.
  intros Ha. unfold fetchStylesheetText. rewrite Ha. simpl.
  destruct (relayPromise_resolved (relay net h)) as [response ->].
  eexists. split; [reflexivity|]. unfold classifyRelay.
  destruct (r_ok response); simpl.
  - destruct (r_text response) as [[|c t]|]; simpl.
    + right. split; [reflexivity|]. eexists. split; [reflexivity|].
      apply orElse_truthy. discriminate.
    + left. eexists. split; [reflexivity|split; [discriminate|reflexivity]].
    + right. split; [reflexivity|]. eexists. split; [reflexivity|].
      apply orElse_truthy. discriminate.
  - right. split; [reflexivity|]. eexists. split; [reflexivity|].
    apply orElse_truthy. discriminate.
Qed.

Lemma relay_result_is_never_empty_witness :
  exists result,
    fetchStylesheetText true emptySheetNetwork (str "https://cdn.example/x.css")
    = Some result
    /\ ((exists text, f_text result = Some text /\ text <> [] /\ f_error result = None)
        \/ (f_text result = None
            /\ exists reason, f_error result = Some reason /\ reason <> [])).
Proof.
  apply (relay_result_is_never_empty emptySheetNetwork (str "https://cdn.example/x.css")).
  reflexivity.
Defined.



(** X20: the promise of a relay call is settled by the first thing the
    host runs after the call, the timer callback or the message callback,
    and nothing the host runs later changes the value or the time of the
    resolution. *)
Theorem relay_first_event_settles (first : N * relay_event)
    (later : list (N * relay_event)) :
  settled (relayStep (relayStart None) first) = true
  /\ resolved (relayStep (relayStart None) first) <> None
  /\ resolved (relayRun (relayStart None) (first :: later))
     = resolved (relayStep (relayStart None) first)
  /\ resolvedAt (relayRun (relayStart None) (first :: later)) = Some (fst first).
Proof.
  assert (S1 : settled (relayStep (relayStart None) first) = true)
    by (destruct first as [now [|result]]; reflexivity).
  destruct (relayRun_settled later _ S1) as (_ & H2 & H3).
  change (relayRun (relayStart None) (first :: later))
    with (relayRun (relayStep (relayStart None) first) later).
  rewrite H2, H3. repeat split; try assumption;
    destruct first as [now [|result]]; simpl; congruence.
Qed.

(** X21: a response that arrives before the 3000 ms deadline decides the
    result at its arrival time and cancels the timer; a response that is
    not an object is read as the failure [Background fetch failed]; when
    [sendMessage] throws, the result is the message of the error, or
    [Background fetch error] for a thrown value that is not an error, and
    the timer is cancelled at once. *)
Theorem relay_early_response_wins (ms : N) (response : relay_response) (e : thrown) :
  (ms < 3000)%N ->
  relayPromise (RespondsAfter ms (ResultObject response))
  = {| settled := true; timerPending := false;
       resolved := Some response; resolvedAt := Some ms |}
  /\ relayPromise (RespondsAfter ms NotAnObject)
     = {| settled := true; timerPending := false;
          resolved := Some {| r_ok := false; r_text := None;
                              r_error := Some (str "Background fetch failed") |};
          resolvedAt := Some ms |}
  /\ relayPromise (SendThrows e)
     = {| settled := true; timerPending := false;
          resolved := Some {| r_ok := false; r_text := None;
                              r_error := Some (messageOf e (str "Background fetch error")) |};
          resolvedAt := Some 0%N |}.
Proof.
  intros Hms. unfold relayPromise, relaySchedule.
  replace (ms <? timeoutDelay)%N with true
    by (symmetry; apply N.ltb_lt; exact Hms).
  repeat split.
Qed.

Lemma relay_early_response_wins_witness :
  relayPromise (RespondsAfter 20 (ResultObject timeoutResponse))
  = {| settled := true; timerPending := false;
       resolved := Some timeoutResponse; resolvedAt := Some 20%N |}.
Proof.
  apply (relay_early_response_wins 20%N timeoutResponse NotAnError). reflexivity.
Defined.

(** ** More on the background listener *)

(** X22: the listener answers every [FETCH_CSS] message exactly once, with
    a success that carries text and no error or with a failure that
    carries an error and no text; it answers [Invalid URL] without any
    retrieval when the address is missing, not a string or empty; and it
    stays silent on every other message. *)
Theorem listener_answers_fetch_requests
    (fetch : jsstring -> fetch_outcome) (url : option jsstring) :
  (exists response,
      onMessage fetch (Some {| m_type := str "FETCH_CSS"; m_url := url |}) = Some response
      /\ ((r_ok response = true
           /\ (exists text, r_text response = Some text) /\ r_error response = None)
          \/ (r_ok response = false
              /\ r_text response = None /\ exists reason, r_error response = Some reason)))
  /\ (truthyOpt url = false ->
      forall fetch',
        onMessage fetch' (Some {| m_type := str "FETCH_CSS"; m_url := url |})
        = Some {| r_ok := false; r_text := None; r_error := Some (str "Invalid URL") |})
  /\ (forall type, type <> str "FETCH_CSS" ->
                   onMessage fetch (Some {| m_type := type; m_url := url |}) = None)
  /\ onMessage fetch None = None.
Proof.
  split; [|split; [|split]].
  - unfold onMessage. rewrite jseq_refl. simpl negb. cbv iota. cbn [m_url].
    destruct url as [[|c u]|]; simpl truthy; cbv iota;
      try solve [eexists; split; [reflexivity|]; right; simpl; eauto].
    eexists; split; [reflexivity|].
    destruct (fetch (c :: u)) as [e|[|] status [text|e]]; simpl;
      solve [left; eauto|right; eauto].
  - intros H fetch'. unfold onMessage. rewrite jseq_refl. simpl negb. cbv iota.
    cbn [m_url]. destruct url as [[|c u]|]; try reflexivity. discriminate H.
  - intros type H. unfold onMessage. cbn [m_type].
    destruct (jseq type (str "FETCH_CSS")) eqn:E; [|reflexivity].
    apply jseq_eq in E. contradiction.
  - reflexivity.
Qed.

Lemma listener_answers_fetch_requests_witness :
  onMessage (fun _ => FetchThrows NotAnError)
            (Some {| m_type := str "FETCH_CSS"; m_url := Some [] |})
  = Some {| r_ok := false; r_text := None; r_error := Some (str "Invalid URL") |}.
Proof.
  destruct (listener_answers_fetch_requests (fun _ => FetchThrows NotAnError) (Some []))
    as (_ & H & _).
  apply H. reflexivity.
Defined.

(** ** More on the snapshot assembler *)

Lemma node_induction (P : node -> Prop) :
  (forall name attrs children, Forall P children -> P (Element name attrs children)) ->
  (forall data, P (Text data)) ->
  (forall data, P (Comment data)) ->
  forall n, P n.
Proof.
  intros Helement Htext Hcomment. fix IH 1. intros [name attrs children|data|data].
  - apply Helement. induction children as [|c cs IHc]; constructor; [apply IH|exact IHc].
  - apply Htext.
  - apply Hcomment.
Qed.

Lemma hasDescendant_element (p : node -> bool) (name : jsstring)
    (attrs : list (jsstring * jsstring)) (children : list node) :
  hasDescendant p (Element name attrs children)
  = existsb (fun c => p c || hasDescendant p c) children.
Proof. reflexivity. Qed.

Lemma shallow_removeAll (p q : node -> bool) (n : node) :
  shallow p -> p (removeAll q n) = p n.
Proof.
  intros Hp. destruct n as [name attrs children|data|data]; try reflexivity.
  rewrite removeAll_element. apply Hp.
Qed.

(** After [removeAll matches], no descendant matches. *)
Lemma removeAll_clears (p : node -> bool) :
  shallow p -> forall n, hasDescendant p (removeAll p n) = false.
Proof.
  intros Hp. induction n as [name attrs children IH|data|data] using node_induction;
    try reflexivity.
  rewrite removeAll_element, hasDescendant_element.
  induction IH as [|c cs Hc _ IHcs]; simpl; [reflexivity|].
  destruct (p c) eqn:Pc; simpl; [exact IHcs|].
  now rewrite (shallow_removeAll p p c Hp), Pc, Hc, IHcs.
Qed.

(** A later [removeAll] brings no match back. *)
Lemma removeAll_stays_clear (p q : node -> bool) :
  shallow p ->
  forall n, hasDescendant p n = false -> hasDescendant p (removeAll q n) = false.
Proof.
  intros Hp. induction n as [name attrs children IH|data|data] using node_induction;
    try reflexivity.
  rewrite removeAll_element, !hasDescendant_element.
  induction IH as [|c cs Hc _ IHcs]; simpl; [reflexivity|].
  intros H. apply orb_false_iff in H as [H1 H2]. apply orb_false_iff in H1 as [Pc Dc].
  destruct (q c); simpl; [now apply IHcs|].
  now rewrite (shallow_removeAll p q c Hp), Pc, (Hc Dc), (IHcs H2).
Qed.

Lemma existsb_app_child (p : node -> bool) (cs : list node) (x : node) :
  existsb (fun c => p c || hasDescendant p c) (cs ++ [x])
  = existsb (fun c => p c || hasDescendant p c) cs || (p x || hasDescendant p x).
Proof. rewrite existsb_app. simpl. now rewrite orb_false_r. Qed.

(** Appending a child that does not match, and holds no match, brings no
    match in. *)
Lemma appendToFirst_stays_clear (p q : node -> bool) (x : node) :
  shallow p -> p x = false -> hasDescendant p x = false ->
  forall n n',
    hasDescendant p n = false -> appendToFirst q x n = Some n' ->
    hasDescendant p n' = false /\ p n' = p n.
Proof.
  intros Hp Px Dx.
  induction n as [name attrs children IH|data|data] using node_induction;
    intros n' H E; try discriminate.
  rewrite appendToFirst_element in E.
  destruct (appendToFirstIn q x children) as [children'|] eqn:El; [|discriminate].
  injection E as <-. split; [|apply Hp].
  rewrite hasDescendant_element in H |- *.
  revert children' El H.
  induction IH as [|c cs Hc _ IHcs]; intros children' El H; [discriminate|].
  simpl in El, H. apply orb_false_iff in H as [H1 H2].
  apply orb_false_iff in H1 as [Pc Dc].
  destruct (q c).
  - destruct c as [cn ca cc|d|d]; try discriminate. injection El as <-.
    cbn [existsb]. rewrite H2, orb_false_r.
    rewrite (Hp cn ca (cc ++ [x]) cc), Pc. cbn [orb].
    rewrite hasDescendant_element, existsb_app_child.
    rewrite hasDescendant_element in Dc. now rewrite Dc, Px, Dx.
  - destruct (appendToFirst q x c) as [c'|] eqn:Ec.
    + injection El as <-. cbn [existsb]. destruct (Hc c' Dc eq_refl) as [D' P'].
      now rewrite P', Pc, D', H2.
    + destruct (appendToFirstIn q x cs) as [l''|] eqn:El'; [|discriminate].
      injection El as <-. cbn [existsb]. rewrite Pc, Dc. cbn [orb].
      now apply (IHcs l'').
Qed.

Lemma appendUnder_stays_clear (p q : node -> bool) (x n : node) :
  shallow p -> p x = false -> hasDescendant p x = false ->
  hasDescendant p n = false -> hasDescendant p (appendUnder q x n) = false.
Proof.
  intros Hp Px Dx H. unfold appendUnder.
  destruct (appendToFirst q x n) as [n'|] eqn:E; [|exact H].
  now destruct (appendToFirst_stays_clear p q x Hp Px Dx n n' H E).
Qed.

Lemma fillHead_stays_clear (p : node -> bool) (options : CloneOptions)
    (css : jsstring) (n : node) :
  shallow p ->
  p (extractedStyle css) = false -> p (Text css) = false ->
  p cspMeta = false ->
  hasDescendant p n = false -> hasDescendant p (fillHead options css n) = false.
Proof.
  intros Hp Ps Pt Pm H. unfold fillHead.
  assert (H1 : hasDescendant p
                 (if truthy css
                  then appendUnder (hasTag "head") (extractedStyle css) n else n) = false).
  { destruct (truthy css); [|exact H].
    apply appendUnder_stays_clear; auto. simpl. now rewrite Pt. }
  destruct (addCsp options); [|exact H1].
  apply appendUnder_stays_clear; auto.
Qed.

Lemma shallow_hasTag (tag : String.string) : shallow (hasTag tag).
Proof. intros name attrs c c'. reflexivity. Qed.

Lemma shallow_hasAttribute (name : String.string) : shallow (hasAttribute name).
Proof. intros n attrs c c'. reflexivity. Qed.

Lemma shallow_selectors :
  shallow isExtensionElement /\ shallow isScriptPreload
  /\ shallow isStylesheetLink /\ shallow isStylePreload.
Proof. repeat split; intros name attrs c c'; reflexivity. Qed.

(** The selectors of the pruning never match a text node. *)
Lemma pruned_after (p : node -> bool) (options : CloneOptions) (root : node) :
  shallow p ->
  (p = hasTag "base" \/ p = isExtensionElement \/ p = hasAttribute "data-extension-id"
   \/ (removeScripts options = true /\ (p = hasTag "script" \/ p = isScriptPreload))
   \/ (removeOriginalStyles options = true
       /\ (p = hasTag "style" \/ p = isStylesheetLink \/ p = isStylePreload))) ->
  hasDescendant p (pruneClone options root) = false.
Proof.
  intros Hp Hcase. unfold pruneClone.
  destruct shallow_selectors as (S1 & S2 & S3 & S4).
  pose proof (shallow_hasTag) as ST. pose proof (shallow_hasAttribute) as SA.
  assert (Base : forall q n, hasDescendant p n = false ->
                             hasDescendant p (removeAll q n) = false)
    by (intros q n; now apply removeAll_stays_clear).
  destruct Hcase as [->|[->|[->|[[Hs [->| ->]]|[Hs [->|[->| ->]]]]]]];
    try rewrite Hs;
    destruct (removeScripts options); destruct (removeOriginalStyles options);
    repeat (first [apply removeAll_clears; assumption|apply Base]);
    auto using removeAll_clears.
Qed.

(** X23: once the clone is pruned and its head filled, the selector
    queries of the pruning find nothing more in it: no [base] element, no
    extension element and no element tagged [data-extension-id] below the
    root; with [removeScripts] no script and no script preload; with
    [removeOriginalStyles] no stylesheet link and no style preload, and no
    style element before the collected text is added.  This is about the
    tree of child nodes, which is what the queries walk: the contents of
    [template] elements are not children and are left as they are. *)
Theorem snapshot_tree_is_pruned (options : CloneOptions) (css : jsstring)
    (doc : document) :
  hasDescendant (hasTag "base") (snapshotRoot options css doc) = false
  /\ hasDescendant isExtensionElement (snapshotRoot options css doc) = false
  /\ hasDescendant (hasAttribute "data-extension-id") (snapshotRoot options css doc) = false
  /\ (removeScripts options = true ->
      hasDescendant (hasTag "script") (snapshotRoot options css doc) = false
      /\ hasDescendant isScriptPreload (snapshotRoot options css doc) = false)
  /\ (removeOriginalStyles options = true ->
      hasDescendant isStylesheetLink (snapshotRoot options css doc) = false
      /\ hasDescendant isStylePreload (snapshotRoot options css doc) = false
      /\ hasDescendant (hasTag "style")
           (pruneClone options (documentElement (fst (injectFreezeStyles doc)))) = false).
Proof.
  destruct shallow_selectors as (S1 & S2 & S3 & S4).
  unfold snapshotRoot. repeat split; try intros H;
    try (apply fillHead_stays_clear;
         [first [apply shallow_hasTag|apply shallow_hasAttribute|assumption]
         |reflexivity|reflexivity|reflexivity|]);
    apply pruned_after;
    first [apply shallow_hasTag|apply shallow_hasAttribute|assumption|idtac];
    rewrite ?H; intuition.
Qed.

(** [clutteredDocument] holds an element of each kind; none is found
    in its snapshot. *)
Lemma snapshot_tree_is_pruned_witness :
  (hasDescendant (hasTag "base") (documentElement clutteredDocument) = true
   /\ hasDescendant isExtensionElement (documentElement clutteredDocument) = true
   /\ hasDescendant (hasAttribute "data-extension-id") (documentElement clutteredDocument)
      = true
   /\ hasDescendant (hasTag "script") (documentElement clutteredDocument) = true
   /\ hasDescendant isScriptPreload (documentElement clutteredDocument) = true
   /\ hasDescendant isStylesheetLink (documentElement clutteredDocument) = true
   /\ hasDescendant isStylePreload (documentElement clutteredDocument) = true
   /\ hasDescendant (hasTag "style") (documentElement clutteredDocument) = true)
  /\ hasDescendant (hasTag "base")
       (snapshotRoot removeEverything (str ".a { color: red; }") clutteredDocument) = false
  /\ hasDescendant isExtensionElement
       (snapshotRoot removeEverything (str ".a { color: red; }") clutteredDocument) = false
  /\ hasDescendant (hasAttribute "data-extension-id")
       (snapshotRoot removeEverything (str ".a { color: red; }") clutteredDocument) = false
  /\ hasDescendant (hasTag "script")
       (snapshotRoot removeEverything (str ".a { color: red; }") clutteredDocument) = false
  /\ hasDescendant isScriptPreload
       (snapshotRoot removeEverything (str ".a { color: red; }") clutteredDocument) = false
  /\ hasDescendant isStylesheetLink
       (snapshotRoot removeEverything (str ".a { color: red; }") clutteredDocument) = false
  /\ hasDescendant isStylePreload
       (snapshotRoot removeEverything (str ".a { color: red; }") clutteredDocument) = false
  /\ hasDescendant (hasTag "style")
       (pruneClone removeEverything
          (documentElement (fst (injectFreezeStyles clutteredDocument)))) = false.
Proof.
  split; [repeat split; reflexivity|].
  destruct (snapshot_tree_is_pruned removeEverything (str ".a { color: red; }")
              clutteredDocument) as (H1 & H2 & H3 & H4 & H5).
  destruct (H4 eq_refl) as (H41 & H42).
  destruct (H5 eq_refl) as (H51 & H52 & H53).
  repeat split; assumption.
Defined.

Lemma appendToFirst_none (q : node -> bool) (x : node) :
  forall n, hasDescendant q n = false -> appendToFirst q x n = None.
Proof.
  induction n as [name attrs children IH|data|data] using node_induction;
    intros H; try reflexivity.
  rewrite appendToFirst_element. rewrite hasDescendant_element in H.
  assert (E : appendToFirstIn q x children = None); [|now rewrite E].
  induction IH as [|c cs Hc _ IHcs]; [reflexivity|].
  simpl in H |- *. apply orb_false_iff in H as [H1 H2].
  apply orb_false_iff in H1 as [Qc Dc].
  now rewrite Qc, (Hc Dc), (IHcs H2).
Qed.

(** X25: when the document has no [head] element anywhere below its root,
    no freeze style is attached and the collected text and the policy tag
    have nowhere to go: the tree that is serialized is the pruned clone,
    without them. *)
Theorem snapshot_without_head_drops_styles (options : CloneOptions)
    (css : jsstring) (doc : document) :
  hasDescendant (hasTag "head") (documentElement doc) = false ->
  injectFreezeStyles doc = (doc, false)
  /\ snapshotRoot options css doc = pruneClone options (documentElement doc).
Proof.
  intros H.
  assert (I : injectFreezeStyles doc = (doc, false)).
  { unfold injectFreezeStyles, documentHead.
    destruct (documentElement doc) as [name attrs children|d|d] eqn:Er;
      try reflexivity.
    destruct (jseq name (str "html")); [|reflexivity].
    destruct (find (hasTag "head") children) as [hd|] eqn:F; [|reflexivity].
    exfalso. destruct (find_some _ _ F) as [Hin Ht].
    rewrite hasDescendant_element in H.
    assert (X : existsb (fun c => hasTag "head" c || hasDescendant (hasTag "head") c)
                        children = true).
    { apply existsb_exists. exists hd. split; [exact Hin|]. now rewrite Ht. }
    congruence. }
  split; [exact I|]. unfold snapshotRoot. rewrite I. simpl fst.
  assert (P : hasDescendant (hasTag "head") (pruneClone options (documentElement doc))
              = false).
  { unfold pruneClone.
    assert (Base : forall q n, hasDescendant (hasTag "head") n = false ->
                               hasDescendant (hasTag "head") (removeAll q n) = false)
      by (intros q n; apply removeAll_stays_clear; apply shallow_hasTag).
    destruct (removeScripts options), (removeOriginalStyles options);
      repeat apply Base; exact H. }
  unfold fillHead, appendUnder.
  rewrite !(appendToFirst_none _ _ _ P).
  destruct (truthy css); rewrite ?(appendToFirst_none _ _ _ P);
    now destruct (addCsp options).
Qed.

Lemma snapshot_without_head_drops_styles_witness :
  snapshotRoot {| removeScripts := true; removeOriginalStyles := true;
                  useHostFetch := false; addCsp := true |}
               (str ".a { color: red; }") headlessDocument
  = pruneClone {| removeScripts := true; removeOriginalStyles := true;
                  useHostFetch := false; addCsp := true |}
               (documentElement headlessDocument).
Proof.
  apply (snapshot_without_head_drops_styles
           {| removeScripts := true; removeOriginalStyles := true;
              useHostFetch := false; addCsp := true |}
           (str ".a { color: red; }") headlessDocument).
  reflexivity.
Defined.

Lemma hasDescendant_weaken (p q : node -> bool) :
  (forall n, p n = true -> q n = true) ->
  forall n, hasDescendant q n = false -> hasDescendant p n = false.
Proof.
  intros Hpq. induction n as [name attrs children IH|data|data] using node_induction;
    try reflexivity.
  rewrite !hasDescendant_element.
  induction IH as [|c cs Hc _ IHcs]; simpl; [reflexivity|].
  intros H. apply orb_false_iff in H as [H1 H2]. apply orb_false_iff in H1 as [Qc Dc].
  rewrite (Hc Dc), (IHcs H2), orb_false_r.
  destruct (p c) eqn:Pc; [|reflexivity]. apply Hpq in Pc. congruence.
Qed.

(** X26: with [removeOriginalStyles] the freeze style element does not
    reach the snapshot: no style element tagged [data-pc-freeze] is left
    below the root of the tree that is serialized. *)
Theorem freeze_style_removed_with_original_styles (options : CloneOptions)
    (css : jsstring) (doc : document) :
  removeOriginalStyles options = true ->
  hasDescendant (fun n => hasTag "style" n && hasAttribute "data-pc-freeze" n)
                (snapshotRoot options css doc) = false.
Proof.
  intros H. unfold snapshotRoot.
  apply fillHead_stays_clear; try reflexivity.
  - intros name attrs c c'. reflexivity.
  - apply (hasDescendant_weaken _ (hasTag "style")).
    + intros n Hn. now apply andb_true_iff in Hn as [Hn _].
    + apply pruned_after; [apply shallow_hasTag|]. rewrite H. intuition.
Qed.

Lemma freeze_style_removed_with_original_styles_witness :
  hasDescendant (fun n => hasTag "style" n && hasAttribute "data-pc-freeze" n)
    (snapshotRoot {| removeScripts := false; removeOriginalStyles := true;
                     useHostFetch := false; addCsp := false |}
                  (str ".a { color: red; }") simpleDocument) = false.
Proof.
  apply (freeze_style_removed_with_original_styles
           {| removeScripts := false; removeOriginalStyles := true;
              useHostFetch := false; addCsp := false |}
           (str ".a { color: red; }") simpleDocument).
  reflexivity.
Defined.

(** ** Coverage of the traversal *)

Lemma collectFromStylesheet_visits (useHost : bool) (net : Network) (eng : Engine)
    (fuel : nat) (i : sheetId) (st st' : collector) :
  collectFromStylesheet useHost net eng fuel i st = Some st' ->
  incl (visitedSheets st) (visitedSheets st')
  /\ (i < length (sheets eng) -> In i (visitedSheets st')).
Proof.
  intros E.
  assert (M : forall fuel j a b,
             collectFromStylesheet useHost net eng fuel j a = Some b ->
             incl (visitedSheets a) (visitedSheets b)).
  { intros fuel0 j a b.
    apply (collectFromStylesheet_preserves useHost net eng
             (fun a b => incl (visitedSheets a) (visitedSheets b)));
      try (intros; apply incl_refl).
    - intros x y z. apply incl_tran.
    - intros k s t Ht. simpl. apply visitedAdd_In. now right. }
  split; [exact (M _ _ _ _ E)|]. intros Hlt.
  destruct fuel as [|fuel]; simpl in E;
    destruct (visitedHas i (visitedSheets st)) eqn:V;
    try (injection E as <-; now apply visitedHas_In);
    destruct (nth_error (sheets eng) i) as [s|] eqn:Es;
    try discriminate;
    try (apply nth_error_None in Es; lia).
  assert (P : forall rules n a b,
             collectRules eng (collectFromStylesheet useHost net eng fuel) rules a
             = Some (n, b) ->
             incl (visitedSheets a) (visitedSheets b)).
  { intros rules n a b.
    apply (collectRules_preserves eng
             (fun a b => incl (visitedSheets a) (visitedSheets b)));
      try (intros; apply incl_refl).
    - intros x y z. apply incl_tran.
    - intros j x y. apply M. }
  assert (R : incl (visitedSheets (markVisited i st)) (visitedSheets st')).
  { revert E. unfold examineSheet.
    destruct (sheetRules s) as [rules|].
    - destruct (collectRules eng _ (Some rules) (markVisited i st))
        as [[n st1]|] eqn:E1; [|discriminate].
      intros E. injection E as <-. exact (P _ _ _ _ E1).
    - destruct (negb (truthyOpt (href s))); [intros E; injection E as <-; apply incl_refl|].
      destruct (fetchStylesheetText useHost net _) as [res|]; [|discriminate].
      destruct (negb (truthyOpt (f_text res)));
        [intros E; injection E as <-; apply incl_refl|].
      destruct (collectRules eng _ _ _) as [[n st1]|] eqn:E1; [|discriminate].
      intros E. injection E as <-. exact (P _ _ _ _ E1). }
  apply R. simpl. apply visitedAdd_In. now left.
Qed.

(** X27: no style source of the document is skipped: after the
    collection every entry of [document.styleSheets] is in the visited
    set. *)
Theorem every_document_sheet_is_visited
    (useHost : bool) (net : Network) (eng : Engine) (warningsSoFar : list jsstring) :
  exists st,
    collectUsedCss useHost net eng warningsSoFar = Some (collectedText st, st)
    /\ forall i, In i (documentStyleSheets eng) -> i < length (sheets eng) ->
                 In i (visitedSheets st).
Proof.
  destruct (collectUsedCss_returns useHost net eng warningsSoFar) as (st & E & _).
  exists st. split; [exact E|].
  unfold collectUsedCss in E.
  destruct (collectSheets useHost net eng (length (sheets eng))
              (documentStyleSheets eng) _) as [st1|] eqn:E1; [|discriminate].
  injection E as _ <-. revert E1.
  generalize (length (sheets eng)) at 1.
  generalize {| usedRules := []; fontFaces := []; keyframes := [];
                visitedSheets := []; warnings := warningsSoFar; examined := [] |}.
  induction (documentStyleSheets eng) as [|j l IH]; intros st0 fuel E1 i Hin Hlt;
    [destruct Hin|].
  simpl in E1.
  destruct (collectFromStylesheet useHost net eng fuel j st0) as [st2|] eqn:E2;
    [|discriminate].
  destruct Hin as [->|Hin]; [|exact (IH _ _ E1 i Hin Hlt)].
  destruct (collectFromStylesheet_visits useHost net eng fuel i st0 st2 E2) as [_ V].
  specialize (V Hlt). clear IH E2. revert st2 V E1.
  induction l as [|k l IHl]; intros st2 V E1; simpl in E1.
  - now injection E1 as <-.
  - destruct (collectFromStylesheet useHost net eng fuel k st2) as [st3|] eqn:E3;
      [|discriminate].
    apply (IHl st3); [|exact E1].
    destruct (collectFromStylesheet_visits useHost net eng fuel k st2 st3 E3) as [I _].
    now apply I.
Qed.
